(** * Interactive Sudoku Solver: the solver engine, embedded and verified

    A shallow embedding of the solver engine (the classes [SudokuSolver],
    [SudokuSolver.InternalSolver], [SudokuSolver.CandidateSelector],
    [SudokuSolver.HandlerAccumulator] and [LookupTables]) together with the
    properties its specification states about it.

    Conventions.
    - JavaScript numbers that the engine only uses as integers are [Z];
      the 32-bit behaviour of the bitwise operators and the wrap-around of
      typed-array stores are written out ([toInt32], [toUint16], ...).
    - Typed arrays and arrays are lists, read with [l !! i] and written with
      [<[i:=x]> l]; an out-of-range typed-array store does nothing in
      JavaScript as well.
    - Fractions ([progressRatio], scores) are exact rationals [Q]. *)

From Stdlib Require Import ZArith QArith Qround Lia Lqa List Bool Sorted String.
From stdpp Require Import base list.

Open Scope Z_scope.

(** ** JavaScript integer primitives *)

Module JS.

(** [ToInt32]: the operand conversion of [&], [|], [^], [<<], [>>]. *)
Definition toInt32 (x : Z) : Z := (x + 2 ^ 31) mod 2 ^ 32 - 2 ^ 31.

(** [ToUint32]: the operand conversion of [Math.clz32]. *)
Definition toUint32 (x : Z) : Z := x mod 2 ^ 32.

(** A store into a [Uint16Array]. *)
Definition toUint16 (x : Z) : Z := x mod 2 ^ 16.

(** A store into an [Int16Array]. *)
Definition toInt16 (x : Z) : Z := (x + 2 ^ 15) mod 2 ^ 16 - 2 ^ 15.

(** A store into a [Uint8Array]. *)
Definition toUint8 (x : Z) : Z := x mod 2 ^ 8.

(** [a & b] *)
Definition and (a b : Z) : Z := Z.land (toInt32 a) (toInt32 b).

(** [a | b] *)
Definition or (a b : Z) : Z := Z.lor (toInt32 a) (toInt32 b).

(** [a ^ b] *)
Definition xor (a b : Z) : Z := Z.lxor (toInt32 a) (toInt32 b).

(** [~a] *)
Definition not (a : Z) : Z := Z.lnot (toInt32 a).

(** [a << n]: the count is taken modulo 32, the result wraps to 32 bits. *)
Definition shl (a n : Z) : Z := toInt32 (Z.shiftl (toInt32 a) (Z.land n 31)).

(** [a >> n]: arithmetic shift. *)
Definition shr (a n : Z) : Z := Z.shiftr (toInt32 a) (Z.land n 31).

(** [Math.clz32(x)] *)
Definition clz32 (x : Z) : Z :=
  let u := toUint32 x in
  if u =? 0 then 32 else 31 - Z.log2 u.

End JS.

(** ** LookupTables (static members) *)

Module LookupTables.

(** [static fromValue = (i) => 1 << (i - 1)] *)
Definition fromValue (i : Z) : Z := JS.shl 1 (i - 1).

(** [static toValue(v) { return 32 - Math.clz32(v); }] *)
Definition toValue (v : Z) : Z := 32 - JS.clz32 v.

(** [static maxValue(v) { return 32 - Math.clz32(v); }] *)
Definition maxValue (v : Z) : Z := 32 - JS.clz32 v.

(** [static minValue(v) { return 32 - Math.clz32(v & -v); }] *)
Definition minValue (v : Z) : Z := 32 - JS.clz32 (JS.and v (- v)).

(** [static toIndex(v) { return 31 - Math.clz32(v); }] *)
Definition toIndex (v : Z) : Z := 31 - JS.clz32 v.

(** The loop of [toValuesArray]:
    [while (values) { value = values & -values; values ^= value;
                      result.push(toValue(value)); }]
    Every pass clears one bit of a 32-bit integer; [None] is an exhausted
    iteration budget. *)
Fixpoint toValuesArray_loop (fuel : nat) (values : Z) : option (list Z) :=
  if values =? 0 then Some []
  else match fuel with
       | O => None
       | S fuel' =>
           let value := JS.and values (- values) in
           let values' := JS.xor values value in
           match toValuesArray_loop fuel' values' with
           | Some rest => Some (toValue value :: rest)
           | None => None
           end
       end.

Definition toValuesArray (values : Z) : option (list Z) :=
  toValuesArray_loop 32 values.

(** [static fromValuesArray = (xs) => { result = 0; for x: result |= fromValue(x) }] *)
Definition fromValuesArray (xs : list Z) : Z :=
  fold_left (fun result x => JS.or result (fromValue x)) xs 0.

End LookupTables.

(** ** SudokuSolver.Util *)

Module Util.

(** [gridToSolution(grid) { return grid.map(value => LookupTables.toValue(value)); }]
    The grid is a [Uint16Array], so is the result of [map]. *)
Definition gridToSolution (grid : list Z) : list Z :=
  map (fun value => JS.toUint16 (LookupTables.toValue value)) grid.

End Util.

(** ** SudokuSolver.HandlerAccumulator

    The queue of handler indices is an intrusive singly-linked list in an
    [Int16Array]: slot [-2] is "not in the list", [-1] ends the list, any
    other value is the index of the next handler.  The per-cell index maps
    come from [HandlerSet], whose class is not part of the sources: they
    are parameters here. *)

Module HandlerAccumulator.

Record Maps := {
  ordinaryHandlers : nat -> list nat;   (* handlerSet.getOrdinaryHandlerMap()[cell] *)
  auxHandlers : nat -> list nat;        (* handlerSet.getAuxHandlerMap()[cell] *)
  exclusionHandlers : nat -> nat;       (* handlerSet.getExclusionHandlerMap()[cell] *)
}.

Record t := {
  linkedList : list Z;
  head : Z;
  tail : Z;
}.

(** [constructor]: [linkedList.fill(-2); head = -1; tail = -1]. *)
Definition make (numHandlers : nat) : t :=
  {| linkedList := repeat (-2) numHandlers; head := -1; tail := -1 |}.

(** A typed-array read at a number that may be negative. *)
Definition read (ll : list Z) (i : Z) : option Z :=
  if i <? 0 then None else ll !! Z.to_nat i.

(** A typed-array store at a number that may be negative. *)
Definition store (ll : list Z) (i : Z) (v : Z) : list Z :=
  if i <? 0 then ll else <[Z.to_nat i := JS.toInt16 v]> ll.

(** One pass of the loop of [_enqueueIndexes]. *)
Definition enqueueIndex (a : t) (i : nat) : t :=
  match a.(linkedList) !! i with
  | Some slot =>
      if slot <? -1 then
        let ll1 := if a.(head) =? -1 then a.(linkedList)
                   else store a.(linkedList) a.(tail) (Z.of_nat i) in
        let head1 := if a.(head) =? -1 then Z.of_nat i else a.(head) in
        {| linkedList := store ll1 (Z.of_nat i) (-1);
           head := head1;
           tail := Z.of_nat i |}
      else a
  | None => a   (* [undefined < -1] is false *)
  end.

Definition _enqueueIndexes (indexes : list nat) (a : t) : t :=
  fold_left enqueueIndex indexes a.

Definition _pushIndex (index : nat) (a : t) : t :=
  match a.(linkedList) !! index with
  | Some slot =>
      if slot <? -1 then
        {| linkedList := store a.(linkedList) (Z.of_nat index) a.(head);
           head := Z.of_nat index;
           tail := if a.(head) =? -1 then Z.of_nat index else a.(tail) |}
      else a
  | None => a
  end.

Definition addForFixedCell (m : Maps) (cell : nat) (a : t) : t :=
  _pushIndex (m.(exclusionHandlers) cell) a.

Definition addAuxForCell (m : Maps) (cell : nat) (a : t) : t :=
  _enqueueIndexes (m.(auxHandlers) cell) a.

Definition addForCell (m : Maps) (cell : nat) (a : t) : t :=
  _enqueueIndexes (m.(ordinaryHandlers) cell) a.

(** The loop of [clear]: [while (head >= 0) { newHead = ll[head];
    ll[head] = -2; head = newHead; }].  A read off the array ends the
    walk ([undefined >= 0] is false). *)
Fixpoint clear_loop (fuel : nat) (ll : list Z) (h : Z) : option (list Z) :=
  if h <? 0 then Some ll
  else match fuel with
       | O => None
       | S fuel' =>
           match read ll h with
           | Some newHead => clear_loop fuel' (store ll h (-2)) newHead
           | None => Some ll
           end
       end.

Definition clear (a : t) : option t :=
  match clear_loop (length a.(linkedList)) a.(linkedList) a.(head) with
  | Some ll => Some {| linkedList := ll; head := -1; tail := a.(tail) |}
  | None => None
  end.

Definition isEmpty (a : t) : bool := a.(head) =? -1.

(** [takeNext] returns the index of the handler taken ([this._handlers[oldHead]]).
    Every caller tests [isEmpty] first; a call on an empty queue reads off
    the array and is [None] here. *)
Definition takeNext (a : t) : option (nat * t) :=
  match read a.(linkedList) a.(head) with
  | Some next =>
      Some (Z.to_nat a.(head),
            {| linkedList := store a.(linkedList) a.(head) (-2);
               head := next;
               tail := a.(tail) |})
  | None => None
  end.

(** The sequence of queued handlers, read off the links from [head]. *)
Fixpoint contents_from (fuel : nat) (ll : list Z) (h : Z) : list nat :=
  match fuel with
  | O => []
  | S fuel' =>
      match read ll h with
      | Some next => Z.to_nat h :: contents_from fuel' ll next
      | None => []
      end
  end.

Definition contents (a : t) : list nat :=
  contents_from (length a.(linkedList)) a.(linkedList) a.(head).

(** The operations of the public interface, as data. *)
Inductive Op :=
| AddForCell (cell : nat)
| AddAuxForCell (cell : nat)
| AddForFixedCell (cell : nat)
| TakeNext
| Clear.

Definition exec (m : Maps) (op : Op) (a : t) : option t :=
  match op with
  | AddForCell c => Some (addForCell m c a)
  | AddAuxForCell c => Some (addAuxForCell m c a)
  | AddForFixedCell c => Some (addForFixedCell m c a)
  | TakeNext => match takeNext a with Some (_, a') => Some a' | None => None end
  | Clear => clear a
  end.

Fixpoint execs (m : Maps) (ops : list Op) (a : t) : option t :=
  match ops with
  | [] => Some a
  | op :: rest =>
      match exec m op a with
      | Some a' => execs m rest a'
      | None => None
      end
  end.

(** The queue the linked list stands for: a list of handler indices
    without repetition. *)
Module Queue.

Definition enqueue (n : nat) (q : list nat) (i : nat) : list nat :=
  if (i <? n)%nat && negb (bool_decide (i ∈ q)) then q ++ [i] else q.

Definition push (n : nat) (i : nat) (q : list nat) : list nat :=
  if (i <? n)%nat && negb (bool_decide (i ∈ q)) then i :: q else q.

Definition exec (n : nat) (m : Maps) (op : Op) (q : list nat) : option (list nat) :=
  match op with
  | AddForCell c => Some (fold_left (enqueue n) (m.(ordinaryHandlers) c) q)
  | AddAuxForCell c => Some (fold_left (enqueue n) (m.(auxHandlers) c) q)
  | AddForFixedCell c => Some (push n (m.(exclusionHandlers) c) q)
  | TakeNext => match q with [] => None | _ :: q' => Some q' end
  | Clear => Some []
  end.

Fixpoint execs (n : nat) (m : Maps) (ops : list Op) (q : list nat) : option (list nat) :=
  match ops with
  | [] => Some q
  | op :: rest =>
      match exec n m op q with
      | Some q' => execs n m rest q'
      | None => None
      end
  end.

End Queue.

End HandlerAccumulator.

(** ** Constraint handlers and the solver configuration

    The handler classes ([SudokuConstraintHandler.*]) and [HandlerSet] are
    not part of the sources.  A handler is the interface the engine uses:
    its [cells], [exclusionCells()], [essential] flag and the two methods
    that work on a grid.  A method reads the grid it is given and answers
    with its boolean result, the stores it makes into the grid (a
    [Uint16Array]: a store wraps and never changes the length) and, for
    [enforceConsistency], the cells it passes to the accumulator's
    [addForCell]. *)

Record Handler := {
  cells : list nat;
  exclusionCells : list nat;
  essential : bool;
  initialize : list Z -> bool * list (nat * Z);
  enforceConsistency : list Z -> bool * list (nat * Z) * list nat;
}.

(** [grid[c] = v] on a [Uint16Array]. *)
Definition storeCell (grid : list Z) (c : nat) (v : Z) : list Z :=
  <[c := JS.toUint16 v]> grid.

Definition applyStores (grid : list Z) (stores : list (nat * Z)) : list Z :=
  fold_left (fun g cv => storeCell g (fst cv) (snd cv)) stores grid.

(** A typed-array read used as a number in bitwise operations. *)
Definition readCell (grid : list Z) (c : nat) : Z := default 0 (grid !! c).

(** What the constructor of [InternalSolver] receives and derives once:
    the shape, the handler set after optimisation (with the exclusion
    enforcers added), its index maps, the house handlers with the index
    map of the candidate selector's own handler set, and the progress
    settings. *)
Record Config := {
  numCells : nat;
  numValues : Z;
  handlers : list Handler;                 (* handlerSet.getAll() *)
  maps : HandlerAccumulator.Maps;
  houseHandlers : list Handler;            (* handlerSet.getAllofType(House) *)
  houseMaps : HandlerAccumulator.Maps;     (* index maps of the selector's house handler set *)
  cellPriorities : list Z;                 (* this._cellPriorities, an Int32Array *)
}.

(** Modelled from the spec: [countOnes16bit] is a helper that is not part
    of the sources; the spec names it popcount, the number of set bits of
    a 16-bit mask. *)
Definition countOnes16bit (v : Z) : Z :=
  fold_left (fun n i => if Z.testbit v (Z.of_nat i) then n + 1 else n) (seq 0 16) 0.

(** [!(v & (v - 1))]: at most one bit is set. *)
Definition isSingletonOrZero (v : Z) : bool := JS.and v (v - 1) =? 0.

(** ** SudokuSolver.CandidateSelector *)

Module CandidateSelector.

(** The result object of [_scoreHouseCandidateValue]. *)
Record HouseCandidate := {
  score : Q;
  value : Z;
  cell0 : nat;
  cell1 : nat;
}.

Record t := {
  _cellOrder : list nat;                                (* a Uint8Array *)
  _candidateSelectionState : list (option HouseCandidate);
  _houseHandlerAccumulator : HandlerAccumulator.t;
}.

Definition with_cellOrder (s : t) (co : list nat) : t :=
  {| _cellOrder := co;
     _candidateSelectionState := s.(_candidateSelectionState);
     _houseHandlerAccumulator := s.(_houseHandlerAccumulator) |}.

Definition with_state (s : t) (st : list (option HouseCandidate)) : t :=
  {| _cellOrder := s.(_cellOrder);
     _candidateSelectionState := st;
     _houseHandlerAccumulator := s.(_houseHandlerAccumulator) |}.

Definition with_houseAcc (s : t) (a : HandlerAccumulator.t) : t :=
  {| _cellOrder := s.(_cellOrder);
     _candidateSelectionState := s.(_candidateSelectionState);
     _houseHandlerAccumulator := a |}.

(** [constructor] *)
Definition make (cfg : Config) : t :=
  {| _cellOrder := repeat 0%nat cfg.(numCells);
     _candidateSelectionState := repeat None cfg.(numCells);
     _houseHandlerAccumulator := HandlerAccumulator.make (length cfg.(houseHandlers)) |}.

(** [reset(backtrackTriggers)].  The reference to the backtrack triggers
    is the solver's own array: the selector's functions below receive it
    from the solver state. *)
Definition reset (s : t) : t :=
  {| _cellOrder := map (fun i => Z.to_nat (JS.toUint8 (Z.of_nat i))) (seq 0 (length s.(_cellOrder)));
     _candidateSelectionState := repeat None (length s.(_candidateSelectionState));
     _houseHandlerAccumulator := s.(_houseHandlerAccumulator) |}.

(** [getCellOrder(upto)] *)
Definition getCellOrder (s : t) (upto : option nat) : list nat :=
  match upto with
  | None => s.(_cellOrder)
  | Some n => take n s.(_cellOrder)
  end.

(** [array.indexOf(x, from)] *)
Fixpoint indexOf_from (l : list nat) (x : nat) (i : nat) : option nat :=
  match l with
  | [] => None
  | y :: l' => if (y =? x)%nat then Some i else indexOf_from l' x (S i)
  end.

Definition indexOf (l : list nat) (x : nat) (from : nat) : option nat :=
  indexOf_from (drop from l) x from.

(** [cellOrder[i]] read as a cell index. *)
Definition cellAt (cellOrder : list nat) (i : nat) : nat := default 0%nat (cellOrder !! i).

(** [[a[i], a[j]] = [a[j], a[i]]] *)
Definition swap (l : list nat) (i j : nat) : list nat :=
  <[j := cellAt l i]> (<[i := cellAt l j]> l).

(** [_minCountCellIndex] *)
Definition _minCountCellIndex (grid : list Z) (cellOrder : list nat) (cellDepth : nat) : nat :=
  snd (fold_left
         (fun (acc : Z * nat) i =>
            let count := countOnes16bit (readCell grid (cellAt cellOrder i)) in
            if count <? fst acc then (count, i) else acc)
         (seq cellDepth (length grid - cellDepth))
         (JS.shl 1 16, 0%nat)).

(** The [for] loop of [_selectBestCell], with its [break]. *)
Fixpoint selectBestCell_loop (bt grid : list Z) (cellOrder : list nat)
    (offsets : list nat) (maxScore : Q) (bestOffset : nat) : Q * nat :=
  match offsets with
  | [] => (maxScore, bestOffset)
  | i :: is' =>
      let cell := cellAt cellOrder i in
      let count := countOnes16bit (readCell grid cell) in
      if count <=? 1 then ((-1)%Q, i)
      else
        let score := (inject_Z (readCell bt cell) / inject_Z count)%Q in
        if Qlt_le_dec maxScore score
        then selectBestCell_loop bt grid cellOrder is' score i
        else selectBestCell_loop bt grid cellOrder is' maxScore bestOffset
  end.

Definition _selectBestCell (bt grid : list Z) (cellOrder : list nat) (cellDepth : nat) : nat :=
  let '(maxScore, bestOffset) :=
    selectBestCell_loop bt grid cellOrder
      (seq cellDepth (length grid - cellDepth)) (-1)%Q 0%nat in
  if Qeq_bool maxScore 0 then _minCountCellIndex grid cellOrder cellDepth
  else bestOffset.

(** [_scoreHouseCandidateValue] *)
Definition _scoreHouseCandidateValue (bt grid : list Z) (hcells : list nat) (v : Z)
    : HouseCandidate :=
  let '(c0, c1) :=
    fold_left (fun (cc : nat * nat) c =>
                 if JS.and (readCell grid c) v =? 0 then cc else (snd cc, c))
              hcells (0%nat, 0%nat) in
  let bt0 := readCell bt c0 in
  let bt1 := readCell bt c1 in
  if bt0 <? bt1
  then {| value := v; score := (inject_Z bt1 / 2)%Q; cell0 := c1; cell1 := c0 |}
  else {| value := v; score := (inject_Z bt0 / 2)%Q; cell0 := c0; cell1 := c1 |}.

(** The three masks computed over the cells of one house:
    [moreThanTwo |= moreThanOne & v; moreThanOne |= allValues & v;
     allValues |= v]. *)
Definition houseMasks (grid : list Z) (hcells : list nat) : Z * Z * Z :=
  fold_left (fun (m : Z * Z * Z) c =>
               let '(allValues, moreThanOne, moreThanTwo) := m in
               let v := readCell grid c in
               (JS.or allValues v,
                JS.or moreThanOne (JS.and allValues v),
                JS.or moreThanTwo (JS.and moreThanOne v)))
            hcells (0, 0, 0).

(** [while (exactlyTwo) { v = exactlyTwo & -exactlyTwo; exactlyTwo ^= v; ... }] *)
Fixpoint exactlyTwo_loop (fuel : nat) (bt grid : list Z) (hcells : list nat)
    (exactlyTwo : Z) (bestResult : HouseCandidate) : option HouseCandidate :=
  if exactlyTwo =? 0 then Some bestResult
  else match fuel with
       | O => None
       | S fuel' =>
           let v := JS.and exactlyTwo (- exactlyTwo) in
           let exactlyTwo' := JS.xor exactlyTwo v in
           let result := _scoreHouseCandidateValue bt grid hcells v in
           let best' := if Qlt_le_dec bestResult.(score) result.(score)
                        then result else bestResult in
           exactlyTwo_loop fuel' bt grid hcells exactlyTwo' best'
       end.

(** [while (!handlerAccumulator.isEmpty()) { handler = takeNext(); ... }] *)
Fixpoint houses_loop (fuel : nat) (cfg : Config) (bt grid : list Z)
    (acc : HandlerAccumulator.t) (bestResult : HouseCandidate)
    : option (HouseCandidate * HandlerAccumulator.t) :=
  if HandlerAccumulator.isEmpty acc then Some (bestResult, acc)
  else match fuel with
       | O => None
       | S fuel' =>
           match HandlerAccumulator.takeNext acc with
           | None => None
           | Some (h, acc') =>
               let hcells := match cfg.(houseHandlers) !! h with
                             | Some handler => handler.(cells)
                             | None => []
                             end in
               let '(allValues, moreThanOne, moreThanTwo) := houseMasks grid hcells in
               let exactlyTwo := JS.and moreThanOne (JS.not moreThanTwo) in
               match exactlyTwo_loop 32 bt grid hcells exactlyTwo bestResult with
               | None => None
               | Some best' => houses_loop fuel' cfg bt grid acc' best'
               end
           end
       end.

(** [Math.ceil(x) | 0] *)
Definition ceilOr0 (x : Q) : Z := JS.toInt32 (Qceiling x).

(** [_findCandidatesByHouse] *)
Definition _findCandidatesByHouse (cfg : Config) (bt grid : list Z) (s : t) (score : Q)
    : option (HouseCandidate * t) :=
  let minBt := ceilOr0 (score * 2)%Q in
  let acc :=
    fold_left (fun a i =>
                 if minBt <=? readCell bt i then
                   if isSingletonOrZero (readCell grid i) then a
                   else HandlerAccumulator.addForCell cfg.(houseMaps) i a
                 else a)
              (seq 0 (length grid)) s.(_houseHandlerAccumulator) in
  let bestResult := {| score := (-1)%Q; value := 0; cell0 := 0%nat; cell1 := 0%nat |} in
  match houses_loop (S (length acc.(HandlerAccumulator.linkedList))) cfg bt grid acc bestResult with
  | Some (best, acc') => Some (best, with_houseAcc s acc')
  | None => None
  end.

(** [_selectBestCandidate]: the answer is [[cellOffset, value, count]]. *)
Definition _selectBestCandidate (cfg : Config) (bt grid : list Z) (s : t)
    (cellDepth : nat) (isNewNode : bool) : option (nat * Z * Z * t) :=
  match default None (s.(_candidateSelectionState) !! cellDepth) with
  | Some state =>
      let s' := with_state s (<[cellDepth := None]> s.(_candidateSelectionState)) in
      match indexOf s.(_cellOrder) state.(cell1) 0 with
      | Some off => Some (off, state.(value), 1, s')
      | None => None
      end
  | None =>
      let firstValue := readCell grid (cellAt s.(_cellOrder) cellDepth) in
      if isSingletonOrZero firstValue then
        Some (cellDepth, firstValue, if firstValue =? 0 then 0 else 1, s)
      else
        let cellOffset := _selectBestCell bt grid s.(_cellOrder) cellDepth in
        let cell := cellAt s.(_cellOrder) cellOffset in
        let values := readCell grid cell in
        let value := JS.and values (- values) in
        let count := countOnes16bit values in
        if isNewNode && (2 <? count) && (0 <? readCell bt cell) then
          let score := (inject_Z (readCell bt cell) / inject_Z count)%Q in
          match _findCandidatesByHouse cfg bt grid s score with
          | None => None
          | Some (result, s1) =>
              if Qle_bool score result.(CandidateSelector.score) then
                match indexOf s1.(_cellOrder) result.(cell0) 0 with
                | Some off =>
                    Some (off, result.(CandidateSelector.value), 2,
                          with_state s1 (<[cellDepth := Some result]> s1.(_candidateSelectionState)))
                | None => None
                end
              else Some (cellOffset, value, count, s1)
          end
        else Some (cellOffset, value, count, s)
  end.

(** A step guide, [stepGuides.get(step) || {}]: a field that is absent
    or 0 is falsy in the tests [if (guide.cell)] and [if (guide.value)]. *)
Record Guide := {
  guideCell : Z;
  guideValue : Z;
}.

(** [this._stepState]; [stepGuides] is [null] until [setStepState] gives
    one. *)
Record StepState := {
  stepGuides : option (Z -> Guide);
  step : Z;
  oldGrid : list Z;
}.

(** [_adjustForStepState]: the answer is [[cellOffset, value, adjusted]];
    [None] is the [TypeError] of [stepGuides.get] on [null]. *)
Definition _adjustForStepState (stepState : StepState) (grid : list Z)
    (cellOrder : list nat) (cellDepth cellOffset : nat) (value : Z)
    : option (nat * Z * bool) :=
  match stepState.(stepGuides) with
  | None => None
  | Some guides =>
      let guide := guides stepState.(step) in
      let '(cellOffset1, adjusted1) :=
        if guide.(guideCell) =? 0 then (cellOffset, false)
        else
          match (if guide.(guideCell) <? 0 then None
                 else indexOf cellOrder (Z.to_nat guide.(guideCell)) cellDepth) with
          | Some newCellOffset => (newCellOffset, true)
          | None => (cellOffset, false)
          end in
      let cellValues := readCell grid (cellAt cellOrder cellOffset1) in
      if negb (guide.(guideValue) =? 0) then
        Some (cellOffset1, LookupTables.fromValue guide.(guideValue), true)
      else if negb (guide.(guideCell) =? 0) then
        Some (cellOffset1, JS.and cellValues (- cellValues), true)
      else Some (cellOffset1, value, adjusted1)
  end.

(** First loop of [_updateCellOrder]:
    [while (cellOffset == frontOffset && cellOffset < numCells)
       { v = grid[cellOrder[cellOffset++]]; if (!(v & (v - 1))) frontOffset++; }];
    the answer is [(cellOffset, frontOffset)]. *)
Fixpoint skipFront_loop (fuel : nat) (grid : list Z) (cellOrder : list nat)
    (cellOffset frontOffset : nat) : nat * nat :=
  match fuel with
  | O => (cellOffset, frontOffset)
  | S fuel' =>
      if (cellOffset =? frontOffset)%nat && (cellOffset <? length grid)%nat then
        let v := readCell grid (cellAt cellOrder cellOffset) in
        skipFront_loop fuel' grid cellOrder (S cellOffset)
          (if isSingletonOrZero v then S frontOffset else frontOffset)
      else (cellOffset, frontOffset)
  end.

(** Second loop of [_updateCellOrder]:
    [while (cellOffset < numCells) { v = grid[cellOrder[cellOffset]];
       if (!(v & (v - 1))) { swap(cellOffset, frontOffset); frontOffset++; }
       cellOffset++; }] *)
Fixpoint gather_loop (fuel : nat) (grid : list Z) (cellOrder : list nat)
    (cellOffset frontOffset : nat) : list nat * nat :=
  match fuel with
  | O => (cellOrder, frontOffset)
  | S fuel' =>
      if (cellOffset <? length grid)%nat then
        let v := readCell grid (cellAt cellOrder cellOffset) in
        if isSingletonOrZero v then
          gather_loop fuel' grid (swap cellOrder cellOffset frontOffset)
            (S cellOffset) (S frontOffset)
        else gather_loop fuel' grid cellOrder (S cellOffset) frontOffset
      else (cellOrder, frontOffset)
  end.

(** [_updateCellOrder]: the new cell order and [frontOffset].  Both loops
    advance [cellOffset] by one each pass and stop at [grid.length]. *)
Definition _updateCellOrder (cellOrder : list nat) (cellDepth cellOffset : nat)
    (count : Z) (grid : list Z) : list nat * nat :=
  let cellOrder1 := swap cellOrder cellOffset cellDepth in
  let frontOffset := S cellDepth in
  let cellOffset1 := S cellOffset in
  if 1 <? count then (cellOrder1, frontOffset)
  else
    let '(cellOffset2, frontOffset2) :=
      skipFront_loop (length grid - cellOffset1) grid cellOrder1 cellOffset1 frontOffset in
    gather_loop (length grid - cellOffset2) grid cellOrder1 cellOffset2 frontOffset2.

(** [selectNextCandidate]: the answer is [[nextCells, value, count]]. *)
Definition selectNextCandidate (cfg : Config) (bt : list Z) (s : t) (cellDepth : nat)
    (grid : list Z) (stepState : option StepState) (isNewNode : bool)
    : option (list nat * Z * Z * t) :=
  match _selectBestCandidate cfg bt grid s cellDepth isNewNode with
  | None => None
  | Some (cellOffset, value, count, s1) =>
      let adjustedResult :=
        match stepState with
        | None => Some (cellOffset, value, count, s1)
        | Some st =>
            match _adjustForStepState st grid s1.(_cellOrder) cellDepth cellOffset value with
            | None => None
            | Some (cellOffset', value', adjusted) =>
                if adjusted then
                  Some (cellOffset', value',
                        countOnes16bit (readCell grid (cellAt s1.(_cellOrder) cellOffset')),
                        with_state s1 (<[cellDepth := None]> s1.(_candidateSelectionState)))
                else Some (cellOffset', value', count, s1)
            end
        end in
      match adjustedResult with
      | None => None
      | Some (cellOffset2, value2, count2, s2) =>
          let '(cellOrder', nextCellDepth) :=
            _updateCellOrder s2.(_cellOrder) cellDepth cellOffset2 count2 grid in
          Some (take (nextCellDepth - cellDepth) (drop cellDepth cellOrder'),
                value2, count2, with_cellOrder s2 cellOrder')
      end
  end.

End CandidateSelector.

(** ** SudokuSolver.InternalSolver *)

Module InternalSolver.

Record Counters := {
  valuesTried : Z;
  nodesSearched : Z;
  backtracks : Z;
  guesses : Z;
  solutions : Z;
  constraintsProcessed : Z;
  progressRatio : Q;
  progressRatioPrev : Q;
  branchesIgnored : Q;
}.

Definition setc_valuesTried (v : Z) (c : Counters) : Counters :=
  {| valuesTried := v; nodesSearched := c.(nodesSearched);
     backtracks := c.(backtracks); guesses := c.(guesses);
     solutions := c.(solutions);
     constraintsProcessed := c.(constraintsProcessed);
     progressRatio := c.(progressRatio);
     progressRatioPrev := c.(progressRatioPrev);
     branchesIgnored := c.(branchesIgnored) |}.

Definition setc_nodesSearched (v : Z) (c : Counters) : Counters :=
  {| valuesTried := c.(valuesTried); nodesSearched := v;
     backtracks := c.(backtracks); guesses := c.(guesses);
     solutions := c.(solutions);
     constraintsProcessed := c.(constraintsProcessed);
     progressRatio := c.(progressRatio);
     progressRatioPrev := c.(progressRatioPrev);
     branchesIgnored := c.(branchesIgnored) |}.

Definition setc_backtracks (v : Z) (c : Counters) : Counters :=
  {| valuesTried := c.(valuesTried); nodesSearched := c.(nodesSearched);
     backtracks := v; guesses := c.(guesses); solutions := c.(solutions);
     constraintsProcessed := c.(constraintsProcessed);
     progressRatio := c.(progressRatio);
     progressRatioPrev := c.(progressRatioPrev);
     branchesIgnored := c.(branchesIgnored) |}.

Definition setc_guesses (v : Z) (c : Counters) : Counters :=
  {| valuesTried := c.(valuesTried); nodesSearched := c.(nodesSearched);
     backtracks := c.(backtracks); guesses := v; solutions := c.(solutions);
     constraintsProcessed := c.(constraintsProcessed);
     progressRatio := c.(progressRatio);
     progressRatioPrev := c.(progressRatioPrev);
     branchesIgnored := c.(branchesIgnored) |}.

Definition setc_solutions (v : Z) (c : Counters) : Counters :=
  {| valuesTried := c.(valuesTried); nodesSearched := c.(nodesSearched);
     backtracks := c.(backtracks); guesses := c.(guesses); solutions := v;
     constraintsProcessed := c.(constraintsProcessed);
     progressRatio := c.(progressRatio);
     progressRatioPrev := c.(progressRatioPrev);
     branchesIgnored := c.(branchesIgnored) |}.

Definition setc_constraintsProcessed (v : Z) (c : Counters) : Counters :=
  {| valuesTried := c.(valuesTried); nodesSearched := c.(nodesSearched);
     backtracks := c.(backtracks); guesses := c.(guesses);
     solutions := c.(solutions); constraintsProcessed := v;
     progressRatio := c.(progressRatio);
     progressRatioPrev := c.(progressRatioPrev);
     branchesIgnored := c.(branchesIgnored) |}.

Definition setc_progressRatio (v : Q) (c : Counters) : Counters :=
  {| valuesTried := c.(valuesTried); nodesSearched := c.(nodesSearched);
     backtracks := c.(backtracks); guesses := c.(guesses);
     solutions := c.(solutions);
     constraintsProcessed := c.(constraintsProcessed); progressRatio := v;
     progressRatioPrev := c.(progressRatioPrev);
     branchesIgnored := c.(branchesIgnored) |}.

Definition setc_progressRatioPrev (v : Q) (c : Counters) : Counters :=
  {| valuesTried := c.(valuesTried); nodesSearched := c.(nodesSearched);
     backtracks := c.(backtracks); guesses := c.(guesses);
     solutions := c.(solutions);
     constraintsProcessed := c.(constraintsProcessed);
     progressRatio := c.(progressRatio); progressRatioPrev := v;
     branchesIgnored := c.(branchesIgnored) |}.

Definition setc_branchesIgnored (v : Q) (c : Counters) : Counters :=
  {| valuesTried := c.(valuesTried); nodesSearched := c.(nodesSearched);
     backtracks := c.(backtracks); guesses := c.(guesses);
     solutions := c.(solutions);
     constraintsProcessed := c.(constraintsProcessed);
     progressRatio := c.(progressRatio);
     progressRatioPrev := c.(progressRatioPrev); branchesIgnored := v |}.


(** [this._progress]; [callback] tells whether a callback is installed
    ([null] otherwise).  The callback itself belongs to the consumer. *)
Record Progress := {
  frequencyMask : Z;
  callback : bool;
}.

Record Solver := {
  _initialGrid : list Z;
  _grids : list (list Z);
  _recStack : list Z;
  _progressRemainingStack : list Q;
  _runCounter : Z;
  _atStart : bool;
  done : bool;
  counters : Counters;
  _backtrackTriggers : list Z;
  _uninterestingValues : option (list Z);
  _stepState : option CandidateSelector.StepState;
  _handlerAccumulator : HandlerAccumulator.t;
  _candidateSelector : CandidateSelector.t;
  _progress : Progress;
}.

Definition set_initialGrid (v : list Z) (s : Solver) : Solver :=
  {| _initialGrid := v; _grids := s.(_grids); _recStack := s.(_recStack);
     _progressRemainingStack := s.(_progressRemainingStack);
     _runCounter := s.(_runCounter); _atStart := s.(_atStart);
     done := s.(done); counters := s.(counters);
     _backtrackTriggers := s.(_backtrackTriggers);
     _uninterestingValues := s.(_uninterestingValues);
     _stepState := s.(_stepState);
     _handlerAccumulator := s.(_handlerAccumulator);
     _candidateSelector := s.(_candidateSelector);
     _progress := s.(_progress) |}.

Definition set_grids (v : list (list Z)) (s : Solver) : Solver :=
  {| _initialGrid := s.(_initialGrid); _grids := v;
     _recStack := s.(_recStack);
     _progressRemainingStack := s.(_progressRemainingStack);
     _runCounter := s.(_runCounter); _atStart := s.(_atStart);
     done := s.(done); counters := s.(counters);
     _backtrackTriggers := s.(_backtrackTriggers);
     _uninterestingValues := s.(_uninterestingValues);
     _stepState := s.(_stepState);
     _handlerAccumulator := s.(_handlerAccumulator);
     _candidateSelector := s.(_candidateSelector);
     _progress := s.(_progress) |}.

Definition set_recStack (v : list Z) (s : Solver) : Solver :=
  {| _initialGrid := s.(_initialGrid); _grids := s.(_grids); _recStack := v;
     _progressRemainingStack := s.(_progressRemainingStack);
     _runCounter := s.(_runCounter); _atStart := s.(_atStart);
     done := s.(done); counters := s.(counters);
     _backtrackTriggers := s.(_backtrackTriggers);
     _uninterestingValues := s.(_uninterestingValues);
     _stepState := s.(_stepState);
     _handlerAccumulator := s.(_handlerAccumulator);
     _candidateSelector := s.(_candidateSelector);
     _progress := s.(_progress) |}.

Definition set_progressRemainingStack (v : list Q) (s : Solver) : Solver :=
  {| _initialGrid := s.(_initialGrid); _grids := s.(_grids);
     _recStack := s.(_recStack); _progressRemainingStack := v;
     _runCounter := s.(_runCounter); _atStart := s.(_atStart);
     done := s.(done); counters := s.(counters);
     _backtrackTriggers := s.(_backtrackTriggers);
     _uninterestingValues := s.(_uninterestingValues);
     _stepState := s.(_stepState);
     _handlerAccumulator := s.(_handlerAccumulator);
     _candidateSelector := s.(_candidateSelector);
     _progress := s.(_progress) |}.

Definition set_runCounter (v : Z) (s : Solver) : Solver :=
  {| _initialGrid := s.(_initialGrid); _grids := s.(_grids);
     _recStack := s.(_recStack);
     _progressRemainingStack := s.(_progressRemainingStack);
     _runCounter := v; _atStart := s.(_atStart); done := s.(done);
     counters := s.(counters); _backtrackTriggers := s.(_backtrackTriggers);
     _uninterestingValues := s.(_uninterestingValues);
     _stepState := s.(_stepState);
     _handlerAccumulator := s.(_handlerAccumulator);
     _candidateSelector := s.(_candidateSelector);
     _progress := s.(_progress) |}.

Definition set_atStart (v : bool) (s : Solver) : Solver :=
  {| _initialGrid := s.(_initialGrid); _grids := s.(_grids);
     _recStack := s.(_recStack);
     _progressRemainingStack := s.(_progressRemainingStack);
     _runCounter := s.(_runCounter); _atStart := v; done := s.(done);
     counters := s.(counters); _backtrackTriggers := s.(_backtrackTriggers);
     _uninterestingValues := s.(_uninterestingValues);
     _stepState := s.(_stepState);
     _handlerAccumulator := s.(_handlerAccumulator);
     _candidateSelector := s.(_candidateSelector);
     _progress := s.(_progress) |}.

Definition set_done (v : bool) (s : Solver) : Solver :=
  {| _initialGrid := s.(_initialGrid); _grids := s.(_grids);
     _recStack := s.(_recStack);
     _progressRemainingStack := s.(_progressRemainingStack);
     _runCounter := s.(_runCounter); _atStart := s.(_atStart); done := v;
     counters := s.(counters); _backtrackTriggers := s.(_backtrackTriggers);
     _uninterestingValues := s.(_uninterestingValues);
     _stepState := s.(_stepState);
     _handlerAccumulator := s.(_handlerAccumulator);
     _candidateSelector := s.(_candidateSelector);
     _progress := s.(_progress) |}.

Definition set_counters (v : Counters) (s : Solver) : Solver :=
  {| _initialGrid := s.(_initialGrid); _grids := s.(_grids);
     _recStack := s.(_recStack);
     _progressRemainingStack := s.(_progressRemainingStack);
     _runCounter := s.(_runCounter); _atStart := s.(_atStart);
     done := s.(done); counters := v;
     _backtrackTriggers := s.(_backtrackTriggers);
     _uninterestingValues := s.(_uninterestingValues);
     _stepState := s.(_stepState);
     _handlerAccumulator := s.(_handlerAccumulator);
     _candidateSelector := s.(_candidateSelector);
     _progress := s.(_progress) |}.

Definition set_backtrackTriggers (v : list Z) (s : Solver) : Solver :=
  {| _initialGrid := s.(_initialGrid); _grids := s.(_grids);
     _recStack := s.(_recStack);
     _progressRemainingStack := s.(_progressRemainingStack);
     _runCounter := s.(_runCounter); _atStart := s.(_atStart);
     done := s.(done); counters := s.(counters); _backtrackTriggers := v;
     _uninterestingValues := s.(_uninterestingValues);
     _stepState := s.(_stepState);
     _handlerAccumulator := s.(_handlerAccumulator);
     _candidateSelector := s.(_candidateSelector);
     _progress := s.(_progress) |}.

Definition set_uninterestingValues (v : option (list Z)) (s : Solver) : Solver :=
  {| _initialGrid := s.(_initialGrid); _grids := s.(_grids);
     _recStack := s.(_recStack);
     _progressRemainingStack := s.(_progressRemainingStack);
     _runCounter := s.(_runCounter); _atStart := s.(_atStart);
     done := s.(done); counters := s.(counters);
     _backtrackTriggers := s.(_backtrackTriggers);
     _uninterestingValues := v; _stepState := s.(_stepState);
     _handlerAccumulator := s.(_handlerAccumulator);
     _candidateSelector := s.(_candidateSelector);
     _progress := s.(_progress) |}.

Definition set_stepState (v : option CandidateSelector.StepState) (s : Solver) : Solver :=
  {| _initialGrid := s.(_initialGrid); _grids := s.(_grids);
     _recStack := s.(_recStack);
     _progressRemainingStack := s.(_progressRemainingStack);
     _runCounter := s.(_runCounter); _atStart := s.(_atStart);
     done := s.(done); counters := s.(counters);
     _backtrackTriggers := s.(_backtrackTriggers);
     _uninterestingValues := s.(_uninterestingValues); _stepState := v;
     _handlerAccumulator := s.(_handlerAccumulator);
     _candidateSelector := s.(_candidateSelector);
     _progress := s.(_progress) |}.

Definition set_handlerAccumulator (v : HandlerAccumulator.t) (s : Solver) : Solver :=
  {| _initialGrid := s.(_initialGrid); _grids := s.(_grids);
     _recStack := s.(_recStack);
     _progressRemainingStack := s.(_progressRemainingStack);
     _runCounter := s.(_runCounter); _atStart := s.(_atStart);
     done := s.(done); counters := s.(counters);
     _backtrackTriggers := s.(_backtrackTriggers);
     _uninterestingValues := s.(_uninterestingValues);
     _stepState := s.(_stepState); _handlerAccumulator := v;
     _candidateSelector := s.(_candidateSelector);
     _progress := s.(_progress) |}.

Definition set_candidateSelector (v : CandidateSelector.t) (s : Solver) : Solver :=
  {| _initialGrid := s.(_initialGrid); _grids := s.(_grids);
     _recStack := s.(_recStack);
     _progressRemainingStack := s.(_progressRemainingStack);
     _runCounter := s.(_runCounter); _atStart := s.(_atStart);
     done := s.(done); counters := s.(counters);
     _backtrackTriggers := s.(_backtrackTriggers);
     _uninterestingValues := s.(_uninterestingValues);
     _stepState := s.(_stepState);
     _handlerAccumulator := s.(_handlerAccumulator);
     _candidateSelector := v; _progress := s.(_progress) |}.

Definition set_progress (v : Progress) (s : Solver) : Solver :=
  {| _initialGrid := s.(_initialGrid); _grids := s.(_grids);
     _recStack := s.(_recStack);
     _progressRemainingStack := s.(_progressRemainingStack);
     _runCounter := s.(_runCounter); _atStart := s.(_atStart);
     done := s.(done); counters := s.(counters);
     _backtrackTriggers := s.(_backtrackTriggers);
     _uninterestingValues := s.(_uninterestingValues);
     _stepState := s.(_stepState);
     _handlerAccumulator := s.(_handlerAccumulator);
     _candidateSelector := s.(_candidateSelector); _progress := v |}.


Definition YIELD_ON_SOLUTION : Z := 0.
Definition YIELD_ON_STEP : Z := 1.
Definition _LOG_BACKTRACK_DECAY_INTERVAL : Z := 14.

(** The object of a [yield]. *)
Record Event := {
  ev_grid : list Z;
  ev_oldGrid : option (list Z);
  ev_isSolution : bool;
  ev_cellOrder : list nat;
  ev_values : Z;
  ev_hasContradiction : bool;
}.

(** What one call of [next()] on the generator of [run] ends with. *)
Inductive Result :=
| Yielded (e : Event)
| Returned
| Threw (msg : string).

(** The locals of one pass of the search loop that are still needed when
    the generator is resumed inside that pass. *)
Record Pending := {
  p_cellDepth : nat;
  p_nextDepth : nat;
  p_cell : nat;
  p_value : Z;
  p_hasContradiction : bool;
}.

(** Where the generator of [run] is suspended. *)
Inductive PC :=
| AtStart                              (* created, body not entered *)
| AtInitialStepYield                   (* the [yield] before the loop, step mode *)
| AtSolutionYield                      (* the [yield] of a solution *)
| AtContradictionYield (p : Pending)   (* the [yield] of every n-th contradiction *)
| AtStepYield (p : Pending)            (* the [yield] of a step *)
| Finished.

(** The generator object: its suspension point and the locals of [run].
    [droppedProgress] is a ghost field, not a variable of the source: it
    adds up the remaining progress of the frames that the loop abandons
    at [if (count === 0) continue;]. *)
Record Iter := {
  pc : PC;
  yieldWhen : Z;
  runCounter : Z;
  iterationCounterForUpdates : Z;
  recDepth : nat;
  isNewNode : bool;
  progressDelta : Q;
  lastContradictionCell : list Z;
  droppedProgress : Q;
}.

Definition seti_pc (v : PC) (it : Iter) : Iter :=
  {| pc := v; yieldWhen := it.(yieldWhen); runCounter := it.(runCounter);
     iterationCounterForUpdates := it.(iterationCounterForUpdates);
     recDepth := it.(recDepth); isNewNode := it.(isNewNode);
     progressDelta := it.(progressDelta);
     lastContradictionCell := it.(lastContradictionCell);
     droppedProgress := it.(droppedProgress) |}.

Definition seti_yieldWhen (v : Z) (it : Iter) : Iter :=
  {| pc := it.(pc); yieldWhen := v; runCounter := it.(runCounter);
     iterationCounterForUpdates := it.(iterationCounterForUpdates);
     recDepth := it.(recDepth); isNewNode := it.(isNewNode);
     progressDelta := it.(progressDelta);
     lastContradictionCell := it.(lastContradictionCell);
     droppedProgress := it.(droppedProgress) |}.

Definition seti_runCounter (v : Z) (it : Iter) : Iter :=
  {| pc := it.(pc); yieldWhen := it.(yieldWhen); runCounter := v;
     iterationCounterForUpdates := it.(iterationCounterForUpdates);
     recDepth := it.(recDepth); isNewNode := it.(isNewNode);
     progressDelta := it.(progressDelta);
     lastContradictionCell := it.(lastContradictionCell);
     droppedProgress := it.(droppedProgress) |}.

Definition seti_iterationCounterForUpdates (v : Z) (it : Iter) : Iter :=
  {| pc := it.(pc); yieldWhen := it.(yieldWhen);
     runCounter := it.(runCounter); iterationCounterForUpdates := v;
     recDepth := it.(recDepth); isNewNode := it.(isNewNode);
     progressDelta := it.(progressDelta);
     lastContradictionCell := it.(lastContradictionCell);
     droppedProgress := it.(droppedProgress) |}.

Definition seti_recDepth (v : nat) (it : Iter) : Iter :=
  {| pc := it.(pc); yieldWhen := it.(yieldWhen);
     runCounter := it.(runCounter);
     iterationCounterForUpdates := it.(iterationCounterForUpdates);
     recDepth := v; isNewNode := it.(isNewNode);
     progressDelta := it.(progressDelta);
     lastContradictionCell := it.(lastContradictionCell);
     droppedProgress := it.(droppedProgress) |}.

Definition seti_isNewNode (v : bool) (it : Iter) : Iter :=
  {| pc := it.(pc); yieldWhen := it.(yieldWhen);
     runCounter := it.(runCounter);
     iterationCounterForUpdates := it.(iterationCounterForUpdates);
     recDepth := it.(recDepth); isNewNode := v;
     progressDelta := it.(progressDelta);
     lastContradictionCell := it.(lastContradictionCell);
     droppedProgress := it.(droppedProgress) |}.

Definition seti_progressDelta (v : Q) (it : Iter) : Iter :=
  {| pc := it.(pc); yieldWhen := it.(yieldWhen);
     runCounter := it.(runCounter);
     iterationCounterForUpdates := it.(iterationCounterForUpdates);
     recDepth := it.(recDepth); isNewNode := it.(isNewNode);
     progressDelta := v;
     lastContradictionCell := it.(lastContradictionCell);
     droppedProgress := it.(droppedProgress) |}.

Definition seti_lastContradictionCell (v : list Z) (it : Iter) : Iter :=
  {| pc := it.(pc); yieldWhen := it.(yieldWhen);
     runCounter := it.(runCounter);
     iterationCounterForUpdates := it.(iterationCounterForUpdates);
     recDepth := it.(recDepth); isNewNode := it.(isNewNode);
     progressDelta := it.(progressDelta); lastContradictionCell := v;
     droppedProgress := it.(droppedProgress) |}.

Definition seti_droppedProgress (v : Q) (it : Iter) : Iter :=
  {| pc := it.(pc); yieldWhen := it.(yieldWhen);
     runCounter := it.(runCounter);
     iterationCounterForUpdates := it.(iterationCounterForUpdates);
     recDepth := it.(recDepth); isNewNode := it.(isNewNode);
     progressDelta := it.(progressDelta);
     lastContradictionCell := it.(lastContradictionCell);
     droppedProgress := v |}.

(** [_initGrid]: [this._initialGrid.fill(allValues)] with
    [allValues = (1 << numValues) - 1]. *)
Definition allValues (cfg : Config) : Z := JS.shl 1 cfg.(numValues) - 1.

Definition _initGrid (cfg : Config) : list Z :=
  repeat (JS.toUint16 (allValues cfg)) cfg.(numCells).

(** [_invalidateGrid(grid, handler)] *)
Definition _invalidateGrid (grid : list Z) (handler : Handler) : list Z :=
  let cells0 := handler.(cells) in
  let cells1 := if (length cells0 =? 0)%nat then handler.(exclusionCells) else cells0 in
  let grid1 := fold_left (fun g c => storeCell g c 0) cells1 grid in
  if (length cells1 =? 0)%nat then map (fun _ => 0) grid1 else grid1.

(** The loop "Initialize handlers" of [_setUpHandlers], over the handler
    set in index order. *)
Definition initializeHandler (grid : list Z) (handler : Handler) : list Z :=
  let '(ok, stores) := handler.(initialize) grid in
  let grid' := applyStores grid stores in
  if ok then grid' else _invalidateGrid grid' handler.

Definition _setUpHandlers (cfg : Config) : list Z :=
  fold_left initializeHandler cfg.(handlers) (_initGrid cfg).

Definition zeroCounters : Counters :=
  {| valuesTried := 0; nodesSearched := 0; backtracks := 0; guesses := 0;
     solutions := 0; constraintsProcessed := 0;
     progressRatio := 0%Q; progressRatioPrev := 0%Q; branchesIgnored := 0%Q |}.

(** [_resetStack] *)
Definition _resetStack (s : Solver) : Solver :=
  let s1 := set_candidateSelector (CandidateSelector.reset s.(_candidateSelector)) s in
  if s1.(_atStart) then s1
  else
    set_progressRemainingStack (<[0%nat := 1%Q]> s1.(_progressRemainingStack))
      (set_grids (<[0%nat := s1.(_initialGrid)]> s1.(_grids))
         (set_atStart true
            (set_done false
               (set_runCounter (s1.(_runCounter) + 1) s1)))).

(** [reset] *)
Definition reset (cfg : Config) (s : Solver) : Solver :=
  _resetStack
    (set_uninterestingValues None
       (set_backtrackTriggers cfg.(cellPriorities)
          (set_counters zeroCounters
             (set_stepState None s)))).

(** [constructor] *)
Definition make (cfg : Config) : Solver :=
  reset cfg
    {| _initialGrid := _setUpHandlers cfg;
       _grids := repeat (repeat 0 cfg.(numCells)) (S cfg.(numCells));
       _recStack := repeat 0 (S cfg.(numCells));
       _progressRemainingStack := repeat 0%Q (S cfg.(numCells));
       _runCounter := 0;
       _atStart := false;
       done := false;
       counters := zeroCounters;
       _backtrackTriggers := [];
       _uninterestingValues := None;
       _stepState := None;
       _handlerAccumulator := HandlerAccumulator.make (length cfg.(handlers));
       _candidateSelector := CandidateSelector.make cfg;
       _progress := {| frequencyMask := -1; callback := false |} |}.

(** [setProgressCallback(callback, logFrequency)] with a callback. *)
Definition setProgressCallback (logFrequency : Z) (s : Solver) : Solver :=
  set_progress {| frequencyMask := JS.shl 1 logFrequency - 1; callback := true |} s.

(** [_hasInterestingSolutions] *)
Definition _hasInterestingSolutions (cfg : Config) (grid uninterestingValues : list Z) : bool :=
  existsb (fun cell =>
             negb (JS.and (readCell grid cell) (JS.not (readCell uninterestingValues cell)) =? 0))
          (seq 0 cfg.(numCells)).

(** [_enforceConstraints]: the answer is the boolean result with the
    grid, the accumulator and [counters.constraintsProcessed] as the loop
    leaves them. *)
Fixpoint _enforceConstraints (fuel : nat) (cfg : Config) (grid : list Z)
    (gridIsComplete : bool) (acc : HandlerAccumulator.t) (constraintsProcessed : Z)
    : option (bool * list Z * HandlerAccumulator.t * Z) :=
  if HandlerAccumulator.isEmpty acc then Some (true, grid, acc, constraintsProcessed)
  else match fuel with
       | O => None
       | S fuel' =>
           match HandlerAccumulator.takeNext acc with
           | None => None
           | Some (i, acc1) =>
               match cfg.(handlers) !! i with
               | None => None
               | Some c =>
                   if gridIsComplete && negb c.(essential) then
                     _enforceConstraints fuel' cfg grid gridIsComplete acc1 constraintsProcessed
                   else
                     let '(ok, stores, adds) := c.(enforceConsistency) grid in
                     let grid' := applyStores grid stores in
                     let acc2 := fold_left
                                   (fun a cell => HandlerAccumulator.addForCell cfg.(maps) cell a)
                                   adds acc1 in
                     if ok then
                       _enforceConstraints fuel' cfg grid' gridIsComplete acc2
                         (constraintsProcessed + 1)
                     else Some (false, grid', acc2, constraintsProcessed + 1)
               end
           end
       end.

(** [setStepState({})] and [setStepState({stepGuides: g})] *)
Definition newStepState (cfg : Config) : CandidateSelector.StepState :=
  {| CandidateSelector.stepGuides := None;
     CandidateSelector.step := 0;
     CandidateSelector.oldGrid := repeat 0 cfg.(numCells) |}.

Definition setStepState_empty (cfg : Config) (s : Solver) : Solver :=
  match s.(_stepState) with
  | None => set_stepState (Some (newStepState cfg)) s
  | Some _ => s
  end.

Definition setStepState_guides (cfg : Config) (g : Z -> CandidateSelector.Guide)
    (s : Solver) : Solver :=
  let st := default (newStepState cfg) s.(_stepState) in
  set_stepState
    (Some {| CandidateSelector.stepGuides := Some g;
             CandidateSelector.step := st.(CandidateSelector.step);
             CandidateSelector.oldGrid := st.(CandidateSelector.oldGrid) |}) s.

(** *** The generator [run] *)

Definition gridAt (s : Solver) (d : nat) : list Z := default [] (s.(_grids) !! d).

Definition setGrid (d : nat) (g : list Z) (s : Solver) : Solver :=
  set_grids (<[d := g]> s.(_grids)) s.

(** [yieldEveryStep = yieldWhen === YIELD_ON_STEP] and
    [yieldOnContradiction = yieldWhen > 1 ? yieldWhen : 0]; a call
    [run()] without argument behaves as [run(0)]. *)
Definition yieldEveryStep (it : Iter) : bool := it.(yieldWhen) =? YIELD_ON_STEP.

Definition yieldOnContradiction (it : Iter) : Z :=
  if 1 <? it.(yieldWhen) then it.(yieldWhen) else 0.

(** [checkRunCounter] throws when this is true. *)
Definition staleIterator (s : Solver) (it : Iter) : bool :=
  negb (it.(runCounter) =? s.(_runCounter)).

(** The suspension points after which the source calls
    [checkRunCounter()]. *)
Definition checkedYield (p : PC) : bool :=
  match p with
  | AtInitialStepYield | AtSolutionYield | AtStepYield _ => true
  | _ => false
  end.

Definition invalidMsg : string := "Iterator no longer valid".
Definition notInitialMsg : string := "State is not in initial state.".
Definition noCallbackMsg : string := "TypeError: this._progress.callback is not a function".

(** A call [run(yieldWhen)] only creates the generator object; the body
    starts with the first [next()]. *)
Definition run (yieldWhen : Z) : Iter :=
  {| pc := AtStart; yieldWhen := yieldWhen; runCounter := 0;
     iterationCounterForUpdates := 0; recDepth := 0%nat; isNewNode := false;
     progressDelta := 0%Q; lastContradictionCell := []; droppedProgress := 0%Q |}.

Inductive PassResult :=
| Continue (s : Solver) (it : Iter)
| Suspend (s : Solver) (it : Iter) (r : Result).

(** The branch of a pass, [if (count !== 1) { recDepth++; guesses++;
    grid[cell] ^= value; this._grids[recDepth].set(grid);
    grid = this._grids[recDepth]; } grid[cell] = value;]: the answer is the
    solver and the new [recDepth], whose grid is the one to propagate. *)
Definition branch (s : Solver) (recDepth : nat) (cell : nat) (value count : Z)
    : Solver * nat :=
  let grid := gridAt s recDepth in
  let '(s1, recDepth') :=
    if count =? 1 then (s, recDepth)
    else
      let gridX := storeCell grid cell (JS.xor (readCell grid cell) value) in
      (set_counters (setc_guesses (s.(counters).(guesses) + 1) s.(counters))
         (setGrid (S recDepth) gridX (setGrid recDepth gridX s)),
       S recDepth) in
  (setGrid recDepth' (storeCell (gridAt s1 recDepth') cell value) s1, recDepth').

(** The end of a pass, from [if (hasContradiction) continue;] on. *)
Definition finishPass (cfg : Config) (s : Solver) (it : Iter) (p : Pending) : Solver * Iter :=
  if p.(p_hasContradiction) then (s, it)
  else
    let grid := gridAt s it.(recDepth) in
    let ignored :=
      match s.(_uninterestingValues) with
      | Some u => negb (_hasInterestingSolutions cfg grid u)
      | None => false
      end in
    if ignored then
      (set_counters
         (setc_branchesIgnored (s.(counters).(branchesIgnored) + it.(progressDelta))%Q
            s.(counters)) s, it)
    else
      (set_recStack (<[it.(recDepth) := JS.toUint16 (Z.of_nat p.(p_nextDepth))]> s.(_recStack)) s,
       seti_isNewNode true (seti_recDepth (S it.(recDepth)) it)).

(** The middle of a pass: the progress callback and the step [yield]. *)
Definition afterEnforce (cfg : Config) (s : Solver) (it : Iter) (p : Pending) : PassResult :=
  if (JS.and it.(iterationCounterForUpdates) s.(_progress).(frequencyMask) =? 0)
     && negb s.(_progress).(callback)
  then Suspend s (seti_pc Finished it) (Threw noCallbackMsg)
  else if yieldEveryStep it then
    let grid := storeCell (gridAt s it.(recDepth)) p.(p_cell) p.(p_value) in
    let old := match s.(_stepState) with
               | Some st => st.(CandidateSelector.oldGrid)
               | None => []
               end in
    Suspend (setGrid it.(recDepth) grid s) (seti_pc (AtStepYield p) it)
      (Yielded {| ev_grid := grid;
                  ev_oldGrid := Some old;
                  ev_isSolution := false;
                  ev_cellOrder := CandidateSelector.getCellOrder s.(_candidateSelector)
                                    (Some (S p.(p_cellDepth)));
                  ev_values := readCell old p.(p_cell);
                  ev_hasContradiction := p.(p_hasContradiction) |})
  else
    let '(s', it') := finishPass cfg s it p in Continue s' it'.

(** One pass of [while (recDepth) { ... }], up to its first [yield]. *)
Definition pass (fuel : nat) (cfg : Config) (s : Solver) (it : Iter) : option PassResult :=
  let recDepth := (it.(recDepth) - 1)%nat in
  let cellDepth := Z.to_nat (default 0 (s.(_recStack) !! recDepth)) in
  let grid := gridAt s recDepth in
  let wasNewNode := it.(isNewNode) in
  let it0 := seti_isNewNode false (seti_recDepth recDepth it) in
  if wasNewNode && (cellDepth =? cfg.(numCells))%nat then
    let c := s.(counters) in
    let s1 := set_counters
                (setc_solutions (c.(solutions) + 1)
                   (setc_progressRatio (c.(progressRatio) + it.(progressDelta))%Q c)) s in
    Some (Suspend s1 (seti_pc AtSolutionYield it0)
            (Yielded {| ev_grid := grid;
                        ev_oldGrid := None;
                        ev_isSolution := true;
                        ev_cellOrder := CandidateSelector.getCellOrder s.(_candidateSelector) None;
                        ev_values := 0;
                        ev_hasContradiction := false |}))
  else
    let s1 :=
      if wasNewNode then
        set_counters (setc_nodesSearched (s.(counters).(nodesSearched) + 1) s.(counters))
          (set_progressRemainingStack
             (<[recDepth := it.(progressDelta)]> s.(_progressRemainingStack)) s)
      else s in
    match CandidateSelector.selectNextCandidate cfg s1.(_backtrackTriggers)
            s1.(_candidateSelector) cellDepth grid s1.(_stepState) wasNewNode with
    | None => None
    | Some (nextCells, value, count, sel') =>
        let s2 := set_candidateSelector sel' s1 in
        if count =? 0 then
          Some (Continue s2
                  (seti_droppedProgress
                     (it.(droppedProgress)
                      + default 0%Q (s2.(_progressRemainingStack) !! recDepth))%Q it0))
        else
          let nextDepth := (cellDepth + length nextCells)%nat in
          let cell := default 0%nat (nextCells !! 0%nat) in
          let s3 :=
            if yieldEveryStep it then
              match s2.(_stepState) with
              | Some st =>
                  set_stepState
                    (Some {| CandidateSelector.stepGuides := st.(CandidateSelector.stepGuides);
                             CandidateSelector.step := st.(CandidateSelector.step);
                             CandidateSelector.oldGrid := grid |}) s2
              | None => s2
              end
            else s2 in
          let remaining := default 0%Q (s3.(_progressRemainingStack) !! recDepth) in
          let progressDelta := (remaining / inject_Z count)%Q in
          let s4 :=
            set_counters
              (setc_valuesTried (s3.(counters).(valuesTried) + Z.of_nat (length nextCells))
                 s3.(counters))
              (set_progressRemainingStack
                 (<[recDepth := (remaining - progressDelta)%Q]> s3.(_progressRemainingStack)) s3) in
          let iter1 := it.(iterationCounterForUpdates) + 1 in
          let decay := JS.and iter1 (JS.shl 1 _LOG_BACKTRACK_DECAY_INTERVAL - 1) =? 0 in
          let s5 :=
            if decay then
              set_backtrackTriggers (map (fun b => JS.shr b 1) s4.(_backtrackTriggers)) s4
            else s4 in
          let iter2 := if decay then JS.and iter1 (JS.shl 1 30 - 1) else iter1 in
          let '(s6, recDepth') := branch s5 recDepth cell value count in
          let grid6 := gridAt s6 recDepth' in
          let gridIsComplete := (nextDepth =? cfg.(numCells))%nat in
          match HandlerAccumulator.clear s6.(_handlerAccumulator) with
          | None => None
          | Some acc0 =>
              let acc1 :=
                fold_left
                  (fun a c =>
                     let a1 := HandlerAccumulator.addForFixedCell cfg.(maps) c a in
                     let a2 := if gridIsComplete then a1
                               else HandlerAccumulator.addAuxForCell cfg.(maps) c a1 in
                     HandlerAccumulator.addForCell cfg.(maps) c a2)
                  nextCells acc0 in
              let lcc := default (-1) (it.(lastContradictionCell) !! cellDepth) in
              let acc2 := if 0 <=? lcc
                          then HandlerAccumulator.addForCell cfg.(maps) (Z.to_nat lcc) acc1
                          else acc1 in
              let lastCC1 := if (0 <=? lcc) && (count =? 1)
                             then <[cellDepth := -1]> it.(lastContradictionCell)
                             else it.(lastContradictionCell) in
              match _enforceConstraints fuel cfg grid6 gridIsComplete acc2
                      s6.(counters).(constraintsProcessed) with
              | None => None
              | Some (ok, grid7, acc3, processed) =>
                  let hasContradiction := negb ok in
                  let s7 :=
                    set_counters (setc_constraintsProcessed processed s6.(counters))
                      (set_handlerAccumulator acc3 (setGrid recDepth' grid7 s6)) in
                  let p := {| p_cellDepth := cellDepth; p_nextDepth := nextDepth;
                              p_cell := cell; p_value := value;
                              p_hasContradiction := hasContradiction |} in
                  let it1 :=
                    seti_progressDelta progressDelta
                      (seti_iterationCounterForUpdates iter2
                         (seti_recDepth recDepth'
                            (seti_lastContradictionCell lastCC1 it0))) in
                  if hasContradiction then
                    let lastCC2 :=
                      if (0 <? cellDepth)%nat
                      then <[(cellDepth - 1)%nat := JS.toInt16 (Z.of_nat cell)]> lastCC1
                      else lastCC1 in
                    let c7 := s7.(counters) in
                    let s8 :=
                      set_backtrackTriggers
                        (<[cell := JS.toInt32 (readCell s7.(_backtrackTriggers) cell + 1)]>
                           s7.(_backtrackTriggers))
                        (set_counters
                           (setc_backtracks (c7.(backtracks) + 1)
                              (setc_progressRatio (c7.(progressRatio) + progressDelta)%Q c7)) s7) in
                    let it2 := seti_lastContradictionCell lastCC2 it1 in
                    if negb (yieldOnContradiction it =? 0)
                       && (Z.rem s8.(counters).(backtracks) (yieldOnContradiction it) =? 0)
                    then
                      Some (Suspend s8 (seti_pc (AtContradictionYield p) it2)
                              (Yielded {| ev_grid := grid7;
                                          ev_oldGrid := None;
                                          ev_isSolution := false;
                                          ev_cellOrder :=
                                            CandidateSelector.getCellOrder
                                              s8.(_candidateSelector) (Some cellDepth);
                                          ev_values := 0;
                                          ev_hasContradiction := true |}))
                    else Some (afterEnforce cfg s8 it2 p)
                  else Some (afterEnforce cfg s7 it1 p)
              end
          end
    end.

(** [while (recDepth) { ... } this.done = true;] *)
Fixpoint loop (fuel : nat) (cfg : Config) (s : Solver) (it : Iter)
    : option (Solver * Iter * Result) :=
  match fuel with
  | O => None
  | S fuel' =>
      if (it.(recDepth) =? 0)%nat then
        Some (set_done true s, seti_pc Finished it, Returned)
      else
        match pass fuel' cfg s it with
        | None => None
        | Some (Continue s' it') => loop fuel' cfg s' it'
        | Some (Suspend s' it' r) => Some (s', it', r)
        end
  end.

(** The statements between the first step [yield] and the loop. *)
Definition enterLoop (fuel : nat) (cfg : Config) (s : Solver) (it : Iter)
    : option (Solver * Iter * Result) :=
  loop fuel cfg
    (set_recStack (<[0%nat := 0]> s.(_recStack)) s)
    (seti_lastContradictionCell (repeat (-1) cfg.(numCells))
       (seti_progressDelta 1%Q
          (seti_isNewNode true
             (seti_recDepth 1%nat it)))).

(** The body of [run] up to the loop. *)
Definition start (fuel : nat) (cfg : Config) (s : Solver) (it : Iter)
    : option (Solver * Iter * Result) :=
  if negb s.(_atStart) then Some (s, seti_pc Finished it, Threw notInitialMsg)
  else
    let rc := s.(_runCounter) + 1 in
    let c := s.(counters) in
    let s1 :=
      set_counters
        (setc_progressRatio 0%Q
           (setc_progressRatioPrev (c.(progressRatioPrev) + c.(progressRatio))%Q c))
        (set_runCounter rc (set_atStart false s)) in
    let it1 := seti_iterationCounterForUpdates 0 (seti_runCounter rc it) in
    match HandlerAccumulator.clear s1.(_handlerAccumulator) with
    | None => None
    | Some acc0 =>
        let acc1 := fold_left (fun a i => HandlerAccumulator.addForCell cfg.(maps) i a)
                      (seq 0 cfg.(numCells)) acc0 in
        match _enforceConstraints fuel cfg (gridAt s1 0) false acc1
                s1.(counters).(constraintsProcessed) with
        | None => None
        | Some (_, grid, acc2, processed) =>
            let s2 :=
              set_counters (setc_constraintsProcessed processed s1.(counters))
                (set_handlerAccumulator acc2 (setGrid 0 grid s1)) in
            if yieldEveryStep it then
              Some (setStepState_empty cfg s2, seti_pc AtInitialStepYield it1,
                    Yielded {| ev_grid := grid; ev_oldGrid := None; ev_isSolution := false;
                               ev_cellOrder := []; ev_values := 0;
                               ev_hasContradiction := false |})
            else enterLoop fuel cfg s2 it1
        end
    end.

(** [iterator.next()] on the generator of [run]: resume at the
    suspension point and go on to the next [yield], [return] or [throw].
    [None] is an exhausted budget. *)
Definition next (fuel : nat) (cfg : Config) (s : Solver) (it : Iter)
    : option (Solver * Iter * Result) :=
  match it.(pc) with
  | AtStart => start fuel cfg s it
  | AtInitialStepYield =>
      if staleIterator s it then Some (s, seti_pc Finished it, Threw invalidMsg)
      else
        let s1 := match s.(_stepState) with
                  | Some st =>
                      set_stepState
                        (Some {| CandidateSelector.stepGuides := st.(CandidateSelector.stepGuides);
                                 CandidateSelector.step := 1;
                                 CandidateSelector.oldGrid := st.(CandidateSelector.oldGrid) |}) s
                  | None => s
                  end in
        enterLoop fuel cfg s1 it
  | AtSolutionYield =>
      if staleIterator s it then Some (s, seti_pc Finished it, Threw invalidMsg)
      else loop fuel cfg s it
  | AtContradictionYield p =>
      match afterEnforce cfg s it p with
      | Continue s' it' => loop fuel cfg s' it'
      | Suspend s' it' r => Some (s', it', r)
      end
  | AtStepYield p =>
      if staleIterator s it then Some (s, seti_pc Finished it, Threw invalidMsg)
      else
        let s1 := match s.(_stepState) with
                  | Some st =>
                      set_stepState
                        (Some {| CandidateSelector.stepGuides := st.(CandidateSelector.stepGuides);
                                 CandidateSelector.step := st.(CandidateSelector.step) + 1;
                                 CandidateSelector.oldGrid := st.(CandidateSelector.oldGrid) |}) s
                  | None => s
                  end in
        let '(s2, it2) := finishPass cfg s1 it p in
        loop fuel cfg s2 it2
  | Finished => Some (s, it, Returned)
  end.

(** *** solveAllPossibilities and validateLayout *)

(** What a method that drives the generator ends with: a value, or the
    exception the generator threw. *)
Inductive Outcome (A : Type) :=
| Value (a : A)
| Exception (msg : string).
Arguments Value {A} a.
Arguments Exception {A} msg.

(** [result.grid.forEach((c, i) => { valuesInSolutions[i] |= c; })] *)
Definition orInto (valuesInSolutions grid : list Z) : list Z :=
  fold_left (fun vs i => storeCell vs i (JS.or (readCell vs i) (readCell grid i)))
            (seq 0 (length grid)) valuesInSolutions.

(** The body of [for (const result of this.run()) { ... }] in
    [solveAllPossibilities].  [this._uninterestingValues] is the very
    array [valuesInSolutions] once it has been assigned: a later update
    of the array is seen through both names. *)
Definition recordSolution (s : Solver) (grid : list Z)
    (solutionsOut : list (list Z)) (valuesInSolutions : list Z)
    : Solver * list (list Z) * list Z :=
  let values' := orInto valuesInSolutions grid in
  let s1 := match s.(_uninterestingValues) with
            | Some _ => set_uninterestingValues (Some values') s
            | None => s
            end in
  let s2 := if s1.(counters).(solutions) =? 2
            then set_uninterestingValues (Some values') s1 else s1 in
  (s2, solutionsOut ++ [grid], values').

Fixpoint solveAllPossibilities_loop (fuel : nat) (cfg : Config) (s : Solver) (it : Iter)
    (solutionsOut : list (list Z)) (valuesInSolutions : list Z)
    : option (Solver * Outcome (list (list Z) * list Z)) :=
  match fuel with
  | O => None
  | S fuel' =>
      match next fuel' cfg s it with
      | None => None
      | Some (s', it', Yielded e) =>
          let '(s2, solutionsOut', values') :=
            recordSolution s' e.(ev_grid) solutionsOut valuesInSolutions in
          solveAllPossibilities_loop fuel' cfg s2 it' solutionsOut' values'
      | Some (s', _, Returned) => Some (s', Value (solutionsOut, valuesInSolutions))
      | Some (s', _, Threw msg) => Some (s', Exception msg)
      end
  end.

(** [InternalSolver.solveAllPossibilities(solutions, valuesInSolutions)] *)
Definition solveAllPossibilities (fuel : nat) (cfg : Config) (s : Solver)
    (solutionsOut : list (list Z)) (valuesInSolutions : list Z)
    : option (Solver * Outcome (list (list Z) * list Z)) :=
  solveAllPossibilities_loop fuel cfg s (run 0) solutionsOut valuesInSolutions.

Definition SEARCH_LIMIT : Z := 200.

(** [fillHouse]: [house.cells.forEach((c, i) => this._grids[0][c] = 1 << i)] *)
Definition fillHouse (house : Handler) (s : Solver) : Solver :=
  setGrid 0
    (fold_left (fun g ic => storeCell g (snd ic) (JS.shl 1 (Z.of_nat (fst ic))))
               (zip (seq 0 (length house.(cells))) house.(cells))
               (gridAt s 0)) s.

(** What [attempt(house)] answers: [true], [false] or [undefined]. *)
Inductive Verdict := Valid | Invalid | Undecided.

(** [attempt(house)]; an undecided attempt is logged with the index of
    its house and the progress ratio. *)
Definition attempt (fuel : nat) (cfg : Config) (hi : nat) (house : Handler) (s : Solver)
    (attemptLog : list (nat * Q))
    : option (Solver * list (nat * Q) * Outcome Verdict) :=
  let s1 := fillHouse house (_resetStack s) in
  let s2 := set_backtrackTriggers (map (fun b => JS.shr b 1) s1.(_backtrackTriggers)) s1 in
  match next fuel cfg s2 (run SEARCH_LIMIT) with
  | None => None
  | Some (s3, _, Yielded e) =>
      if e.(ev_isSolution) then
        Some (set_counters
                (setc_branchesIgnored (1 - s3.(counters).(progressRatio))%Q s3.(counters)) s3,
              attemptLog, Value Valid)
      else
        Some (s3, attemptLog ++ [(hi, s3.(counters).(progressRatio))], Value Undecided)
  | Some (s3, _, Returned) => Some (s3, attemptLog, Value Invalid)
  | Some (s3, _, Threw msg) => Some (s3, attemptLog, Exception msg)
  end.

(** [for (const house of houseHandlers) { result = attempt(house); ... }];
    the answer [None] inside the outcome is "no attempt was decided". *)
Fixpoint attempts (fuel : nat) (cfg : Config) (houses : list (nat * Handler)) (s : Solver)
    (attemptLog : list (nat * Q))
    : option (Solver * list (nat * Q) * Outcome (option bool)) :=
  match houses with
  | [] => Some (s, attemptLog, Value None)
  | (hi, house) :: rest =>
      match attempt fuel cfg hi house s attemptLog with
      | None => None
      | Some (s', log', Value Valid) => Some (set_done true s', log', Value (Some true))
      | Some (s', log', Value Invalid) => Some (set_done true s', log', Value (Some false))
      | Some (s', log', Value Undecided) => attempts fuel cfg rest s' log'
      | Some (s', log', Exception msg) => Some (s', log', Exception msg)
      end
  end.

(** [attemptLog.sort((a, b) => b[1] - a[1])[0]]: the sort is stable, so
    the first entry is the earliest one among those of largest ratio. *)
Fixpoint bestAttempt (attemptLog : list (nat * Q)) : option (nat * Q) :=
  match attemptLog with
  | [] => None
  | a :: rest =>
      match bestAttempt rest with
      | None => Some a
      | Some b => if Qlt_le_dec (snd a) (snd b) then Some b else Some a
      end
  end.

(** [InternalSolver.validateLayout()] *)
Definition validateLayout (fuel : nat) (cfg : Config) (s : Solver)
    : option (Solver * Outcome bool) :=
  let houses := zip (seq 0 (length cfg.(houseHandlers))) cfg.(houseHandlers) in
  match attempts fuel cfg houses s [] with
  | None => None
  | Some (s1, _, Exception msg) => Some (s1, Exception msg)
  | Some (s1, _, Value (Some result)) => Some (s1, Value result)
  | Some (s1, attemptLog, Value None) =>
      match bestAttempt attemptLog with
      | None => Some (s1, Exception "TypeError: attemptLog[0] is undefined")
      | Some (hi, _) =>
          match cfg.(houseHandlers) !! hi with
          | None => None
          | Some bestHouse =>
              let s2 := fillHouse bestHouse (_resetStack s1) in
              match next fuel cfg s2 (run 0) with
              | None => None
              | Some (s3, _, Yielded _) => Some (set_done true s3, Value true)
              | Some (s3, _, Returned) => Some (set_done true s3, Value false)
              | Some (s3, _, Threw msg) => Some (s3, Exception msg)
              end
          end
      end
  end.

End InternalSolver.

(** ** SudokuSolver (the session facade) *)

Module SudokuSolver.

(** [Util.makePencilmarks(grid)]: per cell, the set of the values of
    [toValuesArray]; the set is kept as the list of its elements. *)
Definition makePencilmarks (grid : list Z) : option (list (list Z)) :=
  mapM LookupTables.toValuesArray grid.

(** [solveAllPossibilities()]: reset, run, and turn [valuesInSolutions]
    (a fresh [Uint16Array(numCells)]) into pencilmarks. *)
Definition solveAllPossibilities (fuel : nat) (cfg : Config) (s : InternalSolver.Solver)
    : option (InternalSolver.Solver * InternalSolver.Outcome (list (list Z))) :=
  let s0 := InternalSolver.reset cfg s in
  match InternalSolver.solveAllPossibilities fuel cfg s0 [] (repeat 0 cfg.(numCells)) with
  | None => None
  | Some (s1, InternalSolver.Exception msg) => Some (s1, InternalSolver.Exception msg)
  | Some (s1, InternalSolver.Value (_, valuesInSolutions)) =>
      match makePencilmarks valuesInSolutions with
      | None => None
      | Some pm => Some (s1, InternalSolver.Value pm)
      end
  end.

(** [validateLayout()] *)
Definition validateLayout (fuel : nat) (cfg : Config) (s : InternalSolver.Solver)
    : option (InternalSolver.Solver * InternalSolver.Outcome bool) :=
  InternalSolver.validateLayout fuel cfg (InternalSolver.reset cfg s).

End SudokuSolver.

(** ** Specification predicates *)

(** *** The linked list of the accumulator stands for a queue *)

Module AccumulatorInv.

Import HandlerAccumulator.

(** [chain ll h q]: following the links of [ll] from [h] visits the
    handlers [q] in order and ends at [-1]. *)
Inductive chain (ll : list Z) : Z -> list nat -> Prop :=
| chain_end : chain ll (-1) []
| chain_link i next q :
    ll !! i = Some next -> chain ll next q -> chain ll (Z.of_nat i) (i :: q).

(** [represents a q]: the accumulator [a] holds the queue [q]. *)
Record represents (a : t) (q : list nat) : Prop := {
  rep_chain : chain a.(linkedList) a.(head) q;
  rep_nodup : NoDup q;
  rep_free : forall i slot, a.(linkedList) !! i = Some slot -> (slot = -2 <-> i ∉ q);
  rep_tail : forall t, last q = Some t -> a.(tail) = Z.of_nat t;
  rep_size : Z.of_nat (length a.(linkedList)) < 2 ^ 15;
}.

(** The accumulators that the public operations produce from a new one
    over [n] handlers. *)
Definition reachable (m : Maps) (n : nat) (a : t) : Prop :=
  exists ops, execs m ops (make n) = Some a.

(** The handlers that the ordinary and auxiliary maps name, and the
    exclusion enforcers. *)
Definition ordinaryIndex (m : Maps) (x : nat) : Prop :=
  exists c, x ∈ m.(ordinaryHandlers) c \/ x ∈ m.(auxHandlers) c.

Definition exclusionIndex (m : Maps) (y : nat) : Prop :=
  exists c, m.(exclusionHandlers) c = y.

(** No exclusion enforcer is listed in an ordinary or auxiliary map. *)
Definition separated (m : Maps) : Prop :=
  forall x, ordinaryIndex m x -> exclusionIndex m x -> False.

(** Every queued exclusion enforcer is in front of every queued ordinary
    or auxiliary handler. *)
Definition exclusionFirst (m : Maps) (q : list nat) : Prop :=
  forall i j x y, q !! i = Some x -> q !! j = Some y ->
                  ordinaryIndex m x -> exclusionIndex m y -> (j < i)%nat.

End AccumulatorInv.

(** *** Masks and house candidates *)

(** The entries of a [Uint16Array]. *)
Definition isUint16 (v : Z) : Prop := 0 <= v < 2 ^ 16.

Module SelectorSpec.









End SelectorSpec.

(** ** Example configurations *)

Module Examples.

Import HandlerAccumulator.

(** Three ordinary handlers on two cells and an exclusion enforcer per
    cell (handlers 3 and 4). *)
Definition maps6 : Maps :=
  {| ordinaryHandlers := fun c => match c with
                                  | O => [0; 1]%nat
                                  | S O => [1; 2]%nat
                                  | _ => []
                                  end;
     auxHandlers := fun _ => [];
     exclusionHandlers := fun c => (3 + c)%nat |}.

Definition ops6 : list Op :=
  [AddForCell 0; AddForFixedCell 0; AddForCell 1; AddForFixedCell 1;
   AddForFixedCell 0; TakeNext]%nat.

(** A handler that accepts every grid. *)
Definition accepting (hcells : list nat) : Handler :=
  {| cells := hcells; exclusionCells := hcells; essential := true;
     initialize := fun _ => (true, []);
     enforceConsistency := fun _ => (true, [], []) |}.

Definition noMaps : Maps :=
  {| ordinaryHandlers := fun _ => []; auxHandlers := fun _ => [];
     exclusionHandlers := fun _ => 0%nat |}.





(** A handler that only narrows one cell when it is initialized (given
    candidates). *)
Definition given (cell : nat) (mask : Z) : Handler :=
  {| cells := [cell]; exclusionCells := [cell]; essential := true;
     initialize := fun grid => (true, [(cell, Z.land (readCell grid cell) mask)]);
     enforceConsistency := fun _ => (true, [], []) |}.

(** Two cells with the values 1 to 3; cell 0 is given the candidates 1
    and 2.  Handlers 1 and 2 stand for the exclusion enforcers. *)
Definition cfgGuess : Config :=
  {| numCells := 2; numValues := 3;
     handlers := [given 0 3; accepting [0%nat]; accepting [1%nat]];
     maps := {| ordinaryHandlers := fun c => match c with O => [0%nat] | _ => [] end;
                auxHandlers := fun _ => [];
                exclusionHandlers := fun c => S c |};
     houseHandlers := [];
     houseMaps := noMaps;
     cellPriorities := [0; 0] |}.

(** Step mode with a guide that asks for the value 3 at every step:
    the solver after [setStepState({stepGuides})], and after the first
    two calls of [next()] on [run(YIELD_ON_STEP)]. *)
Definition guessStart : InternalSolver.Solver :=
  InternalSolver.setStepState_guides cfgGuess
    (fun _ => {| CandidateSelector.guideCell := 0; CandidateSelector.guideValue := 3 |})
    (InternalSolver.make cfgGuess).

Definition guessStep1 : option (InternalSolver.Solver * InternalSolver.Iter * InternalSolver.Result) :=
  Eval vm_compute in
    InternalSolver.next 10 cfgGuess guessStart
      (InternalSolver.run InternalSolver.YIELD_ON_STEP).


(** The first solution of [run()] on [cfgGuess]. *)
Definition guessFirst : option (InternalSolver.Solver * InternalSolver.Iter * InternalSolver.Result) :=
  Eval vm_compute in
    InternalSolver.next 10 cfgGuess (InternalSolver.make cfgGuess) (InternalSolver.run 0).




(** A handler that rejects every grid. *)
Definition rejecting (hcells : list nat) : Handler :=
  {| cells := hcells; exclusionCells := hcells; essential := true;
     initialize := fun _ => (true, []);
     enforceConsistency := fun _ => (false, [], []) |}.

(** A handler without cells whose [initialize] fails: its exclusion
    cells are [ecells]. *)
Definition failing (ecells : list nat) : Handler :=
  {| cells := []; exclusionCells := ecells; essential := true;
     initialize := fun _ => (false, []);
     enforceConsistency := fun _ => (true, [], []) |}.


(** The same with a failing handler that has neither cells nor
    exclusion cells. *)
Definition cfgInvalidAll : Config :=
  {| numCells := 2; numValues := 2;
     handlers := [given 0 1; failing []; accepting [0%nat]; accepting [1%nat]];
     maps := {| ordinaryHandlers := fun c => match c with O => [0%nat] | _ => [] end;
                auxHandlers := fun _ => [];
                exclusionHandlers := fun c => (2 + c)%nat |};
     houseHandlers := [];
     houseMaps := noMaps;
     cellPriorities := [0; 0] |}.

(** One cell with the values 1 and 2 and a handler that rejects every
    grid; handler 1 stands for the exclusion enforcer. *)
Definition cfgReject : Config :=
  {| numCells := 1; numValues := 2;
     handlers := [rejecting [0%nat]; accepting [0%nat]];
     maps := {| ordinaryHandlers := fun _ => [0%nat];
                auxHandlers := fun _ => [];
                exclusionHandlers := fun _ => 1%nat |};
     houseHandlers := [];
     houseMaps := noMaps;
     cellPriorities := [0] |}.

(** [run(2)] on [cfgReject] up to its first [yield], which is the
    second contradiction; then [reset()], and [next()] on the iterator
    that is now stale. *)
Definition rejectYield : option (InternalSolver.Solver * InternalSolver.Iter * InternalSolver.Result) :=
  Eval vm_compute in
    InternalSolver.next 10 cfgReject (InternalSolver.make cfgReject) (InternalSolver.run 2).

Definition rejectStale : option (InternalSolver.Solver * InternalSolver.Iter * InternalSolver.Result) :=
  Eval vm_compute in
    match rejectYield with
    | Some (s, it, _) => InternalSolver.next 10 cfgReject (InternalSolver.reset cfgReject s) it
    | None => None
    end.

(** A step state whose guide for the current step gives the value 3. *)
Definition guideValue3 : CandidateSelector.StepState :=
  {| CandidateSelector.stepGuides :=
       Some (fun _ => {| CandidateSelector.guideCell := 0;
                         CandidateSelector.guideValue := 3 |});
     CandidateSelector.step := 1;
     CandidateSelector.oldGrid := [0; 0] |}.


End Examples.

(** ** The handler contract *)

(** The spec's handler interface: a handler may clear bits of masks,
    and it enqueues other handlers for the cells it changed. *)
Module Contract.

(** [g'] has, cell by cell, a subset of the candidates of [g]. *)
Definition narrowsTo (g g' : list Z) : Prop :=
  Forall2 (fun v' v => Z.land v' v = v') g' g.

(** [enforceConsistency] only clears bits, and calls [addForCell] only
    when it has changed the grid. *)
Definition wellBehaved (h : Handler) : Prop :=
  forall g, Forall isUint16 g ->
    let '(_, stores, adds) := h.(enforceConsistency) g in
    narrowsTo g (applyStores g stores) /\
    (applyStores g stores = g -> adds = []).


(** The number of candidates left in a grid. *)
Definition popTotal (g : list Z) : Z :=
  fold_right (fun v n => countOnes16bit v + n) 0 g.

End Contract.

(** ** Setup *)

Module SetupSpec.


End SetupSpec.

(** ** Propagation as a drain of the queue *)

Module Drain.

(** The queue after a handler's calls of [addForCell]. *)
Definition enqueueCells (cfg : Config) (adds : list nat) (q : list nat) : list nat :=
  fold_left
    (fun q cell =>
       fold_left (HandlerAccumulator.Queue.enqueue (length cfg.(handlers)))
                 (cfg.(maps).(HandlerAccumulator.ordinaryHandlers) cell) q)
    adds q.

(** [drains cfg complete g q log ok g' q']: popping handlers from the
    queue [q] while it is not empty, skipping the handlers that are not
    essential when the grid is complete and running the others on the
    grid, ends with the result [ok], the grid [g'] and the queue [q'];
    [log] lists the handlers that were run, with their results. *)
Inductive drains (cfg : Config) (complete : bool)
    : list Z -> list nat -> list (nat * bool) -> bool -> list Z -> list nat -> Prop :=
| drains_empty g :
    drains cfg complete g [] [] true g []
| drains_skip g h q c log ok g' q' :
    cfg.(handlers) !! h = Some c ->
    complete = true -> c.(essential) = false ->
    drains cfg complete g q log ok g' q' ->
    drains cfg complete g (h :: q) log ok g' q'
| drains_false g h q c stores adds :
    cfg.(handlers) !! h = Some c ->
    complete && negb c.(essential) = false ->
    c.(enforceConsistency) g = (false, stores, adds) ->
    drains cfg complete g (h :: q) [(h, false)] false
      (applyStores g stores) (enqueueCells cfg adds q)
| drains_true g h q c stores adds log ok g' q' :
    cfg.(handlers) !! h = Some c ->
    complete && negb c.(essential) = false ->
    c.(enforceConsistency) g = (true, stores, adds) ->
    drains cfg complete (applyStores g stores) (enqueueCells cfg adds q) log ok g' q' ->
    drains cfg complete g (h :: q) ((h, true) :: log) ok g' q'.

(** The accumulator [acc] of the solver holds the queue [q]: it stands
    for [q] and was built for the handler set of [cfg]. *)
Definition holds (cfg : Config) (acc : HandlerAccumulator.t) (q : list nat) : Prop :=
  AccumulatorInv.represents acc q /\
  length acc.(HandlerAccumulator.linkedList) = length cfg.(handlers).

(** An iteration budget that suffices for well-behaved handlers. *)
Definition budget (cfg : Config) (g : list Z) (q : list nat) : nat :=
  (Z.to_nat (Contract.popTotal g) * S (length cfg.(handlers)) + length q + 1)%nat.

End Drain.

(** ** Progress accounting of [run] *)

Module ProgressSpec.

Import InternalSolver.

Definition sumQ (l : list Q) : Q := fold_right Qplus 0%Q l.

(** The remaining progress of the first [k] frames of the stack. *)
Definition remaining (s : Solver) (k : nat) : Q :=
  sumQ (take k s.(_progressRemainingStack)).

(** [recStack[i]] as a cell depth. *)
Definition cellDepthAt (s : Solver) (i : nat) : nat :=
  Z.to_nat (default 0 (s.(_recStack) !! i)).

(** The number of frames whose entry of [_progressRemainingStack] is
    current, and the progress that is in no counter and in no frame:
    before the loop all of it; at the head of the loop the
    [progressDelta] of a node that has been pushed and not yet visited;
    inside a pass the [progressDelta] of a branch that has met no
    contradiction. *)
Definition liveFrames (it : Iter) : nat :=
  match it.(pc) with
  | AtStart | AtInitialStepYield => 0
  | AtContradictionYield _ | AtStepYield _ => it.(recDepth)
  | AtSolutionYield | Finished =>
      if it.(isNewNode) then (it.(recDepth) - 1)%nat else it.(recDepth)
  end.

Definition inFlight (it : Iter) : Q :=
  match it.(pc) with
  | AtStart | AtInitialStepYield => 1
  | AtContradictionYield p | AtStepYield p =>
      if p.(p_hasContradiction) then 0 else it.(progressDelta)
  | AtSolutionYield | Finished =>
      if it.(isNewNode) then it.(progressDelta) else 0
  end.

(** [progressRatio + branchesIgnored + remaining(live frames)], with the
    progress in flight. *)
Definition accounted (s : Solver) (it : Iter) : Q :=
  s.(counters).(progressRatio) + s.(counters).(branchesIgnored)
  + remaining s (liveFrames it) + inFlight it.

(** The arrays of the solver have the sizes the constructor gives
    them. *)
Record sized (cfg : Config) (s : Solver) : Prop := {
  sized_recStack : length s.(_recStack) = S cfg.(numCells);
  sized_progress : length s.(_progressRemainingStack) = S cfg.(numCells);
  sized_cellOrder :
    length s.(_candidateSelector).(CandidateSelector._cellOrder) = cfg.(numCells);
}.

(** The state at the head of [while (recDepth)]. *)
Record atLoopHead (cfg : Config) (s : Solver) (it : Iter) : Prop := {
  head_sized : sized cfg s;
  head_new : it.(isNewNode) = true -> (1 <= it.(recDepth))%nat;
  head_frames : forall i, (i < it.(recDepth))%nat ->
                  (i <= cellDepthAt s i <= cfg.(numCells))%nat;
  head_old : forall i,
      (i < it.(recDepth) - (if it.(isNewNode) then 1 else 0))%nat ->
      (cellDepthAt s i < cfg.(numCells))%nat;
  head_total :
    (s.(counters).(progressRatio) + s.(counters).(branchesIgnored)
     + remaining s (it.(recDepth) - (if it.(isNewNode) then 1 else 0))
     + (if it.(isNewNode) then it.(progressDelta) else 0)
     + it.(droppedProgress) == 1)%Q;
}.

(** The state inside a pass, after the propagation. *)
Record inPass (cfg : Config) (s : Solver) (it : Iter) (p : Pending) : Prop := {
  mid_sized : sized cfg s;
  mid_new : it.(isNewNode) = false;
  mid_frames : forall i, (i < it.(recDepth))%nat ->
                 (i <= cellDepthAt s i < cfg.(numCells))%nat;
  mid_next : (it.(recDepth) <= p.(p_nextDepth) <= cfg.(numCells))%nat;
  mid_total :
    (s.(counters).(progressRatio) + s.(counters).(branchesIgnored)
     + remaining s it.(recDepth)
     + (if p.(p_hasContradiction) then 0 else it.(progressDelta))
     + it.(droppedProgress) == 1)%Q;
}.

(** The state before the loop. *)
Record beforeLoop (cfg : Config) (s : Solver) (it : Iter) : Prop := {
  pre_sized : sized cfg s;
  pre_ratio : (s.(counters).(progressRatio) == 0)%Q;
  pre_ignored : (s.(counters).(branchesIgnored) == 0)%Q;
  pre_dropped : (it.(droppedProgress) == 0)%Q;
  pre_depth : it.(recDepth) = 0%nat;
}.

Definition invariant (cfg : Config) (s : Solver) (it : Iter) : Prop :=
  match it.(pc) with
  | AtStart | AtInitialStepYield => beforeLoop cfg s it
  | AtSolutionYield => atLoopHead cfg s it
  | Finished => atLoopHead cfg s it /\ it.(recDepth) = 0%nat
  | AtContradictionYield p | AtStepYield p => inPass cfg s it p
  end.

(** The states of one run: the generator [run(yieldWhen)] on the solver
    [s0], advanced by calls of [next()] that do not throw; between the
    calls the caller may set [_uninterestingValues] and the step
    state. *)
Inductive runState (cfg : Config) (s0 : Solver) (yw : Z) : Solver -> Iter -> Prop :=
| run_created : runState cfg s0 yw s0 (run yw)
| run_next s it fuel s' it' r :
    runState cfg s0 yw s it ->
    next fuel cfg s it = Some (s', it', r) ->
    (forall msg, r <> Threw msg) ->
    runState cfg s0 yw s' it'
| run_uninteresting s it v :
    runState cfg s0 yw s it ->
    runState cfg s0 yw (set_uninterestingValues v s) it
| run_stepState s it v :
    runState cfg s0 yw s it ->
    runState cfg s0 yw (set_stepState v s) it.

End ProgressSpec.

(** ** validateLayout as a sequence of attempts *)

Module LayoutSpec.

Import InternalSolver.

(** The solver as the search of an attempt on [house] finds it: the
    stack reset, the house filled, the backtrack triggers halved. *)
Definition prepared (house : Handler) (s : Solver) : Solver :=
  let s1 := fillHouse house (_resetStack s) in
  set_backtrackTriggers (map (fun b => JS.shr b 1) s1.(_backtrackTriggers)) s1.

(** The attempts on the houses [hs], in order, are all cut off: the
    first [yield] of each search is no solution.  The solver and the
    attempt log go from [s], [log] to [s'], [log']. *)
Inductive allCutOff (fuel : nat) (cfg : Config)
    : list (nat * Handler) -> Solver -> list (nat * Q) -> Solver -> list (nat * Q) -> Prop :=
| cut_nil s log : allCutOff fuel cfg [] s log s log
| cut_cons hi house rest s log s3 it3 e s' log' :
    next fuel cfg (prepared house s) (run SEARCH_LIMIT) = Some (s3, it3, Yielded e) ->
    e.(ev_isSolution) = false ->
    allCutOff fuel cfg rest s3 (log ++ [(hi, s3.(counters).(progressRatio))]) s' log' ->
    allCutOff fuel cfg ((hi, house) :: rest) s log s' log'.


(** What a search that does not yield every step can yield: a
    solution, or a contradiction when the number of backtracks is a
    multiple of [yieldWhen]. *)
Definition yieldsOf (yw : Z) (s' : Solver) (r : Result) : Prop :=
  match r with
  | Yielded e =>
      e.(ev_isSolution) = true \/
      (e.(ev_isSolution) = false /\ e.(ev_hasContradiction) = true /\ 1 < yw /\
       Z.rem s'.(counters).(backtracks) yw = 0)
  | _ => True
  end.


End LayoutSpec.

(** ** The grids of the search *)

Module SearchSpec.

Import InternalSolver.

(** A grid of the solver: one 16-bit mask per cell. *)
Definition wellFormedGrid (cfg : Config) (g : list Z) : Prop :=
  length g = cfg.(numCells) /\ Forall isUint16 g.

(** [this._grids]: [numCells + 1] grids. *)
Definition gridsOK (cfg : Config) (s : Solver) : Prop :=
  length s.(_grids) = S cfg.(numCells) /\
  Forall (wellFormedGrid cfg) s.(_grids).

(** The number of solutions a result of [next()] stands for. *)
Definition solutionsIn (r : Result) : Z :=
  match r with
  | Yielded e => if e.(ev_isSolution) then 1 else 0
  | _ => 0
  end.


End SearchSpec.

(** ** SudokuSolver.Util.gridDifference and the tables of LookupTables *)

Module GridUtil.

(** [static gridDifference(gridA, gridB)]:
    [for (i < gridA.length) gridA[i] &= ~gridB[i];] on [Uint16Array]s.
    A cell that [gridB] does not have reads as [undefined], and
    [~undefined] is [-1]. *)
Definition gridDifference (gridA gridB : list Z) : list Z :=
  fold_left (fun a i => storeCell a i (JS.and (readCell a i) (JS.not (readCell gridB i))))
            (seq 0 (length gridA)) gridA.

End GridUtil.

(** The tables that the constructor of [LookupTables] builds for
    [numValues]. *)
Module Tables.

(** [this.allValues = (1 << numValues) - 1] and
    [this.combinations = 1 << numValues] *)
Definition allValues (numValues : Z) : Z := JS.shl 1 numValues - 1.
Definition combinations (numValues : Z) : Z := JS.shl 1 numValues.

(** [this.sum]: a [Uint8Array] filled by
    [table[i] = table[i & (i - 1)] + LookupTables.toValue(i & -i)]
    for [i] from 1. *)
Definition sum (numValues : Z) : list Z :=
  let n := Z.to_nat (combinations numValues) in
  fold_left
    (fun table k =>
       let i := Z.of_nat k in
       <[k := JS.toUint8 (readCell table (Z.to_nat (JS.and i (i - 1)))
                          + LookupTables.toValue (JS.and i (- i)))]> table)
    (seq 1 (n - 1)) (repeat 0 n).

(** [this.minMax8Bit]: a [Uint16Array]; first the maxima,
    [table[1] = toValue(1); table[i] = 1 + table[i >> 1]] for [i] from
    2, then the minima, [table[i] |= toValue(i & -i) << 8] for [i] from
    1. *)
Definition minMax8Bit (numValues : Z) : list Z :=
  let n := Z.to_nat (combinations numValues) in
  let t1 := <[1%nat := JS.toUint16 (LookupTables.toValue 1)]> (repeat 0 n) in
  let t2 :=
    fold_left
      (fun table k =>
         <[k := JS.toUint16 (1 + readCell table (Z.to_nat (JS.shr (Z.of_nat k) 1)))]> table)
      (seq 2 (n - 2)) t1 in
  fold_left
    (fun table k =>
       let i := Z.of_nat k in
       let min := LookupTables.toValue (JS.and i (- i)) in
       <[k := JS.toUint16 (JS.or (readCell table k) (JS.shl min 8))]> table)
    (seq 1 (n - 1)) t2.

(** The inner loop of [this.reverse]:
    [for (j < numValues) rev |= ((i >> j) & 1) << (numValues - 1 - j);] *)
Definition reverseBits (numValues i : Z) : Z :=
  fold_left
    (fun rev j => JS.or rev (JS.shl (JS.and (JS.shr i (Z.of_nat j)) 1)
                                    (numValues - 1 - Z.of_nat j)))
    (seq 0 (Z.to_nat numValues)) 0.

(** [this.reverse]: a [Uint16Array] with [table[i] = rev]. *)
Definition reverse (numValues : Z) : list Z :=
  map (fun k => JS.toUint16 (reverseBits numValues (Z.of_nat k)))
      (seq 0 (Z.to_nat (combinations numValues))).

End Tables.

Module LookupSpec.

(** The sum of the values of a mask. *)
Definition valueSum (v : Z) : Z :=
  fold_right (fun k acc => (if Z.testbit v (Z.of_nat k) then Z.of_nat k + 1 else 0) + acc)
             0 (seq 0 16).

End LookupSpec.

(** * Properties *)

(** ** Bit-level facts about masks *)

Section Bits.

Lemma repeat_replicate {A} (x : A) n : repeat x n = replicate n x.
Proof. induction n as [| n IH]; simpl; [reflexivity | now rewrite IH]. Qed.

Lemma toInt32_small x : - 2 ^ 31 <= x < 2 ^ 31 -> JS.toInt32 x = x.
Proof.
  intros H. unfold JS.toInt32.
  rewrite Z.mod_small by lia. lia.
Qed.

Lemma toUint32_small x : 0 <= x < 2 ^ 32 -> JS.toUint32 x = x.
Proof. intros H. unfold JS.toUint32. now rewrite Z.mod_small. Qed.

Lemma toUint16_small x : 0 <= x < 2 ^ 16 -> JS.toUint16 x = x.
Proof. intros H. unfold JS.toUint16. now rewrite Z.mod_small. Qed.

Lemma toUint16_range x : 0 <= JS.toUint16 x < 2 ^ 16.
Proof. unfold JS.toUint16. apply Z.mod_pos_bound. lia. Qed.

(** The lowest set bit: [v & -v] is a power of two, its bit is set in
    [v] and no lower bit is. *)
Lemma land_opp_lowest (p : positive) :
  exists k, 0 <= k /\ Z.land (Z.pos p) (- Z.pos p) = 2 ^ k /\
            Z.testbit (Z.pos p) k = true /\
            forall j, 0 <= j < k -> Z.testbit (Z.pos p) j = false.
Proof.
  induction p as [q IH | q IH | ].
  - (* odd *)
    exists 0. split; [lia|]. split; [|split].
    + apply Z.bits_inj'. intros n Hn.
      rewrite Z.land_spec, Z.bits_opp by lia.
      replace (Z.pred (Z.pos q~1)) with (2 * Z.pos q) by lia.
      change (Z.pos q~1) with (2 * Z.pos q + 1).
      destruct (Z.eq_dec n 0) as [-> | Hne].
      * rewrite Z.testbit_odd_0, Z.testbit_even_0. reflexivity.
      * replace n with (Z.succ (n - 1)) by lia.
        rewrite Z.testbit_odd_succ, Z.testbit_even_succ by lia.
        change (2 ^ 0) with 1.
        destruct (Z.testbit (Z.pos q) (n - 1)); simpl;
          symmetry; apply (Z.pow2_bits_false 0); lia.
    + reflexivity.
    + intros j Hj. lia.
  - (* even *)
    destruct IH as (k & Hk & Hland & Hbit & Hlow).
    exists (k + 1). split; [lia|]. split; [|split].
    + change (Z.pos q~0) with (2 * Z.pos q).
      replace (- (2 * Z.pos q)) with (2 * (- Z.pos q)) by lia.
      replace (2 * Z.pos q) with (Z.shiftl (Z.pos q) 1)
        by (rewrite Z.shiftl_mul_pow2 by lia; lia).
      replace (2 * - Z.pos q) with (Z.shiftl (- Z.pos q) 1)
        by (rewrite Z.shiftl_mul_pow2 by lia; lia).
      rewrite <- Z.shiftl_land, Hland.
      rewrite Z.shiftl_mul_pow2 by lia.
      rewrite Z.pow_add_r by lia. lia.
    + change (Z.pos q~0) with (2 * Z.pos q).
      replace (k + 1) with (Z.succ k) by lia.
      rewrite Z.testbit_even_succ by lia. exact Hbit.
    + intros j Hj. change (Z.pos q~0) with (2 * Z.pos q).
      destruct (Z.eq_dec j 0) as [-> | Hne].
      * apply Z.testbit_even_0.
      * replace j with (Z.succ (j - 1)) by lia.
        rewrite Z.testbit_even_succ by lia. apply Hlow. lia.
  - exists 0. repeat split; try lia; reflexivity.
Qed.

Lemma lowest_bit (v : Z) :
  0 < v ->
  exists k, 0 <= k /\ Z.land v (- v) = 2 ^ k /\ Z.testbit v k = true /\
            forall j, 0 <= j < k -> Z.testbit v j = false.
Proof.
  intros Hv. destruct v as [| p | p]; try lia. apply land_opp_lowest.
Qed.

Lemma testbit_true_bound v k n :
  0 <= n -> 0 <= v < 2 ^ n -> Z.testbit v k = true -> k < n.
Proof.
  intros Hn Hv Hb.
  destruct (Z_lt_ge_dec k n) as [|Hge]; [assumption|exfalso].
  destruct (Z.eq_dec v 0) as [-> | Hne].
  - rewrite Z.bits_0 in Hb. discriminate.
  - rewrite Z.bits_above_log2 in Hb; [discriminate | lia |].
    apply Z.lt_le_trans with n; [|lia].
    apply Z.log2_lt_pow2; lia.
Qed.

End Bits.

(** ** LookupTables: the value encoding *)

Section ValueEncoding.

Import LookupTables.

Lemma toValue_pow2 k : 0 <= k < 32 -> toValue (2 ^ k) = k + 1.
Proof.
  intros Hk. unfold toValue, JS.clz32.
  assert (Hp : 0 < 2 ^ k) by (apply Z.pow_pos_nonneg; lia).
  assert (Hlt : 2 ^ k < 2 ^ 32) by (apply Z.pow_lt_mono_r; lia).
  rewrite toUint32_small by lia.
  destruct (Z.eqb_spec (2 ^ k) 0) as [E | _]; [lia|].
  rewrite Z.log2_pow2 by lia. lia.
Qed.

Lemma fromValue_pow2 i : 1 <= i <= 32 - 1 -> fromValue i = 2 ^ (i - 1).
Proof.
  intros Hi. unfold fromValue, JS.shl.
  change 31 with (Z.ones 5). rewrite Z.land_ones by lia.
  rewrite Z.mod_small by (change (2 ^ 5) with 32; lia).
  rewrite (toInt32_small 1) by lia.
  rewrite Z.shiftl_1_l.
  apply toInt32_small.
  assert (0 < 2 ^ (i - 1)) by (apply Z.pow_pos_nonneg; lia).
  assert (2 ^ (i - 1) < 2 ^ 31) by (apply Z.pow_lt_mono_r; lia).
  lia.
Qed.

Lemma toValue_fromValue i : 1 <= i <= 16 -> toValue (fromValue i) = i.
Proof.
  intros Hi. rewrite fromValue_pow2 by lia. rewrite toValue_pow2 by lia. lia.
Qed.

(** On a 16-bit mask [v & -v] is computed without wrap-around. *)
Lemma and_opp_16 v : 0 < v < 2 ^ 16 -> JS.and v (- v) = Z.land v (- v).
Proof.
  intros Hv. unfold JS.and. rewrite !toInt32_small by lia. reflexivity.
Qed.

Lemma lowest_bit_16 v :
  0 < v < 2 ^ 16 ->
  exists k, 0 <= k < 16 /\ JS.and v (- v) = 2 ^ k /\ Z.testbit v k = true /\
            forall j, 0 <= j < k -> Z.testbit v j = false.
Proof.
  intros Hv. destruct (lowest_bit v) as (k & Hk & Hland & Hbit & Hlow); [lia|].
  exists k. rewrite and_opp_16 by lia.
  repeat split; try assumption; try lia.
  apply (testbit_true_bound v k 16); [lia | lia | assumption].
Qed.

Lemma minValue_spec v :
  0 < v < 2 ^ 16 ->
  1 <= minValue v <= 16 /\ Z.testbit v (minValue v - 1) = true /\
  forall j, 1 <= j < minValue v -> Z.testbit v (j - 1) = false.
Proof.
  intros Hv. destruct (lowest_bit_16 v Hv) as (k & Hk & Hland & Hbit & Hlow).
  assert (Hm : minValue v = k + 1).
  { unfold minValue. rewrite Hland. apply toValue_pow2. lia. }
  rewrite Hm. replace (k + 1 - 1) with k by lia.
  split; [lia|]. split; [assumption|].
  intros j Hj. apply Hlow. lia.
Qed.

(** Clearing a set bit with [^]. *)
Lemma xor_set_bit v k :
  0 < v < 2 ^ 16 -> 0 <= k -> Z.testbit v k = true ->
  JS.xor v (2 ^ k) = v - 2 ^ k /\
  0 <= v - 2 ^ k < v /\
  forall j, 0 <= j -> Z.testbit (v - 2 ^ k) j = Z.testbit v j && negb (j =? k).
Proof.
  intros Hv Hk Hbit.
  assert (Hk16 : k < 16) by (apply (testbit_true_bound v k 16); [lia | lia | assumption]).
  assert (Hp : 0 < 2 ^ k) by (apply Z.pow_pos_nonneg; lia).
  assert (Hp16 : 2 ^ k < 2 ^ 16) by (apply Z.pow_lt_mono_r; lia).
  assert (Hsub : v - 2 ^ k = Z.ldiff v (2 ^ k)).
  { apply Z.sub_nocarry_ldiff. apply Z.bits_inj'. intros n Hn.
    rewrite Z.ldiff_spec, Z.pow2_bits_eqb, Z.bits_0 by lia.
    destruct (Z.eqb_spec k n) as [<- | Hne]; [now rewrite Hbit | reflexivity]. }
  assert (Hbits : forall j, 0 <= j ->
            Z.testbit (v - 2 ^ k) j = Z.testbit v j && negb (j =? k)).
  { intros j Hj. rewrite Hsub, Z.ldiff_spec, Z.pow2_bits_eqb by lia.
    now rewrite (Z.eqb_sym k j). }
  split; [|split].
  - unfold JS.xor. rewrite !toInt32_small by lia.
    apply Z.bits_inj'. intros n Hn.
    rewrite Z.lxor_spec, Hbits, Z.pow2_bits_eqb by lia.
    destruct (Z.eqb_spec k n) as [<- | Hne].
    + rewrite Hbit, Z.eqb_refl. reflexivity.
    + destruct (Z.eqb_spec n k); [lia|]. now destruct (Z.testbit v n).
  - split; [|lia]. rewrite Hsub. apply Z.ldiff_nonneg. lia.
  - exact Hbits.
Qed.

(** The loop of [toValuesArray] on a mask whose bits below [j] are
    clear: the values come out in increasing order, each above [j]. *)
Lemma toValuesArray_loop_spec fuel : forall v j,
  0 <= j -> 0 <= v < 2 ^ 16 ->
  (forall b, 0 <= b < j -> Z.testbit v b = false) ->
  (16 - j < Z.of_nat fuel) ->
  exists l, toValuesArray_loop fuel v = Some l /\
            StronglySorted Z.lt l /\
            Forall (fun i => j < i) l /\
            forall i, In i l <-> 1 <= i <= 16 /\ Z.testbit v (i - 1) = true.
Proof.
  induction fuel as [| fuel IH]; intros v j Hj Hv Hlow Hfuel.
  - (* no budget is needed when every bit below 17 is clear *)
    assert (v = 0).
    { apply Z.bits_inj'. intros n Hn. rewrite Z.bits_0.
      destruct (Z.testbit v n) eqn:E; [exfalso | reflexivity].
      assert (n < 16) by (apply (testbit_true_bound v n 16); [lia | lia | assumption]).
      rewrite Hlow in E by lia. discriminate. }
    subst v. exists []. split; [reflexivity|]. split; [constructor|].
    split; [constructor|].
    intros i; split; [intros [] | intros [_ H]; rewrite Z.bits_0 in H; discriminate].
  - cbn [toValuesArray_loop]. destruct (Z.eqb_spec v 0) as [-> | Hne].
    + exists []. split; [reflexivity|]. split; [constructor|].
      split; [constructor|].
      intros i; split; [intros [] | intros [_ H]; rewrite Z.bits_0 in H; discriminate].
    + destruct (lowest_bit_16 v) as (k & Hk & Hland & Hbit & Hklow); [lia|].
      assert (Hjk : j <= k).
      { destruct (Z_le_gt_dec j k); [assumption|].
        rewrite Hlow in Hbit by lia. discriminate. }
      rewrite Hland.
      destruct (xor_set_bit v k) as (Hx & Hrange & Hbits); [lia | lia | assumption |].
      rewrite Hx.
      destruct (IH (v - 2 ^ k) (k + 1)) as (l & Hl & Hsorted & Hall & Hin).
      * lia.
      * lia.
      * intros b Hb. rewrite Hbits by lia.
        destruct (Z.eqb_spec b k) as [-> | Hbk].
        -- now rewrite andb_false_r.
        -- rewrite andb_true_r. apply Hklow. lia.
      * lia.
      * rewrite Hl. exists (toValue (2 ^ k) :: l).
        rewrite toValue_pow2 by lia.
        split; [reflexivity|]. split; [|split].
        -- constructor; [assumption|].
           eapply Forall_impl; [exact Hall|]. simpl. intros a Ha. lia.
        -- constructor; [lia|].
           eapply Forall_impl; [exact Hall|]. simpl. intros a Ha. lia.
        -- intros i. simpl. rewrite Hin. split.
           ++ intros [<- | [Hi Hb]].
              ** split; [lia|]. now replace (k + 1 - 1) with k by lia.
              ** split; [lia|]. rewrite Hbits in Hb by lia.
                 now apply andb_true_iff in Hb.
           ++ intros [Hi Hb].
              destruct (Z.eq_dec i (k + 1)) as [-> | Hne']; [now left | right].
              split; [lia|]. rewrite Hbits by lia. rewrite Hb. simpl.
              destruct (Z.eqb_spec (i - 1) k); [lia | reflexivity].
Qed.

Lemma toValuesArray_spec v :
  0 <= v < 2 ^ 16 ->
  exists l, toValuesArray v = Some l /\
            StronglySorted Z.lt l /\
            forall i, In i l <-> 1 <= i <= 16 /\ Z.testbit v (i - 1) = true.
Proof.
  intros Hv.
  destruct (toValuesArray_loop_spec 32 v 0) as (l & Hl & Hs & _ & Hin);
    [lia | lia | intros b Hb; lia | simpl; lia |].
  exists l. auto.
Qed.

Lemma gridToSolution_fixed grid sol :
  Forall2 (fun v i => 1 <= i <= 16 /\ v = fromValue i) grid sol ->
  Util.gridToSolution grid = sol.
Proof.
  induction 1 as [| v i grid sol [Hi ->] _ IH]; [reflexivity|].
  unfold Util.gridToSolution in *. simpl. rewrite IH.
  rewrite toValue_fromValue by lia. rewrite toUint16_small by lia. reflexivity.
Qed.

End ValueEncoding.

(** C10.  The value encoding round-trips.  For a value [i] between 1 and
    16, [toValue (fromValue i) = i].  For a non-zero 16-bit mask [v],
    [minValue v] is the smallest value whose bit is set in [v].  On a
    singleton mask [toValue] gives the one value of the mask, so that
    [gridToSolution] maps a grid of singleton masks to the vector of its
    values.  [toValuesArray v] lists exactly the values whose bits are
    set in [v], in increasing order. *)
Theorem value_encoding_round_trip :
  (forall i, 1 <= i <= 16 ->
     LookupTables.toValue (LookupTables.fromValue i) = i) /\
  (forall v, 0 < v < 2 ^ 16 ->
     1 <= LookupTables.minValue v <= 16 /\
     Z.testbit v (LookupTables.minValue v - 1) = true /\
     forall j, 1 <= j < LookupTables.minValue v -> Z.testbit v (j - 1) = false) /\
  (forall k, 0 <= k < 16 ->
     LookupTables.toValue (2 ^ k) = k + 1 /\
     LookupTables.fromValue (k + 1) = 2 ^ k) /\
  (forall grid sol,
     Forall2 (fun v i => 1 <= i <= 16 /\ v = LookupTables.fromValue i) grid sol ->
     Util.gridToSolution grid = sol) /\
  (forall v, 0 <= v < 2 ^ 16 ->
     exists l, LookupTables.toValuesArray v = Some l /\
               StronglySorted Z.lt l /\
               forall i, In i l <-> 1 <= i <= 16 /\ Z.testbit v (i - 1) = true).
Proof.
  split; [exact toValue_fromValue|].
  split; [exact minValue_spec|].
  split.
  { intros k Hk. split; [apply toValue_pow2; lia|].
    rewrite fromValue_pow2 by lia. f_equal. lia. }
  split; [exact gridToSolution_fixed | exact toValuesArray_spec].
Qed.

(** The encoding at the mask [{2, 5}] and on the grid [[1; 8; 4]]. *)
Lemma value_encoding_round_trip_witness :
  LookupTables.toValue (LookupTables.fromValue 5) = 5 /\
  LookupTables.minValue 18 = 2 /\
  Util.gridToSolution [1; 8; 4] = [1; 4; 3] /\
  LookupTables.toValuesArray 18 = Some [2; 5].
Proof.
  destruct value_encoding_round_trip as (H1 & H2 & H3 & H4 & H5).
  split; [apply H1; lia|].
  split; [reflexivity|].
  split; [|reflexivity].
  apply H4.
  repeat constructor; lia.
Defined.

(** ** The handler accumulator is a queue without repetition *)

Section Accumulator.

Import HandlerAccumulator AccumulatorInv.

Lemma toInt16_small x : - 2 ^ 15 <= x < 2 ^ 15 -> JS.toInt16 x = x.
Proof. intros H. unfold JS.toInt16. rewrite Z.mod_small by lia. lia. Qed.

Lemma read_of_nat ll (i : nat) : read ll (Z.of_nat i) = ll !! i.
Proof.
  unfold read. destruct (Z.ltb_spec (Z.of_nat i) 0); [lia|].
  now rewrite Nat2Z.id.
Qed.

Lemma store_of_nat ll (i : nat) v :
  - 2 ^ 15 <= v < 2 ^ 15 -> store ll (Z.of_nat i) v = <[i := v]> ll.
Proof.
  intros Hv. unfold store. destruct (Z.ltb_spec (Z.of_nat i) 0); [lia|].
  now rewrite Nat2Z.id, toInt16_small.
Qed.

Lemma chain_head_empty ll q : chain ll (-1) q -> q = [].
Proof.
  intros H. inversion H as [| i next q' Hi Hq Heq]; [reflexivity | lia].
Qed.

Lemma chain_head_cons ll h x q : chain ll h (x :: q) -> h = Z.of_nat x.
Proof. intros H. now inversion H. Qed.

Lemma chain_head_range ll h q : chain ll h q -> -1 <= h.
Proof. intros H. destruct H; lia. Qed.

Lemma chain_lookup ll h q i :
  chain ll h q -> i ∈ q -> exists next, ll !! i = Some next /\ -1 <= next.
Proof.
  induction 1 as [| j next q Hj Hq IH]; intros Hin.
  - now apply elem_of_nil in Hin.
  - apply elem_of_cons in Hin as [-> | Hin]; [|auto].
    exists next. split; [assumption|]. eapply chain_head_range; eassumption.
Qed.

Lemma chain_bound ll h q i : chain ll h q -> i ∈ q -> (i < length ll)%nat.
Proof.
  intros Hc Hin. destruct (chain_lookup _ _ _ _ Hc Hin) as (next & Hn & _).
  eapply lookup_lt_Some; eassumption.
Qed.

(** A store at a handler that is not in the queue leaves the chain. *)
Lemma chain_insert_other ll h q i v :
  chain ll h q -> i ∉ q -> chain (<[i := v]> ll) h q.
Proof.
  induction 1 as [| j next q Hj Hq IH]; intros Hni; [constructor|].
  apply not_elem_of_cons in Hni as [Hne Hni]. econstructor.
  - rewrite list_lookup_insert_ne by congruence. eassumption.
  - apply IH. assumption.
Qed.

(** The last handler of the queue points to [-1]. *)
Lemma chain_last ll h q t :
  chain ll h q -> last q = Some t -> ll !! t = Some (-1).
Proof.
  induction 1 as [| j next q Hj Hq IH]; intros Hlast; [discriminate|].
  destruct q as [| x q'].
  - simpl in Hlast. injection Hlast as <-. inversion Hq; subst; assumption.
  - apply IH. exact Hlast.
Qed.

(** Linking a new handler behind the last one. *)
Lemma chain_append ll h q t i :
  chain ll h q -> last q = Some t -> NoDup q -> i ∉ q -> (i < length ll)%nat ->
  chain (<[i := -1]> (<[t := Z.of_nat i]> ll)) h (q ++ [i]).
Proof.
  induction 1 as [| j next q Hj Hq IH]; intros Hlast Hnd Hni Hlen; [discriminate|].
  apply NoDup_cons in Hnd as [Hjq Hnd].
  apply not_elem_of_cons in Hni as [Hij Hni].
  destruct q as [| x q'].
  - (* [j] is the last handler *)
    simpl in Hlast. injection Hlast as <-. simpl. inversion Hq; subst.
    apply (chain_link _ j (Z.of_nat i)).
    + rewrite list_lookup_insert_ne by congruence.
      apply list_lookup_insert_eq. eapply lookup_lt_Some; eassumption.
    + apply (chain_link _ i (-1)); [|constructor].
      apply list_lookup_insert_eq. now rewrite length_insert.
  - change (last (j :: x :: q')) with (last (x :: q')) in Hlast.
    simpl. apply (chain_link _ j next).
    + assert (Ht : t ∈ x :: q') by (eapply last_Some_elem_of; eassumption).
      rewrite list_lookup_insert_ne by congruence.
      rewrite list_lookup_insert_ne by (intros <-; contradiction).
      assumption.
    + apply IH; assumption.
Qed.

Lemma represents_length a q : represents a q -> (length q <= length a.(linkedList))%nat.
Proof.
  intros [Hc Hnd _ _ _].
  assert (H : (length q <= length (seq 0 (length (linkedList a))))%nat).
  { apply submseteq_length, NoDup_submseteq; [assumption|].
    intros i Hi. apply elem_of_seq. pose proof (chain_bound _ _ _ _ Hc Hi). lia. }
  now rewrite length_seq in H.
Qed.

(** The slot of a handler tells whether it is queued. *)
Lemma represents_slot a q i slot :
  represents a q -> a.(linkedList) !! i = Some slot ->
  (slot <? -1) = negb (bool_decide (i ∈ q)).
Proof.
  intros Hr Hs. case_bool_decide as Hin; simpl.
  - destruct (chain_lookup _ _ _ _ (rep_chain _ _ Hr) Hin) as (next & Hn & Hge).
    rewrite Hs in Hn. injection Hn as ->. apply Z.ltb_ge. lia.
  - assert (slot = -2) by (apply (rep_free _ _ Hr i); assumption). now subst slot.
Qed.

Lemma represents_empty a q : represents a q -> (a.(head) =? -1) = true -> q = [].
Proof.
  intros Hr Hh. apply Z.eqb_eq in Hh. pose proof (rep_chain _ _ Hr) as Hc.
  rewrite Hh in Hc. eapply chain_head_empty; eassumption.
Qed.

Lemma represents_nonempty a q :
  represents a q -> (a.(head) =? -1) = false -> exists t, last q = Some t.
Proof.
  intros Hr Hh. apply Z.eqb_neq in Hh. pose proof (rep_chain _ _ Hr) as Hc.
  destruct Hc as [| i next q Hi Hq]; [congruence|].
  destruct (last (i :: q)) eqn:E; [eauto|].
  apply last_None in E. discriminate.
Qed.

Lemma make_represents n : Z.of_nat n < 2 ^ 15 -> represents (make n) [].
Proof.
  intros Hn. constructor; simpl.
  - constructor.
  - constructor.
  - intros i slot Hs. rewrite repeat_replicate in Hs.
    apply lookup_replicate in Hs as [-> _].
    split; [intros _; apply not_elem_of_nil | reflexivity].
  - discriminate.
  - now rewrite repeat_length.
Qed.

Lemma enqueueIndex_length a i :
  length (enqueueIndex a i).(linkedList) = length a.(linkedList).
Proof.
  unfold enqueueIndex. destruct (linkedList a !! i) as [slot|]; [|reflexivity].
  destruct (slot <? -1); [|reflexivity]. cbn [linkedList].
  unfold store. repeat match goal with |- context [if ?b then _ else _] => destruct b end;
    rewrite ?length_insert; reflexivity.
Qed.

Lemma enqueueIndex_represents a q i :
  represents a q ->
  represents (enqueueIndex a i) (Queue.enqueue (length a.(linkedList)) q i).
Proof.
  intros Hr. unfold enqueueIndex, Queue.enqueue.
  destruct (linkedList a !! i) as [slot|] eqn:Hs.
  - pose proof (lookup_lt_Some _ _ _ Hs) as Hlt.
    rewrite (represents_slot _ _ _ _ Hr Hs).
    replace (i <? length (linkedList a))%nat with true by (symmetry; now apply Nat.ltb_lt).
    simpl. case_bool_decide as Hin; simpl; [assumption|].
    pose proof (rep_size _ _ Hr) as Hsize.
    destruct (head a =? -1) eqn:Hh.
    + (* the queue is empty *)
      pose proof (represents_empty _ _ Hr Hh) as ->.
      rewrite store_of_nat by lia.
      constructor; cbn [linkedList head tail].
      * apply (chain_link _ i (-1)); [|constructor].
        now apply list_lookup_insert_eq.
      * apply NoDup_singleton.
      * intros j slot' Hj. destruct (decide (j = i)) as [-> | Hne].
        -- rewrite list_lookup_insert_eq in Hj by assumption. injection Hj as <-.
           split; [discriminate|]. intros H. exfalso. apply H. now left.
        -- rewrite list_lookup_insert_ne in Hj by congruence.
           split; [intros _; now apply not_elem_of_cons; split; [|apply not_elem_of_nil]|].
           intros _. apply (rep_free _ _ Hr j slot' Hj). apply not_elem_of_nil.
      * intros t Ht. simpl in Ht. now injection Ht as <-.
      * now rewrite length_insert.
    + destruct (represents_nonempty _ _ Hr Hh) as (t & Ht).
      rewrite (rep_tail _ _ Hr t Ht).
      assert (Htq : t ∈ q) by (eapply last_Some_elem_of; eassumption).
      assert (Hti : t <> i) by (intros ->; contradiction).
      rewrite store_of_nat by lia. rewrite store_of_nat by lia.
      constructor; cbn [linkedList head tail].
      * apply chain_append; try assumption; [apply Hr | apply Hr].
      * apply NoDup_app. split; [apply Hr|]. split; [|apply NoDup_singleton].
        intros x Hx Hxi. apply list_elem_of_singleton in Hxi. now subst.
      * intros j slot' Hj. rewrite elem_of_app, list_elem_of_singleton.
        destruct (decide (j = i)) as [-> | Hne].
        -- rewrite list_lookup_insert_eq in Hj by (now rewrite length_insert).
           injection Hj as <-. split; [discriminate | tauto].
        -- rewrite list_lookup_insert_ne in Hj by congruence.
           destruct (decide (j = t)) as [-> | Hne'].
           ++ rewrite list_lookup_insert_eq in Hj by (eapply chain_bound; [apply Hr | assumption]).
              injection Hj as <-. split; [lia | tauto].
           ++ rewrite list_lookup_insert_ne in Hj by congruence.
              rewrite (rep_free _ _ Hr j slot' Hj). tauto.
      * intros t' Ht'. rewrite last_snoc in Ht'. now injection Ht' as <-.
      * now rewrite !length_insert.
  - apply lookup_ge_None in Hs.
    replace (i <? length (linkedList a))%nat with false
      by (symmetry; apply Nat.ltb_ge; lia).
    assumption.
Qed.

Lemma pushIndex_length a i :
  length (_pushIndex i a).(linkedList) = length a.(linkedList).
Proof.
  unfold _pushIndex. destruct (linkedList a !! i) as [slot|]; [|reflexivity].
  destruct (slot <? -1); [|reflexivity]. cbn [linkedList].
  unfold store. destruct (Z.of_nat i <? 0); rewrite ?length_insert; reflexivity.
Qed.

Lemma pushIndex_represents a q i :
  represents a q ->
  represents (_pushIndex i a) (Queue.push (length a.(linkedList)) i q).
Proof.
  intros Hr. unfold _pushIndex, Queue.push.
  destruct (linkedList a !! i) as [slot|] eqn:Hs.
  - pose proof (lookup_lt_Some _ _ _ Hs) as Hlt.
    rewrite (represents_slot _ _ _ _ Hr Hs).
    replace (i <? length (linkedList a))%nat with true by (symmetry; now apply Nat.ltb_lt).
    simpl. case_bool_decide as Hin; simpl; [assumption|].
    pose proof (rep_size _ _ Hr) as Hsize.
    pose proof (rep_chain _ _ Hr) as Hc.
    assert (Hhead : -1 <= head a < 2 ^ 15).
    { destruct Hc as [| j next q Hj Hq]; [lia|].
      apply lookup_lt_Some in Hj. lia. }
    rewrite store_of_nat by lia.
    constructor; cbn [linkedList head tail].
    + apply (chain_link _ i (head a)).
      * now apply list_lookup_insert_eq.
      * now apply chain_insert_other.
    + apply NoDup_cons. split; [assumption | apply Hr].
    + intros j slot' Hj. rewrite elem_of_cons.
      destruct (decide (j = i)) as [-> | Hne].
      * rewrite list_lookup_insert_eq in Hj by assumption. injection Hj as <-.
        split; [lia | tauto].
      * rewrite list_lookup_insert_ne in Hj by congruence.
        rewrite (rep_free _ _ Hr j slot' Hj). tauto.
    + intros t Ht. destruct (head a =? -1) eqn:Hh.
      * pose proof (represents_empty _ _ Hr Hh) as ->.
        simpl in Ht. now injection Ht as <-.
      * destruct (represents_nonempty _ _ Hr Hh) as (t' & Ht').
        destruct q as [| x q']; [discriminate|].
        change (last (i :: x :: q')) with (last (x :: q')) in Ht.
        apply (rep_tail _ _ Hr). assumption.
    + now rewrite length_insert.
  - apply lookup_ge_None in Hs.
    replace (i <? length (linkedList a))%nat with false
      by (symmetry; apply Nat.ltb_ge; lia).
    assumption.
Qed.

Lemma enqueueIndexes_represents indexes : forall a q,
  represents a q ->
  represents (_enqueueIndexes indexes a)
             (fold_left (Queue.enqueue (length a.(linkedList))) indexes q) /\
  length (_enqueueIndexes indexes a).(linkedList) = length a.(linkedList).
Proof.
  unfold _enqueueIndexes.
  induction indexes as [| i indexes IH]; intros a q Hr; [split; [assumption | reflexivity]|].
  simpl. destruct (IH (enqueueIndex a i) _ (enqueueIndex_represents a q i Hr)) as [H1 H2].
  rewrite enqueueIndex_length in H1, H2. split; assumption.
Qed.

Lemma takeNext_represents a h q :
  represents a (h :: q) ->
  exists a', takeNext a = Some (h, a') /\ represents a' q /\
             length a'.(linkedList) = length a.(linkedList) /\
             a'.(linkedList) !! h = Some (-2).
Proof.
  intros Hr. pose proof (rep_chain _ _ Hr) as Hc.
  inversion Hc as [| i next q' Hi Hq Hhead]; subst.
  pose proof (rep_nodup _ _ Hr) as Hnd. apply NoDup_cons in Hnd as [Hhq Hnd].
  pose proof (rep_size _ _ Hr) as Hsize.
  pose proof (lookup_lt_Some _ _ _ Hi) as Hlt.
  unfold takeNext. rewrite <- Hhead, read_of_nat, Hi, Nat2Z.id.
  rewrite store_of_nat by lia.
  eexists. split; [reflexivity|]. split; [|split].
  - constructor; cbn [linkedList head tail].
    + now apply chain_insert_other.
    + assumption.
    + intros j slot Hj. destruct (decide (j = h)) as [-> | Hne].
      * rewrite list_lookup_insert_eq in Hj by assumption. injection Hj as <-. tauto.
      * rewrite list_lookup_insert_ne in Hj by congruence.
        rewrite (rep_free _ _ Hr j slot Hj), not_elem_of_cons. tauto.
    + intros t Ht. apply (rep_tail _ _ Hr).
      destruct q as [| x q']; [discriminate | exact Ht].
    + now rewrite length_insert.
  - cbn [linkedList]. now rewrite length_insert.
  - cbn [linkedList]. now apply list_lookup_insert_eq.
Qed.

Lemma takeNext_empty a : represents a [] -> takeNext a = None.
Proof.
  intros Hr. pose proof (rep_chain _ _ Hr) as Hc.
  inversion Hc as [Hh |]. unfold takeNext. now rewrite <- Hh.
Qed.

Lemma clear_loop_spec q : forall fuel ll h,
  chain ll h q -> NoDup q -> (length q <= fuel)%nat ->
  Z.of_nat (length ll) < 2 ^ 15 ->
  exists ll', clear_loop fuel ll h = Some ll' /\
              length ll' = length ll /\
              forall j slot, ll' !! j = Some slot ->
                (j ∈ q -> slot = -2) /\ (j ∉ q -> ll !! j = Some slot).
Proof.
  induction q as [| x q IH]; intros fuel ll h Hc Hnd Hfuel Hsize.
  - inversion Hc; subst.
    exists ll. split; [destruct fuel; reflexivity|]. split; [reflexivity|].
    intros j slot Hj. split; [intros H; now apply elem_of_nil in H | auto].
  - inversion Hc as [| i next q' Hi Hq Hhead]; subst.
    apply NoDup_cons in Hnd as [Hxq Hnd].
    destruct fuel as [| fuel]; [simpl in Hfuel; lia|].
    pose proof (lookup_lt_Some _ _ _ Hi) as Hlt.
    cbn [clear_loop]. destruct (Z.ltb_spec (Z.of_nat x) 0); [lia|].
    rewrite read_of_nat, Hi, store_of_nat by lia.
    destruct (IH fuel (<[x := -2]> ll) next) as (ll' & Hl & Hlen & Hspec).
    + now apply chain_insert_other.
    + assumption.
    + simpl in Hfuel. lia.
    + now rewrite length_insert.
    + exists ll'. split; [assumption|]. split; [now rewrite Hlen, length_insert|].
      intros j slot Hj. destruct (Hspec j slot Hj) as [H1 H2].
      rewrite not_elem_of_cons, elem_of_cons.
      destruct (decide (j = x)) as [-> | Hne].
      * split; [|tauto]. intros _.
        specialize (H2 Hxq). rewrite list_lookup_insert_eq in H2 by assumption.
        congruence.
      * split; [intros [? | ?]; [contradiction | auto]|].
        intros [_ Hjq]. specialize (H2 Hjq).
        now rewrite list_lookup_insert_ne in H2 by congruence.
Qed.

Lemma clear_represents a q :
  represents a q ->
  exists a', clear a = Some a' /\ represents a' [] /\
             length a'.(linkedList) = length a.(linkedList) /\
             forall j, (j < length a.(linkedList))%nat -> a'.(linkedList) !! j = Some (-2).
Proof.
  intros Hr.
  destruct (clear_loop_spec q (length (linkedList a)) (linkedList a) (head a))
    as (ll' & Hl & Hlen & Hspec);
    [apply Hr | apply Hr | now apply represents_length | apply Hr |].
  assert (Hall : forall j slot, ll' !! j = Some slot -> slot = -2).
  { intros j slot Hj. destruct (Hspec j slot Hj) as [H1 H2].
    destruct (decide (j ∈ q)) as [Hin | Hni]; [auto|].
    apply (rep_free _ _ Hr j slot (H2 Hni)). assumption. }
  unfold clear. rewrite Hl. eexists. split; [reflexivity|]. split; [|split].
  - constructor; cbn [linkedList head tail].
    + constructor.
    + constructor.
    + intros j slot Hj. split; [intros _; apply not_elem_of_nil | intros _; eauto].
    + discriminate.
    + rewrite Hlen. apply Hr.
  - exact Hlen.
  - cbn [linkedList]. intros j Hj.
    destruct (ll' !! j) as [slot|] eqn:E.
    + f_equal. eauto.
    + apply lookup_ge_None in E. lia.
Qed.

Lemma contents_from_chain ll h q : forall fuel,
  chain ll h q -> (length q <= fuel)%nat -> contents_from fuel ll h = q.
Proof.
  intros fuel Hc. revert fuel.
  induction Hc as [| i next q Hi Hq IH]; intros fuel Hfuel.
  - destruct fuel; reflexivity.
  - destruct fuel as [| fuel]; [simpl in Hfuel; lia|].
    cbn [contents_from]. rewrite read_of_nat, Hi, Nat2Z.id.
    f_equal. apply IH. simpl in Hfuel. lia.
Qed.

Lemma represents_contents a q : represents a q -> contents a = q.
Proof.
  intros Hr. unfold contents.
  apply contents_from_chain; [apply Hr | now apply represents_length].
Qed.

(** Every operation keeps the array length and acts on the queue as
    [Queue.exec] says. *)
Lemma exec_refines m op a q :
  represents a q ->
  match exec m op a, Queue.exec (length a.(linkedList)) m op q with
  | Some a', Some q' =>
      represents a' q' /\ length a'.(linkedList) = length a.(linkedList)
  | None, None => True
  | _, _ => False
  end.
Proof.
  intros Hr. destruct op as [c | c | c | |]; cbn [exec Queue.exec].
  - unfold addForCell. now apply enqueueIndexes_represents.
  - unfold addAuxForCell. now apply enqueueIndexes_represents.
  - unfold addForFixedCell. split; [now apply pushIndex_represents | apply pushIndex_length].
  - destruct q as [| h q].
    + now rewrite takeNext_empty.
    + destruct (takeNext_represents a h q Hr) as (a' & -> & Hr' & Hlen & _). auto.
  - destruct (clear_represents a q Hr) as (a' & -> & Hr' & Hlen & _). auto.
Qed.

Lemma execs_refines m ops : forall a q,
  represents a q ->
  match execs m ops a, Queue.execs (length a.(linkedList)) m ops q with
  | Some a', Some q' =>
      represents a' q' /\ length a'.(linkedList) = length a.(linkedList)
  | None, None => True
  | _, _ => False
  end.
Proof.
  induction ops as [| op ops IH]; intros a q Hr; cbn [execs Queue.execs]; [auto|].
  pose proof (exec_refines m op a q Hr) as Hop.
  destruct (exec m op a) as [a'|], (Queue.exec (length (linkedList a)) m op q) as [q'|];
    try contradiction; [|exact I].
  destruct Hop as [Hr' Hlen]. specialize (IH a' q' Hr'). rewrite Hlen in IH.
  destruct (execs m ops a') as [a''|], (Queue.execs (length (linkedList a)) m ops q');
    try contradiction; [|exact I].
  destruct IH as [H1 H2]. split; [assumption | congruence].
Qed.

Lemma reachable_represents m n a :
  Z.of_nat n < 2 ^ 15 -> reachable m n a ->
  exists q, represents a q /\ length a.(linkedList) = n.
Proof.
  intros Hn [ops Hops].
  pose proof (execs_refines m ops (make n) [] (make_represents n Hn)) as H.
  rewrite Hops in H. cbn [make linkedList] in H. rewrite repeat_length in H.
  destruct (Queue.execs n m ops []) as [q|]; [|contradiction].
  exists q. exact H.
Qed.

Lemma reachable_step m n a op a' :
  reachable m n a -> exec m op a = Some a' -> reachable m n a'.
Proof.
  intros [ops Hops] Hop. exists (ops ++ [op]).
  revert Hops. generalize (make n). induction ops as [| o ops IH]; intros a0 Hops.
  - cbn in Hops. injection Hops as ->. cbn. now rewrite Hop.
  - cbn in Hops |- *. destruct (exec m o a0); [auto | discriminate].
Qed.

(** The queue model keeps the exclusion enforcers in front. *)
Lemma enqueue_exclusionFirst m n q x :
  separated m -> ordinaryIndex m x -> exclusionFirst m q ->
  exclusionFirst m (Queue.enqueue n q x).
Proof.
  intros Hsep Hx Hq. unfold Queue.enqueue.
  destruct ((x <? n)%nat && negb (bool_decide (x ∈ q))); [|assumption].
  intros i j a b Hi Hj Ha Hb.
  destruct (decide (j < length q)%nat) as [Hjl | Hjl].
  - rewrite lookup_app_l in Hj by assumption.
    destruct (decide (i < length q)%nat) as [Hil | Hil].
    + rewrite lookup_app_l in Hi by assumption. eauto.
    + lia.
  - rewrite lookup_app_r in Hj by lia.
    destruct (j - length q)%nat; [|discriminate]. injection Hj as <-.
    exfalso. eauto.
Qed.

Lemma enqueue_fold_exclusionFirst m n xs : forall q,
  separated m -> (forall x, x ∈ xs -> ordinaryIndex m x) -> exclusionFirst m q ->
  exclusionFirst m (fold_left (Queue.enqueue n) xs q).
Proof.
  induction xs as [| x xs IH]; intros q Hsep Hxs Hq; [assumption|].
  simpl. apply IH; [assumption | |].
  - intros y Hy. apply Hxs. now right.
  - apply enqueue_exclusionFirst; [assumption | apply Hxs; now left | assumption].
Qed.

Lemma push_exclusionFirst m n q y :
  separated m -> exclusionIndex m y -> exclusionFirst m q ->
  exclusionFirst m (Queue.push n y q).
Proof.
  intros Hsep Hy Hq. unfold Queue.push.
  destruct ((y <? n)%nat && negb (bool_decide (y ∈ q))); [|assumption].
  intros i j a b Hi Hj Ha Hb.
  destruct i as [| i].
  - injection Hi as <-. exfalso. eauto.
  - destruct j as [| j]; [lia|].
    simpl in Hi, Hj. pose proof (Hq i j a b Hi Hj Ha Hb). lia.
Qed.

Lemma queue_exec_exclusionFirst m n op q q' :
  separated m -> exclusionFirst m q -> Queue.exec n m op q = Some q' ->
  exclusionFirst m q'.
Proof.
  intros Hsep Hq Hop. destruct op as [c | c | c | |]; cbn in Hop.
  - injection Hop as <-. apply enqueue_fold_exclusionFirst; [assumption | | assumption].
    intros x Hx. exists c. now left.
  - injection Hop as <-. apply enqueue_fold_exclusionFirst; [assumption | | assumption].
    intros x Hx. exists c. now right.
  - injection Hop as <-. apply push_exclusionFirst; [assumption | now exists c | assumption].
  - destruct q as [| h q]; [discriminate|]. injection Hop as <-.
    intros i j a b Hi Hj Ha Hb.
    pose proof (Hq (S i) (S j) a b Hi Hj Ha Hb). lia.
  - injection Hop as <-. intros i j a b Hi. discriminate.
Qed.

Lemma queue_execs_exclusionFirst m n ops : forall q q',
  separated m -> exclusionFirst m q -> Queue.execs n m ops q = Some q' ->
  exclusionFirst m q'.
Proof.
  induction ops as [| op ops IH]; intros q q' Hsep Hq Hops; cbn in Hops.
  - now injection Hops as <-.
  - destruct (Queue.exec n m op q) as [q1|] eqn:E; [|discriminate].
    eapply IH; [assumption | | eassumption].
    eapply queue_exec_exclusionFirst; eassumption.
Qed.

Lemma reachable_exclusionFirst m n a :
  Z.of_nat n < 2 ^ 15 -> separated m -> reachable m n a ->
  exclusionFirst m (contents a).
Proof.
  intros Hn Hsep [ops Hops].
  pose proof (execs_refines m ops (make n) [] (make_represents n Hn)) as H.
  rewrite Hops in H. cbn [make linkedList] in H. rewrite repeat_length in H.
  destruct (Queue.execs n m ops []) as [q|] eqn:E; [|contradiction].
  destruct H as [Hr _]. rewrite (represents_contents _ _ Hr).
  eapply queue_execs_exclusionFirst; [assumption | | eassumption].
  intros i j x y Hi. discriminate.
Qed.

End Accumulator.

(** C5.  The handler accumulator keeps every handler in the queue at most
    once.  For every sequence of [addForCell], [addAuxForCell],
    [addForFixedCell], [takeNext] and [clear] (with [takeNext] on a
    non-empty queue, as [isEmpty] guards it), the linked list holds the
    queue that the same operations build on a list without repetition.
    A handler whose slot is not [-2] is not enqueued again;
    [addForFixedCell] puts the exclusion enforcer of the cell at the
    head, in front of every queued ordinary handler; ordinary adds append
    at the end; [takeNext] pops the head and [clear] empties the queue,
    both leaving the slots at [-2], so that the handler can be enqueued
    again. *)
Theorem accumulator_queue_discipline
    (m : HandlerAccumulator.Maps) (n : nat) (Hn : Z.of_nat n < 2 ^ 15) :
  (* the linked list refines the queue, for every sequence of operations *)
  (forall ops,
     match HandlerAccumulator.execs m ops (HandlerAccumulator.make n),
           HandlerAccumulator.Queue.execs n m ops [] with
     | Some a, Some q => HandlerAccumulator.contents a = q /\ NoDup q
     | None, None => True
     | _, _ => False
     end) /\
  (forall a, AccumulatorInv.reachable m n a ->
     (* at most once *)
     NoDup (HandlerAccumulator.contents a) /\
     (* a handler whose slot is not -2 is not enqueued again *)
     (forall i slot,
        a.(HandlerAccumulator.linkedList) !! i = Some slot -> slot <> -2 ->
        i ∈ HandlerAccumulator.contents a /\
        HandlerAccumulator.enqueueIndex a i = a /\
        HandlerAccumulator._pushIndex i a = a) /\
     (* addForFixedCell pushes to the head *)
     (forall c,
        a.(HandlerAccumulator.linkedList) !! (m.(HandlerAccumulator.exclusionHandlers) c)
          = Some (-2) ->
        HandlerAccumulator.contents (HandlerAccumulator.addForFixedCell m c a)
          = m.(HandlerAccumulator.exclusionHandlers) c :: HandlerAccumulator.contents a) /\
     (* exclusion enforcers stay in front of the ordinary handlers *)
     (AccumulatorInv.separated m ->
      forall c, (m.(HandlerAccumulator.exclusionHandlers) c < n)%nat ->
        m.(HandlerAccumulator.exclusionHandlers) c
          ∈ HandlerAccumulator.contents (HandlerAccumulator.addForFixedCell m c a) /\
        AccumulatorInv.exclusionFirst m
          (HandlerAccumulator.contents (HandlerAccumulator.addForFixedCell m c a))) /\
     (* ordinary adds append in FIFO order *)
     (forall i,
        a.(HandlerAccumulator.linkedList) !! i = Some (-2) ->
        HandlerAccumulator.contents (HandlerAccumulator.enqueueIndex a i)
          = HandlerAccumulator.contents a ++ [i]) /\
     (forall c,
        HandlerAccumulator.contents (HandlerAccumulator.addForCell m c a)
          = fold_left (HandlerAccumulator.Queue.enqueue n)
              (m.(HandlerAccumulator.ordinaryHandlers) c) (HandlerAccumulator.contents a)) /\
     (forall c,
        HandlerAccumulator.contents (HandlerAccumulator.addAuxForCell m c a)
          = fold_left (HandlerAccumulator.Queue.enqueue n)
              (m.(HandlerAccumulator.auxHandlers) c) (HandlerAccumulator.contents a)) /\
     (* takeNext pops the head and frees its slot *)
     (forall h q,
        HandlerAccumulator.contents a = h :: q ->
        HandlerAccumulator.isEmpty a = false /\
        exists a', HandlerAccumulator.takeNext a = Some (h, a') /\
                   HandlerAccumulator.contents a' = q /\
                   a'.(HandlerAccumulator.linkedList) !! h = Some (-2)) /\
     (HandlerAccumulator.contents a = [] -> HandlerAccumulator.isEmpty a = true) /\
     (* clear empties the queue and frees every slot *)
     (exists a', HandlerAccumulator.clear a = Some a' /\
                 HandlerAccumulator.contents a' = [] /\
                 a'.(HandlerAccumulator.linkedList) = repeat (-2) n)).
Proof.
  split.
  { intros ops.
    pose proof (execs_refines m ops (HandlerAccumulator.make n) []
                  (make_represents n Hn)) as H.
    cbn [HandlerAccumulator.make HandlerAccumulator.linkedList] in H.
    rewrite repeat_length in H.
    destruct (HandlerAccumulator.execs m ops (HandlerAccumulator.make n)) as [a|],
             (HandlerAccumulator.Queue.execs n m ops []) as [q|]; try exact H.
    destruct H as [Hr _]. split; [now apply represents_contents | apply Hr]. }
  intros a Hreach.
  destruct (reachable_represents m n a Hn Hreach) as (q & Hr & Hlen).
  pose proof (represents_contents a q Hr) as Hq.
  repeat match goal with |- _ /\ _ => split end.
  - rewrite Hq. apply Hr.
  - intros i slot Hs Hne.
    assert (Hin : i ∈ q).
    { destruct (decide (i ∈ q)) as [|Hni]; [assumption|].
      exfalso. apply Hne. now apply (AccumulatorInv.rep_free _ _ Hr i slot Hs). }
    pose proof (represents_slot a q i slot Hr Hs) as Hslot.
    rewrite bool_decide_eq_true_2 in Hslot by assumption. simpl in Hslot.
    split; [now rewrite Hq|].
    unfold HandlerAccumulator.enqueueIndex, HandlerAccumulator._pushIndex.
    rewrite Hs, Hslot. split; reflexivity.
  - intros c Hs.
    pose proof (pushIndex_represents a q (HandlerAccumulator.exclusionHandlers m c) Hr) as Hp.
    unfold HandlerAccumulator.addForFixedCell.
    rewrite (represents_contents _ _ Hp), Hq.
    unfold HandlerAccumulator.Queue.push.
    pose proof (lookup_lt_Some _ _ _ Hs) as Hlt.
    replace (_ <? _)%nat with true by (symmetry; now apply Nat.ltb_lt).
    rewrite bool_decide_eq_false_2; [reflexivity|].
    now apply (AccumulatorInv.rep_free _ _ Hr _ _ Hs).
  - intros Hsep c Hc.
    assert (Hreach' : AccumulatorInv.reachable m n (HandlerAccumulator.addForFixedCell m c a)).
    { eapply reachable_step; [exact Hreach|].
      instantiate (1 := HandlerAccumulator.AddForFixedCell c). reflexivity. }
    split; [|now apply (reachable_exclusionFirst m n)].
    pose proof (pushIndex_represents a q (HandlerAccumulator.exclusionHandlers m c) Hr) as Hp.
    unfold HandlerAccumulator.addForFixedCell.
    rewrite (represents_contents _ _ Hp). unfold HandlerAccumulator.Queue.push.
    rewrite Hlen.
    replace (_ <? _)%nat with true by (symmetry; now apply Nat.ltb_lt).
    simpl. case_bool_decide; simpl; [assumption | now left].
  - intros i Hs.
    pose proof (enqueueIndex_represents a q i Hr) as He.
    rewrite (represents_contents _ _ He), Hq.
    unfold HandlerAccumulator.Queue.enqueue.
    pose proof (lookup_lt_Some _ _ _ Hs) as Hlt.
    replace (_ <? _)%nat with true by (symmetry; now apply Nat.ltb_lt).
    rewrite bool_decide_eq_false_2; [reflexivity|].
    now apply (AccumulatorInv.rep_free _ _ Hr _ _ Hs).
  - intros c. unfold HandlerAccumulator.addForCell.
    destruct (enqueueIndexes_represents (HandlerAccumulator.ordinaryHandlers m c) a q Hr)
      as [He _].
    now rewrite (represents_contents _ _ He), Hq, Hlen.
  - intros c. unfold HandlerAccumulator.addAuxForCell.
    destruct (enqueueIndexes_represents (HandlerAccumulator.auxHandlers m c) a q Hr)
      as [He _].
    now rewrite (represents_contents _ _ He), Hq, Hlen.
  - intros h q0 H. rewrite H in Hq. subst q. split.
    + pose proof (chain_head_cons _ _ _ _ (AccumulatorInv.rep_chain _ _ Hr)) as Hhead.
      unfold HandlerAccumulator.isEmpty. rewrite Hhead. apply Z.eqb_neq. lia.
    + destruct (takeNext_represents a h q0 Hr) as (a' & Ht & Hr' & _ & Hfree).
      exists a'. split; [assumption|]. split; [now apply represents_contents | assumption].
  - intros Hnil. rewrite Hnil in Hq. subst q.
    pose proof (AccumulatorInv.rep_chain _ _ Hr) as Hc.
    inversion Hc as [Hh |]. unfold HandlerAccumulator.isEmpty. now rewrite <- Hh.
  - destruct (clear_represents a q Hr) as (a' & Hc & Hr' & Hlen' & Hall).
    exists a'. split; [assumption|]. split; [now apply represents_contents|].
    apply list_eq. intros j. rewrite repeat_replicate.
    destruct (decide (j < n)%nat) as [Hj | Hj].
    + rewrite Hall by lia. symmetry. now apply lookup_replicate_2.
    + rewrite (lookup_ge_None_2 _ j) by lia.
      symmetry. apply lookup_ge_None_2. rewrite length_replicate. lia.
Qed.

(** The discipline on six handlers: after the operations [ops6] the
    queue holds the exclusion enforcer 3 and the ordinary handlers 0, 1,
    2, each once. *)
Lemma accumulator_queue_discipline_witness :
  Z.of_nat 6 < 2 ^ 15 /\
  match HandlerAccumulator.execs Examples.maps6 Examples.ops6 (HandlerAccumulator.make 6),
        HandlerAccumulator.Queue.execs 6 Examples.maps6 Examples.ops6 [] with
  | Some a, Some q => HandlerAccumulator.contents a = q /\ NoDup q
  | None, None => True
  | _, _ => False
  end.
Proof.
  split; [reflexivity|].
  apply (proj1 (accumulator_queue_discipline Examples.maps6 6 eq_refl)).
Defined.

(** ** Masks of 16 bits *)

Section Masks.

Lemma isUint16_of_bits x :
  0 <= x -> (forall k, 16 <= k -> Z.testbit x k = false) -> isUint16 x.
Proof.
  intros Hx Hb. split; [assumption|].
  destruct (Z.eq_dec x 0) as [-> | Hne]; [reflexivity|].
  apply Z.log2_lt_pow2; [lia|].
  destruct (Z_lt_ge_dec (Z.log2 x) 16) as [|Hge]; [assumption|exfalso].
  specialize (Hb (Z.log2 x) ltac:(lia)).
  rewrite Z.bit_log2 in Hb by lia. discriminate.
Qed.

Lemma isUint16_bits x k : isUint16 x -> 16 <= k -> Z.testbit x k = false.
Proof.
  intros [H0 H1] Hk. destruct (Z.testbit x k) eqn:E; [exfalso | reflexivity].
  pose proof (testbit_true_bound x k 16 ltac:(lia) (conj H0 H1) E). lia.
Qed.

Lemma isUint16_int32 x : isUint16 x -> - 2 ^ 31 <= x < 2 ^ 31.
Proof. unfold isUint16. lia. Qed.

Lemma isUint16_0 : isUint16 0.
Proof. unfold isUint16. lia. Qed.

Lemma isUint16_toUint16 x : isUint16 (JS.toUint16 x).
Proof. apply toUint16_range. Qed.


Lemma or_uint16 a b : isUint16 a -> isUint16 b -> JS.or a b = Z.lor a b.
Proof.
  intros Ha Hb. unfold JS.or.
  now rewrite !toInt32_small by (now apply isUint16_int32).
Qed.

Lemma land_isUint16 a b : isUint16 a -> isUint16 (Z.land a b).
Proof.
  intros Ha. apply isUint16_of_bits.
  - apply Z.land_nonneg. left. apply Ha.
  - intros k Hk. rewrite Z.land_spec, (isUint16_bits a k Ha Hk). reflexivity.
Qed.

Lemma lor_isUint16 a b : isUint16 a -> isUint16 b -> isUint16 (Z.lor a b).
Proof.
  intros Ha Hb. apply isUint16_of_bits.
  - apply Z.lor_nonneg. split; [apply Ha | apply Hb].
  - intros k Hk.
    rewrite Z.lor_spec, (isUint16_bits a k Ha Hk), (isUint16_bits b k Hb Hk). reflexivity.
Qed.

Lemma and_not_uint16 a b :
  isUint16 a -> isUint16 b -> JS.and a (JS.not b) = Z.land a (Z.lnot b).
Proof.
  intros Ha Hb. unfold JS.and, JS.not.
  rewrite (toInt32_small b) by (now apply isUint16_int32).
  rewrite (toInt32_small a) by (now apply isUint16_int32).
  rewrite toInt32_small; [reflexivity|].
  rewrite Z.lnot_eq_pred_opp. unfold isUint16 in Hb. lia.
Qed.

Lemma readCell_isUint16 grid c : Forall isUint16 grid -> isUint16 (readCell grid c).
Proof.
  intros Hg. unfold readCell. destruct (grid !! c) as [v|] eqn:E; simpl.
  - eapply Forall_lookup_1; eassumption.
  - apply isUint16_0.
Qed.

Lemma storeCell_isUint16 grid c v : Forall isUint16 grid -> Forall isUint16 (storeCell grid c v).
Proof.
  intros Hg. unfold storeCell. apply Forall_insert; [assumption | apply isUint16_toUint16].
Qed.

Lemma storeCell_length grid c v : length (storeCell grid c v) = length grid.
Proof. apply length_insert. Qed.

Lemma applyStores_isUint16 stores : forall grid,
  Forall isUint16 grid -> Forall isUint16 (applyStores grid stores).
Proof.
  unfold applyStores. induction stores as [| [c v] stores IH]; intros grid Hg; [assumption|].
  simpl. apply IH. now apply storeCell_isUint16.
Qed.

Lemma applyStores_length stores : forall grid,
  length (applyStores grid stores) = length grid.
Proof.
  unfold applyStores. induction stores as [| [c v] stores IH]; intros grid; [reflexivity|].
  simpl. rewrite IH. apply storeCell_length.
Qed.


Lemma pow2_isUint16 k : 0 <= k < 16 -> isUint16 (2 ^ k).
Proof.
  intros Hk. split; [apply Z.pow_nonneg; lia | apply Z.pow_lt_mono_r; lia].
Qed.


End Masks.

(** ** House candidates *)

Section HouseCandidates.

Import CandidateSelector SelectorSpec.

Variables (bt grid : list Z).
Hypothesis Hgrid : Forall isUint16 grid.









End HouseCandidates.

(** ** The cell order *)

Section CellOrder.

Import CandidateSelector.

Lemma swap_length l i j : length (swap l i j) = length l.
Proof. unfold swap. now rewrite !length_insert. Qed.









End CellOrder.

(** ** Branching on a value of a house *)

Section SelectBestCandidate.

Import CandidateSelector SelectorSpec.





End SelectBestCandidate.




(** ** The guess of the search driver *)

Section Guess.

Import CandidateSelector SelectorSpec InternalSolver.








Lemma gridAt_setGrid_ne s d d' g : d <> d' -> gridAt (setGrid d g s) d' = gridAt s d'.
Proof.
  intros H. unfold gridAt, setGrid. cbn [_grids set_grids].
  now rewrite list_lookup_insert_ne.
Qed.

End Guess.




(** ** Counting candidates *)

Section PopCount.

Import Contract.

Let bitStep (v : Z) (n : Z) (i : nat) : Z :=
  if Z.testbit v (Z.of_nat i) then n + 1 else n.

Lemma bitStep_fold_shift v l : forall a,
  fold_left (bitStep v) l a = a + fold_left (bitStep v) l 0.
Proof.
  induction l as [| i l IH]; intros a; cbn [fold_left]; [lia|].
  rewrite (IH (bitStep v a i)), (IH (bitStep v 0 i)).
  unfold bitStep. destruct (Z.testbit v (Z.of_nat i)); lia.
Qed.

Lemma bitStep_fold_mono a b l :
  (forall i, List.In i l -> Z.testbit a (Z.of_nat i) = true -> Z.testbit b (Z.of_nat i) = true) ->
  0 <= fold_left (bitStep a) l 0 <= fold_left (bitStep b) l 0 /\
  ((exists i, List.In i l /\ Z.testbit a (Z.of_nat i) = false
                          /\ Z.testbit b (Z.of_nat i) = true) ->
   fold_left (bitStep a) l 0 < fold_left (bitStep b) l 0).
Proof.
  induction l as [| i l IH]; intros Hsub; cbn [fold_left].
  - split; [lia|]. intros (i & [] & _).
  - destruct IH as [IH1 IH2]; [intros j Hj; apply Hsub; now right|].
    rewrite (bitStep_fold_shift a l (bitStep a 0 i)),
            (bitStep_fold_shift b l (bitStep b 0 i)).
    pose proof (Hsub i (or_introl eq_refl)) as Hi.
    set (x := fold_left (bitStep a) l 0) in *.
    set (y := fold_left (bitStep b) l 0) in *.
    unfold bitStep.
    destruct (Z.testbit a (Z.of_nat i)) eqn:Ea, (Z.testbit b (Z.of_nat i)) eqn:Eb;
      try (specialize (Hi eq_refl); discriminate).
    + split; [lia|]. intros (j & [<- | Hj] & Hja & Hjb); [congruence|].
      assert (x < y) by eauto. lia.
    + split; [lia|]. intros _. lia.
    + split; [lia|]. intros (j & [<- | Hj] & Hja & Hjb); [congruence|].
      assert (x < y) by eauto. lia.
Qed.

Lemma countOnes16bit_fold v : countOnes16bit v = fold_left (bitStep v) (seq 0 16) 0.
Proof. reflexivity. Qed.

Lemma countOnes16bit_nonneg v : 0 <= countOnes16bit v.
Proof.
  rewrite countOnes16bit_fold.
  apply (bitStep_fold_mono v v). auto.
Qed.

Lemma land_subset_bits a b k : Z.land a b = a -> Z.testbit a k = true -> Z.testbit b k = true.
Proof.
  intros H Ha. rewrite <- H, Z.land_spec in Ha. now apply andb_true_iff in Ha.
Qed.

Lemma countOnes16bit_subset a b :
  isUint16 a -> isUint16 b -> Z.land a b = a ->
  countOnes16bit a <= countOnes16bit b /\
  (a <> b -> countOnes16bit a < countOnes16bit b).
Proof.
  intros Ha Hb Hsub. rewrite !countOnes16bit_fold.
  destruct (bitStep_fold_mono a b (seq 0 16)) as [H1 H2].
  { intros i _. now apply land_subset_bits. }
  split; [lia|]. intros Hne. apply H2.
  (* two different masks differ at a bit below 16 *)
  destruct (List.existsb (fun i => negb (Bool.eqb (Z.testbit a (Z.of_nat i))
                                                  (Z.testbit b (Z.of_nat i))))
                         (seq 0 16)) eqn:E.
  - apply List.existsb_exists in E as (i & Hi & Hd).
    exists i. split; [assumption|].
    destruct (Z.testbit a (Z.of_nat i)) eqn:Ea, (Z.testbit b (Z.of_nat i)) eqn:Eb;
      try discriminate; auto.
    apply (land_subset_bits a b _ Hsub) in Ea. congruence.
  - exfalso. apply Hne. apply Z.bits_inj'. intros n Hn.
    destruct (Z_lt_ge_dec n 16) as [Hlt | Hge].
    + assert (Hin : List.In (Z.to_nat n) (seq 0 16)) by (apply in_seq; lia).
      destruct (Bool.eqb (Z.testbit a n) (Z.testbit b n)) eqn:Eq.
      * now apply Bool.eqb_prop.
      * exfalso.
        assert (Ht : List.existsb
                       (fun i => negb (Bool.eqb (Z.testbit a (Z.of_nat i))
                                                (Z.testbit b (Z.of_nat i))))
                       (seq 0 16) = true).
        { apply List.existsb_exists. exists (Z.to_nat n). split; [assumption|].
          rewrite Z2Nat.id by lia. now rewrite Eq. }
        congruence.
    + now rewrite (isUint16_bits a n Ha), (isUint16_bits b n Hb) by lia.
Qed.

Lemma popTotal_nonneg g : 0 <= popTotal g.
Proof.
  induction g as [| v g IH]; [cbn; lia|].
  change (popTotal (v :: g)) with (countOnes16bit v + popTotal g).
  pose proof (countOnes16bit_nonneg v). lia.
Qed.

Lemma popTotal_narrows g g' :
  narrowsTo g g' -> Forall isUint16 g -> Forall isUint16 g' ->
  popTotal g' <= popTotal g /\ (g' <> g -> popTotal g' < popTotal g).
Proof.
  unfold narrowsTo. induction 1 as [| v' v g' g Hv Hrest IH]; intros Hg Hg'.
  - split; [lia | congruence].
  - apply Forall_cons in Hg as [Hv1 Hg]. apply Forall_cons in Hg' as [Hv1' Hg'].
    destruct (IH Hg Hg') as [IH1 IH2].
    destruct (countOnes16bit_subset v' v Hv1' Hv1 Hv) as [Hc1 Hc2].
    change (popTotal (v' :: g')) with (countOnes16bit v' + popTotal g').
    change (popTotal (v :: g)) with (countOnes16bit v + popTotal g).
    split; [lia|].
    intros Hne. destruct (Z.eq_dec v' v) as [-> | Hvne].
    + assert (g' <> g) by congruence. specialize (IH2 H). lia.
    + specialize (Hc2 Hvne). lia.
Qed.

End PopCount.

(** ** Propagation drains the queue *)

Section Enforce.

Import HandlerAccumulator AccumulatorInv Contract Drain InternalSolver.

Variable cfg : Config.

Lemma addForCells_holds adds : forall acc q,
  Drain.holds cfg acc q ->
  Drain.holds cfg (fold_left (fun a cell => addForCell cfg.(maps) cell a) adds acc)
        (enqueueCells cfg adds q).
Proof.
  unfold enqueueCells.
  induction adds as [| cell adds IH]; intros acc q [Hr Hl]; [split; assumption|].
  cbn [fold_left]. apply IH. unfold addForCell.
  destruct (enqueueIndexes_represents (ordinaryHandlers (maps cfg) cell) acc q Hr)
    as [Hr' Hl'].
  rewrite Hl in Hr'. split; [assumption | congruence].
Qed.

Lemma holds_takeNext acc h q :
  Drain.holds cfg acc (h :: q) ->
  isEmpty acc = false /\
  exists acc1 c, takeNext acc = Some (h, acc1) /\ Drain.holds cfg acc1 q /\
                 cfg.(handlers) !! h = Some c.
Proof.
  intros [Hr Hl].
  destruct (takeNext_represents acc h q Hr) as (acc1 & Ht & Hr1 & Hl1 & _).
  split.
  - pose proof (chain_head_cons _ _ _ _ (rep_chain _ _ Hr)) as Hhead.
    unfold isEmpty. rewrite Hhead. apply Z.eqb_neq. lia.
  - assert (Hh : (h < length cfg.(handlers))%nat).
    { rewrite <- Hl. eapply chain_bound; [apply Hr | now left]. }
    destruct (lookup_lt_is_Some_2 _ _ Hh) as [c Hc].
    exists acc1, c. split; [assumption|].
    split; [split; [assumption | congruence] | assumption].
Qed.

Lemma holds_empty acc : Drain.holds cfg acc [] -> isEmpty acc = true.
Proof.
  intros [Hr _]. pose proof (rep_chain _ _ Hr) as Hc. inversion Hc as [Hh |].
  unfold isEmpty. now rewrite <- Hh.
Qed.

(** What the loop answers is a drain of the queue. *)
Lemma enforceConstraints_drains complete fuel : forall grid acc q n ok g' acc' n',
  Drain.holds cfg acc q ->
  _enforceConstraints fuel cfg grid complete acc n = Some (ok, g', acc', n') ->
  exists log q',
    drains cfg complete grid q log ok g' q' /\ Drain.holds cfg acc' q' /\
    n' = n + Z.of_nat (length log).
Proof.
  induction fuel as [| fuel IH]; intros grid acc q n ok g' acc' n' Hh Hrun;
    cbn [_enforceConstraints] in Hrun.
  - destruct q as [| h q].
    + rewrite (holds_empty acc Hh) in Hrun. injection Hrun as <- <- <- <-.
      exists [], []. split; [constructor|]. split; [assumption | cbn; lia].
    + destruct (holds_takeNext acc h q Hh) as [He _]. rewrite He in Hrun. discriminate.
  - destruct q as [| h q].
    + rewrite (holds_empty acc Hh) in Hrun. injection Hrun as <- <- <- <-.
      exists [], []. split; [constructor|]. split; [assumption | cbn; lia].
    + destruct (holds_takeNext acc h q Hh) as (He & acc1 & c & Ht & Hh1 & Hc).
      rewrite He, Ht, Hc in Hrun.
      destruct (complete && negb (essential c)) eqn:Hskip.
      * apply andb_true_iff in Hskip as [-> Hess]. apply negb_true_iff in Hess.
        destruct (IH _ _ _ _ _ _ _ _ Hh1 Hrun) as (log & q' & Hd & Hh' & Hn).
        exists log, q'. split; [|split; assumption].
        eapply drains_skip; eauto.
      * destruct (enforceConsistency c grid) as [[okc stores] adds] eqn:Hc'.
        pose proof (addForCells_holds adds acc1 q Hh1) as Hh2.
        destruct okc.
        -- destruct (IH _ _ _ _ _ _ _ _ Hh2 Hrun) as (log & q' & Hd & Hh' & Hn).
           exists ((h, true) :: log), q'. split; [|split; [assumption | cbn [length]; lia]].
           eapply drains_true; eauto.
        -- injection Hrun as <- <- <- <-.
           exists [(h, false)], (enqueueCells cfg adds q).
           split; [|split; [assumption | cbn; lia]].
           eapply drains_false; eauto.
Qed.

(** The log of a drain: only its last entry can be a failure, and a
    successful drain leaves the queue empty. *)
Lemma drains_log complete grid q log ok g' q' :
  drains cfg complete grid q log ok g' q' ->
  (ok = true -> q' = [] /\ Forall (fun e => snd e = true) log) /\
  (ok = false -> exists log0 h, log = log0 ++ [(h, false)] /\
                                Forall (fun e => snd e = true) log0).
Proof.
  induction 1 as [g | g h q c log ok g' q' Hc Hcomp Hess Hd IH
                  | g h q c stores adds Hc Hrun He
                  | g h q c stores adds log ok g' q' Hc Hrun He Hd IH].
  - split; [intros _; split; [reflexivity | constructor] | discriminate].
  - exact IH.
  - split; [discriminate|]. intros _. exists [], h. split; [reflexivity | constructor].
  - destruct IH as [IH1 IH2]. split.
    + intros Hok. destruct (IH1 Hok) as [-> Hall]. split; [reflexivity|].
      constructor; [reflexivity | assumption].
    + intros Hok. destruct (IH2 Hok) as (log0 & h' & -> & Hall).
      exists ((h, true) :: log0), h'. split; [reflexivity|].
      constructor; [reflexivity | assumption].
Qed.

(** More budget does not change the answer. *)
Lemma enforceConstraints_mono complete fuel : forall fuel' grid acc n r,
  _enforceConstraints fuel cfg grid complete acc n = Some r ->
  (fuel <= fuel')%nat ->
  _enforceConstraints fuel' cfg grid complete acc n = Some r.
Proof.
  induction fuel as [| fuel IH]; intros fuel' grid acc n r Hrun Hle;
    cbn [_enforceConstraints] in Hrun.
  - destruct (isEmpty acc) eqn:He; [|discriminate].
    destruct fuel'; cbn [_enforceConstraints]; now rewrite He.
  - destruct fuel' as [| fuel']; [lia|]. cbn [_enforceConstraints].
    destruct (isEmpty acc); [assumption|].
    destruct (takeNext acc) as [[h acc1]|]; [|discriminate].
    destruct (handlers cfg !! h) as [c|]; [|discriminate].
    destruct (complete && negb (essential c)).
    + apply IH; [assumption | lia].
    + destruct (enforceConsistency c grid) as [[okc stores] adds].
      destruct okc; [apply IH; [assumption | lia] | assumption].
Qed.

Lemma holds_length acc q : Drain.holds cfg acc q -> (length q <= length cfg.(handlers))%nat.
Proof. intros [Hr Hl]. rewrite <- Hl. now apply represents_length. Qed.

(** With well-behaved handlers the loop ends within the budget. *)
Lemma enforceConstraints_terminates complete :
  Forall wellBehaved cfg.(handlers) ->
  forall fuel grid acc q n,
    Drain.holds cfg acc q -> Forall isUint16 grid ->
    (budget cfg grid q <= fuel)%nat ->
    exists r, _enforceConstraints fuel cfg grid complete acc n = Some r.
Proof.
  intros Hwb. induction fuel as [| fuel IH]; intros grid acc q n Hh Hg Hb.
  - unfold budget in Hb. lia.
  - cbn [_enforceConstraints]. destruct q as [| h q].
    + rewrite (holds_empty acc Hh). eauto.
    + destruct (holds_takeNext acc h q Hh) as (He & acc1 & c & Ht & Hh1 & Hc).
      rewrite He, Ht, Hc.
      destruct (complete && negb (essential c)).
      * apply (IH _ _ q); [assumption | assumption|].
        unfold budget in *. cbn [length] in Hb. lia.
      * pose proof (proj1 (Forall_lookup _ _) Hwb h c Hc grid Hg) as Hbeh.
        destruct (enforceConsistency c grid) as [[okc stores] adds].
        destruct Hbeh as [Hnarrow Hquiet].
        destruct okc; [|eauto].
        pose proof (addForCells_holds adds acc1 q Hh1) as Hh2.
        apply (IH _ _ (enqueueCells cfg adds q));
          [assumption | now apply applyStores_isUint16 |].
        pose proof (popTotal_narrows _ _ Hnarrow Hg (applyStores_isUint16 stores grid Hg))
          as [Hle Hlt].
        pose proof (popTotal_nonneg (applyStores grid stores)) as Hnn.
        pose proof (holds_length _ _ Hh2) as Hlen.
        unfold budget in *. cbn [length] in Hb.
        destruct (decide (applyStores grid stores = grid)) as [Heq | Hne].
        -- rewrite (Hquiet Heq). cbn [enqueueCells fold_left]. rewrite Heq. lia.
        -- specialize (Hlt Hne).
           assert (Z.to_nat (popTotal (applyStores grid stores)) + 1
                   <= Z.to_nat (popTotal grid))%nat by lia.
           nia.
Qed.

End Enforce.

(** C4.  [_enforceConstraints] pops handlers from the accumulator while
    it is not empty.  A popped handler is skipped when the grid is
    complete and the handler is not essential; any other is counted in
    [constraintsProcessed] and run on the grid.  The answer is [false]
    as soon as a handler that was run answers [false], with the rest of
    the queue left as it is, and [true] when the queue is empty and no
    handler has answered [false].  With handlers that only clear bits
    and enqueue only when they changed the grid, the loop ends. *)
Theorem enforceConstraints_drains_queue
    (cfg : Config) (grid : list Z) (complete : bool)
    (acc : HandlerAccumulator.t) (q : list nat) (n : Z) :
  Drain.holds cfg acc q ->
  (forall fuel ok g' acc' n',
     InternalSolver._enforceConstraints fuel cfg grid complete acc n
     = Some (ok, g', acc', n') ->
     exists log q',
       Drain.drains cfg complete grid q log ok g' q' /\
       Drain.holds cfg acc' q' /\
       n' = n + Z.of_nat (length log) /\
       (ok = true ->
          q' = [] /\ HandlerAccumulator.isEmpty acc' = true /\
          Forall (fun e => snd e = true) log) /\
       (ok = false ->
          exists log0 h, log = log0 ++ [(h, false)] /\
                         Forall (fun e => snd e = true) log0)) /\
  (Forall Contract.wellBehaved cfg.(handlers) -> Forall isUint16 grid ->
   exists r, forall fuel,
     (Drain.budget cfg grid q <= fuel)%nat ->
     InternalSolver._enforceConstraints fuel cfg grid complete acc n = Some r).
Proof.
  intros Hh. split.
  - intros fuel ok g' acc' n' Hrun.
    destruct (enforceConstraints_drains cfg complete fuel _ _ _ _ _ _ _ _ Hh Hrun)
      as (log & q' & Hd & Hh' & Hn).
    exists log, q'. split; [assumption|]. split; [assumption|]. split; [assumption|].
    destruct (drains_log cfg _ _ _ _ _ _ _ Hd) as [Ht Hf]. split; [|assumption].
    intros Hok. destruct (Ht Hok) as [-> Hall].
    split; [reflexivity|]. split; [now apply (holds_empty cfg) | assumption].
  - intros Hwb Hg.
    destruct (enforceConstraints_terminates cfg complete Hwb
                (Drain.budget cfg grid q) grid acc q n Hh Hg (Nat.le_refl _)) as [r Hr].
    exists r. intros fuel Hfuel.
    eapply enforceConstraints_mono; eassumption.
Qed.

Lemma accepting_wellBehaved hcells : Contract.wellBehaved (Examples.accepting hcells).
Proof.
  intros g Hg. cbn. split; [|reflexivity].
  unfold Contract.narrowsTo. apply Forall2_same_length_lookup_2; [reflexivity|].
  intros i x y Hx Hy. rewrite Hx in Hy. injection Hy as <-. apply Z.land_diag.
Qed.

Lemma given_wellBehaved c m : Contract.wellBehaved (Examples.given c m).
Proof. exact (accepting_wellBehaved [c]). Qed.

(** The drain on [cfgGuess] with the given handler of cell 0 queued:
    the handler is run once and the answer is [true]. *)
Lemma enforceConstraints_drains_queue_witness :
  let acc := HandlerAccumulator.addForCell Examples.cfgGuess.(maps) 0
               (HandlerAccumulator.make 3) in
  Drain.holds Examples.cfgGuess acc [0%nat] /\
  exists r, forall fuel,
    (Drain.budget Examples.cfgGuess [3; 7]%Z [0%nat] <= fuel)%nat ->
    InternalSolver._enforceConstraints fuel Examples.cfgGuess [3; 7] false acc 0 = Some r.
Proof.
  intros acc.
  assert (Hh : Drain.holds Examples.cfgGuess acc [0%nat]).
  { split; [|reflexivity].
    exact (proj1 (enqueueIndexes_represents [0%nat] (HandlerAccumulator.make 3) []
                    (make_represents 3 eq_refl))). }
  split; [exact Hh|].
  apply (proj2 (enforceConstraints_drains_queue Examples.cfgGuess [3; 7] false acc
                  [0%nat] 0 Hh)).
  - constructor; [apply given_wellBehaved|].
    constructor; [apply accepting_wellBehaved|].
    constructor; [apply accepting_wellBehaved | constructor].
  - repeat constructor; lia.
Defined.

(** ** Iterators of [run] and the run counter *)

Section RunCounter.

Import InternalSolver.

Ltac break_match H :=
  match type of H with
  | context [match ?x with _ => _ end] => destruct x eqn:?
  end.

Lemma branch_runCounter s recDepth cell value count :
  (fst (branch s recDepth cell value count)).(_runCounter) = s.(_runCounter) /\
  (fst (branch s recDepth cell value count)).(_atStart) = s.(_atStart).
Proof. unfold branch. destruct (count =? 1); split; reflexivity. Qed.

Lemma finishPass_runCounter cfg s it p :
  (fst (finishPass cfg s it p)).(_runCounter) = s.(_runCounter) /\
  (fst (finishPass cfg s it p)).(_atStart) = s.(_atStart) /\
  (snd (finishPass cfg s it p)).(runCounter) = it.(runCounter).
Proof.
  unfold finishPass. destruct (p_hasContradiction p); [repeat split|].
  destruct (match _uninterestingValues s with Some _ => _ | None => _ end);
    repeat split.
Qed.

(** The result of a pass keeps the run counter of the solver and the
    one the iterator recorded. *)
Definition keepsCounter (s : Solver) (it : Iter) (r : PassResult) : Prop :=
  match r with
  | Continue s' it' | Suspend s' it' _ =>
      s'.(_runCounter) = s.(_runCounter) /\ s'.(_atStart) = s.(_atStart) /\
      it'.(runCounter) = it.(runCounter)
  end.

Lemma afterEnforce_runCounter cfg s it p : keepsCounter s it (afterEnforce cfg s it p).
Proof.
  unfold afterEnforce.
  destruct (_ && _); [repeat split|].
  destruct (yieldEveryStep it); [repeat split|].
  pose proof (finishPass_runCounter cfg s it p) as H.
  destruct (finishPass cfg s it p) as [s' it']. exact H.
Qed.

Lemma pass_runCounter fuel cfg s it r :
  pass fuel cfg s it = Some r -> keepsCounter s it r.
Proof.
  unfold pass. intros H.
  destruct (_ && _) eqn:Hsol.
  { injection H as <-. repeat split. }
  match type of H with
  | context [CandidateSelector.selectNextCandidate ?a ?b ?c ?d ?e ?f ?g] =>
      destruct (CandidateSelector.selectNextCandidate a b c d e f g)
        as [[[[nextCells value] count] sel']|] eqn:Hsel; [|discriminate]
  end.
  destruct (count =? 0).
  { injection H as <-. destruct (isNewNode it); repeat split. }
  match type of H with
  | context [branch ?a ?b ?c ?d ?e] =>
      pose proof (branch_runCounter a b c d e) as [Hb1 Hb2];
      destruct (branch a b c d e) as [s6 recDepth'] eqn:Hbr
  end.
  cbn [fst] in Hb1, Hb2.
  destruct (HandlerAccumulator.clear _) as [acc0|]; [|discriminate].
  match type of H with
  | context [_enforceConstraints ?a ?b ?c ?d ?e ?f] =>
      destruct (_enforceConstraints a b c d e f) as [[[[ok grid7] acc3] processed]|];
        [|discriminate]
  end.
  assert (Hs : s6.(_runCounter) = s.(_runCounter) /\ s6.(_atStart) = s.(_atStart)).
  { rewrite Hb1, Hb2. destruct (isNewNode it), (yieldEveryStep it);
      try destruct (_stepState _); destruct (JS.and _ _ =? 0); split; reflexivity. }
  destruct Hs as [Hs1 Hs2].
  destruct ok; cbn [negb] in H.
  - injection H as <-.
    match goal with
    | |- keepsCounter _ _ (afterEnforce ?c ?s1 ?i1 ?p) =>
        pose proof (afterEnforce_runCounter c s1 i1 p) as Ha;
        destruct (afterEnforce c s1 i1 p)
    end; cbn in Ha |- *; rewrite <- Hs1, <- Hs2; exact Ha.
  - destruct (_ && _) in H.
    + injection H as <-. cbn. rewrite <- Hs1, <- Hs2. repeat split.
    + injection H as <-.
      match goal with
      | |- keepsCounter _ _ (afterEnforce ?c ?s1 ?i1 ?p) =>
          pose proof (afterEnforce_runCounter c s1 i1 p) as Ha;
          destruct (afterEnforce c s1 i1 p)
      end; cbn in Ha |- *; rewrite <- Hs1, <- Hs2; exact Ha.
Qed.

Lemma loop_runCounter cfg fuel : forall s it s' it' r,
  loop fuel cfg s it = Some (s', it', r) ->
  s'.(_runCounter) = s.(_runCounter) /\ s'.(_atStart) = s.(_atStart) /\
  it'.(runCounter) = it.(runCounter).
Proof.
  induction fuel as [| fuel IH]; intros s it s' it' r H; cbn [loop] in H; [discriminate|].
  destruct (recDepth it =? 0)%nat.
  { injection H as <- <- <-. repeat split. }
  destruct (pass fuel cfg s it) as [[s1 it1 | s1 it1 r1]|] eqn:Hp; [| |discriminate].
  - apply pass_runCounter in Hp as (H1 & H2 & H3).
    apply IH in H as (H4 & H5 & H6). repeat split; congruence.
  - apply pass_runCounter in Hp as (H1 & H2 & H3).
    injection H as <- <- <-. repeat split; assumption.
Qed.

End RunCounter.

Section StaleIterators.

Import InternalSolver.

Lemma enterLoop_runCounter cfg fuel s it s' it' r :
  enterLoop fuel cfg s it = Some (s', it', r) ->
  s'.(_runCounter) = s.(_runCounter) /\ s'.(_atStart) = s.(_atStart) /\
  it'.(runCounter) = it.(runCounter).
Proof. unfold enterLoop. intros H. apply loop_runCounter in H. exact H. Qed.

(** A started iterator has recorded the counter of its solver, and the
    solver is no longer in its initial state. *)
Lemma start_runCounter cfg fuel s it s' it' r :
  s.(_atStart) = true ->
  start fuel cfg s it = Some (s', it', r) ->
  s'.(_runCounter) = s.(_runCounter) + 1 /\ s'.(_atStart) = false /\
  it'.(runCounter) = s'.(_runCounter).
Proof.
  unfold start. intros Hat H. rewrite Hat in H. cbn [negb] in H.
  destruct (HandlerAccumulator.clear _) as [acc0|]; [|discriminate].
  destruct (_enforceConstraints _ _ _ _ _ _) as [[[[ok grid] acc2] processed]|];
    [|discriminate].
  destruct (yieldEveryStep it).
  - injection H as <- <- <-. unfold setStepState_empty. cbn.
    destruct (_stepState s); repeat split.
  - apply enterLoop_runCounter in H as (H1 & H2 & H3). cbn in H1, H2, H3.
    rewrite H1, H2, H3. repeat split.
Qed.

Lemma reset_runCounter cfg s :
  s.(_atStart) = false -> (reset cfg s).(_runCounter) = s.(_runCounter) + 1.
Proof. unfold reset, _resetStack. cbn. intros ->. reflexivity. Qed.

Lemma reset_atStart_runCounter cfg s :
  s.(_atStart) = true -> (reset cfg s).(_runCounter) = s.(_runCounter).
Proof. unfold reset, _resetStack. cbn. intros ->. reflexivity. Qed.

Lemma reset_atStart cfg s : (reset cfg s).(_atStart) = true.
Proof. unfold reset, _resetStack. cbn. destruct (_atStart s) eqn:E; cbn; auto. Qed.

Lemma afterEnforce_not_invalid cfg s it p s' it' :
  afterEnforce cfg s it p <> Suspend s' it' (Threw invalidMsg).
Proof.
  unfold afterEnforce.
  destruct (_ && _); [intros [= _ _ H]; discriminate H|].
  destruct (yieldEveryStep it); [discriminate|].
  destruct (finishPass cfg s it p); discriminate.
Qed.

Lemma pass_not_invalid fuel cfg s it s' it' :
  pass fuel cfg s it <> Some (Suspend s' it' (Threw invalidMsg)).
Proof.
  unfold pass. intros H.
  destruct (_ && _); [discriminate|].
  destruct (CandidateSelector.selectNextCandidate _ _ _ _ _ _ _)
    as [[[[nextCells value] count] sel']|]; [|discriminate].
  destruct (count =? 0); [discriminate|].
  destruct (branch _ _ _ _ _) as [s6 recDepth'].
  destruct (HandlerAccumulator.clear _) as [acc0|]; [|discriminate].
  destruct (_enforceConstraints _ _ _ _ _ _) as [[[[ok grid7] acc3] processed]|];
    [|discriminate].
  destruct ok; cbn [negb] in H.
  - injection H as H. apply afterEnforce_not_invalid in H. exact H.
  - destruct (_ && _); [discriminate|].
    injection H as H. apply afterEnforce_not_invalid in H. exact H.
Qed.

Lemma loop_not_invalid cfg fuel : forall s it s' it',
  loop fuel cfg s it <> Some (s', it', Threw invalidMsg).
Proof.
  induction fuel as [| fuel IH]; intros s it s' it' H; cbn [loop] in H; [discriminate|].
  destruct (recDepth it =? 0)%nat; [discriminate|].
  destruct (pass fuel cfg s it) as [[s1 it1 | s1 it1 r1]|] eqn:Hp; [| |discriminate].
  - apply IH in H. exact H.
  - injection H as -> -> ->. apply pass_not_invalid in Hp. exact Hp.
Qed.

(** C8 (code bug): the generator of [run] records the run counter when
    its body is entered, [reset] then makes it stale, and a stale
    iterator raises [invalidMsg] when it is resumed from the first step
    yield, from a solution yield or from a step yield; but resumed from
    the yield of a contradiction it never raises [invalidMsg], and on
    [cfgReject] the stale iterator of [run(2)] runs on and returns. *)
Theorem stale_iterator_raises_at_checked_yields :
  (forall cfg fuel s it s' it' r,
      pc it = AtStart -> _atStart s = true ->
      next fuel cfg s it = Some (s', it', r) ->
      staleIterator s' it' = false /\ staleIterator (reset cfg s') it' = true) /\
  (forall cfg fuel s it,
      checkedYield (pc it) = true -> staleIterator s it = true ->
      next fuel cfg s it = Some (s, seti_pc Finished it, Threw invalidMsg)) /\
  (forall cfg fuel s it p s' it',
      pc it = AtContradictionYield p ->
      next fuel cfg s it <> Some (s', it', Threw invalidMsg)) /\
  (exists s it e p s' it',
      Examples.rejectYield = Some (s, it, Yielded e) /\
      pc it = AtContradictionYield p /\
      staleIterator (reset Examples.cfgReject s) it = true /\
      next 10 Examples.cfgReject (reset Examples.cfgReject s) it
        = Some (s', it', Returned)).
Proof.
  split; [|split; [|split]].
  - intros cfg fuel s it s' it' r Hpc Hat H.
    unfold next in H. rewrite Hpc in H.
    apply start_runCounter in H as (H1 & H2 & H3); [|exact Hat].
    unfold staleIterator. rewrite (reset_runCounter cfg s' H2), H3.
    rewrite Z.eqb_refl. split; [reflexivity|].
    destruct (Z.eqb_spec (_runCounter s') (_runCounter s' + 1)); [lia|reflexivity].
  - intros cfg fuel s it Hpc Hst. unfold next.
    destruct (pc it); try discriminate Hpc; rewrite Hst; reflexivity.
  - intros cfg fuel s it p s' it' Hpc H. unfold next in H. rewrite Hpc in H.
    destruct (afterEnforce cfg s it p) as [s1 it1 | s1 it1 r1] eqn:Ha.
    + apply loop_not_invalid in H. exact H.
    + injection H as -> -> ->. apply afterEnforce_not_invalid in Ha. exact Ha.
  - unfold Examples.rejectYield, Examples.rejectStale.
    do 6 eexists. split; [reflexivity|].
    split; [reflexivity|]. split; vm_compute; reflexivity.
Qed.

Lemma stale_iterator_raises_at_checked_yields_witness :
  match Examples.guessStep1 with
  | Some (s, it, _) =>
      (next 10 Examples.cfgGuess (reset Examples.cfgGuess s) it
        = Some (reset Examples.cfgGuess s, seti_pc Finished it, Threw invalidMsg))
  | None => False
  end.
Proof.
  unfold Examples.guessStep1.
  apply (proj1 (proj2 stale_iterator_raises_at_checked_yields));
    vm_compute; reflexivity.
Defined.

End StaleIterators.

(** ** Setup: a handler that fails to initialize *)

Section Invalidate.

Import Contract InternalSolver.

Lemma readCell_storeCell_eq grid c v :
  (c < length grid)%nat -> readCell (storeCell grid c v) c = JS.toUint16 v.
Proof.
  intros Hc. unfold readCell, storeCell. now rewrite list_lookup_insert_eq.
Qed.

Lemma readCell_storeCell_ne grid c c' v :
  c <> c' -> readCell (storeCell grid c v) c' = readCell grid c'.
Proof.
  intros Hc. unfold readCell, storeCell. now rewrite list_lookup_insert_ne.
Qed.

Lemma readCell_beyond grid c : (length grid <= c)%nat -> readCell grid c = 0.
Proof. intros Hc. unfold readCell. now rewrite lookup_ge_None_2. Qed.



Lemma readCell_map_zero (grid : list Z) c : readCell (map (fun _ => 0) grid) c = 0.
Proof.
  unfold readCell. rewrite list_lookup_fmap. now destruct (grid !! c).
Qed.


Lemma invalidateGrid_length grid h : length (_invalidateGrid grid h) = length grid.
Proof.
  unfold _invalidateGrid.
  assert (Hfold : forall cs g, length (fold_left (fun g c => storeCell g c 0) cs g) = length g).
  { induction cs as [| c cs IH]; intros g; [reflexivity|].
    cbn [fold_left]. rewrite IH. apply storeCell_length. }
  destruct (_ =? _)%nat; [rewrite length_map|]; apply Hfold.
Qed.

Lemma invalidateGrid_isUint16 grid h :
  Forall isUint16 grid -> Forall isUint16 (_invalidateGrid grid h).
Proof.
  intros Hg. unfold _invalidateGrid.
  assert (Hfold : forall cs g, Forall isUint16 g ->
                    Forall isUint16 (fold_left (fun g c => storeCell g c 0) cs g)).
  { induction cs as [| c cs IH]; intros g Hgg; [assumption|].
    cbn [fold_left]. apply IH. now apply storeCell_isUint16. }
  destruct (_ =? _)%nat; [|now apply Hfold].
  apply Forall_fmap. apply Forall_forall. intros x _. apply isUint16_0.
Qed.


Lemma narrowsTo_refl g : narrowsTo g g.
Proof.
  unfold narrowsTo. apply Forall2_same_length_lookup_2; [reflexivity|].
  intros i x y Hx Hy. rewrite Hx in Hy. injection Hy as <-. apply Z.land_diag.
Qed.

Lemma narrowsTo_trans g1 g2 g3 : narrowsTo g1 g2 -> narrowsTo g2 g3 -> narrowsTo g1 g3.
Proof.
  unfold narrowsTo. intros H12 H23.
  apply Forall2_same_length_lookup_2.
  - apply Forall2_length in H12, H23. congruence.
  - intros i x z Hx Hz.
    destruct (Forall2_lookup_l _ _ _ _ _ H23 Hx) as (y & Hy & Hxy).
    destruct (Forall2_lookup_l _ _ _ _ _ H12 Hy) as (z' & Hz' & Hyz).
    rewrite Hz in Hz'. injection Hz' as <-.
    rewrite <- Hxy at 2. rewrite <- Hyz. rewrite Z.land_assoc. now rewrite Hxy.
Qed.

Lemma initGrid_isUint16 cfg : Forall isUint16 (_initGrid cfg).
Proof.
  unfold _initGrid. apply Forall_forall. intros x Hx.
  rewrite repeat_replicate in Hx. apply elem_of_replicate in Hx as [-> _].
  apply isUint16_toUint16.
Qed.

Lemma initGrid_length cfg : length (_initGrid cfg) = cfg.(numCells).
Proof. apply repeat_length. Qed.

Lemma initializeHandler_isUint16 grid h :
  Forall isUint16 grid -> Forall isUint16 (initializeHandler grid h).
Proof.
  intros Hg. unfold initializeHandler. destruct (initialize h grid) as [ok stores].
  destruct ok; [now apply applyStores_isUint16|].
  apply invalidateGrid_isUint16. now apply applyStores_isUint16.
Qed.

Lemma initializeHandler_length grid h : length (initializeHandler grid h) = length grid.
Proof.
  unfold initializeHandler. destruct (initialize h grid) as [ok stores].
  destruct ok; [|rewrite invalidateGrid_length]; apply applyStores_length.
Qed.

Lemma initializeHandlers_isUint16 hs : forall grid,
  Forall isUint16 grid -> Forall isUint16 (fold_left initializeHandler hs grid).
Proof.
  induction hs as [| h hs IH]; intros grid Hg; [assumption|].
  cbn [fold_left]. apply IH. now apply initializeHandler_isUint16.
Qed.

Lemma initializeHandlers_length hs : forall grid,
  length (fold_left initializeHandler hs grid) = length grid.
Proof.
  induction hs as [| h hs IH]; intros grid; [reflexivity|].
  cbn [fold_left]. rewrite IH. apply initializeHandler_length.
Qed.




End Invalidate.

Section Wipeout.

Import Contract InternalSolver.

Variable cfg : Config.
Hypothesis Hwb : Forall wellBehaved cfg.(handlers).

(** Propagation with handlers that only clear bits only narrows the
    grid. *)
Lemma enforceConstraints_narrows complete fuel : forall grid acc n ok g' acc' n',
  Forall isUint16 grid ->
  _enforceConstraints fuel cfg grid complete acc n = Some (ok, g', acc', n') ->
  narrowsTo grid g' /\ Forall isUint16 g'.
Proof.
  induction fuel as [| fuel IH]; intros grid acc n ok g' acc' n' Hg Hrun;
    cbn [_enforceConstraints] in Hrun.
  - destruct (HandlerAccumulator.isEmpty acc); [|discriminate].
    injection Hrun as <- <- <- <-. split; [apply narrowsTo_refl | assumption].
  - destruct (HandlerAccumulator.isEmpty acc).
    { injection Hrun as <- <- <- <-. split; [apply narrowsTo_refl | assumption]. }
    destruct (HandlerAccumulator.takeNext acc) as [[h acc1]|]; [|discriminate].
    destruct (handlers cfg !! h) as [c|] eqn:Hc; [|discriminate].
    destruct (complete && negb (essential c)).
    { eapply IH; eassumption. }
    pose proof (proj1 (Forall_lookup _ _) Hwb h c Hc grid Hg) as Hbeh.
    destruct (enforceConsistency c grid) as [[okc stores] adds].
    destruct Hbeh as [Hnarrow _].
    pose proof (applyStores_isUint16 stores grid Hg) as Hg1.
    destruct okc.
    + apply IH in Hrun as [Hn Hu]; [|assumption].
      split; [|assumption]. eapply narrowsTo_trans; eassumption.
    + injection Hrun as <- <- <- <-. split; assumption.
Qed.

Lemma enforceConstraints_length complete fuel : forall grid acc n ok g' acc' n',
  _enforceConstraints fuel cfg grid complete acc n = Some (ok, g', acc', n') ->
  length g' = length grid.
Proof.
  induction fuel as [| fuel IH]; intros grid acc n ok g' acc' n' Hrun;
    cbn [_enforceConstraints] in Hrun.
  - destruct (HandlerAccumulator.isEmpty acc); [|discriminate].
    now injection Hrun as <- <- <- <-.
  - destruct (HandlerAccumulator.isEmpty acc).
    { now injection Hrun as <- <- <- <-. }
    destruct (HandlerAccumulator.takeNext acc) as [[h acc1]|]; [|discriminate].
    destruct (handlers cfg !! h) as [c|] eqn:Hc; [|discriminate].
    destruct (complete && negb (essential c)).
    { eapply IH; eassumption. }
    destruct (enforceConsistency c grid) as [[okc stores] adds].
    destruct okc.
    + apply IH in Hrun. rewrite Hrun. apply applyStores_length.
    + injection Hrun as <- <- <- <-. apply applyStores_length.
Qed.

End Wipeout.

Section EmptyCell.

Import Contract InternalSolver.




End EmptyCell.

Section SearchOfInvalidGrid.

Import Contract InternalSolver.


Lemma make_grid0 cfg : gridAt (make cfg) 0 = _setUpHandlers cfg.
Proof. reflexivity. Qed.

Lemma setUpHandlers_isUint16 cfg : Forall isUint16 (_setUpHandlers cfg).
Proof. apply initializeHandlers_isUint16, initGrid_isUint16. Qed.

Lemma setUpHandlers_length cfg : length (_setUpHandlers cfg) = cfg.(numCells).
Proof. unfold _setUpHandlers. rewrite initializeHandlers_length. apply initGrid_length. Qed.


End SearchOfInvalidGrid.








(** ** Progress accounting *)

Section CellOrderSize.

Import CandidateSelector.

Lemma skipFront_loop_front fuel grid co : forall cellOffset frontOffset c' f',
  skipFront_loop fuel grid co cellOffset frontOffset = (c', f') ->
  (frontOffset <= f')%nat.
Proof.
  induction fuel as [| fuel IH]; intros cellOffset frontOffset c' f' H;
    cbn [skipFront_loop] in H.
  - injection H as <- <-. lia.
  - destruct (_ && _).
    + destruct (isSingletonOrZero _); apply IH in H; lia.
    + injection H as <- <-. lia.
Qed.

Lemma gather_loop_size fuel grid : forall co cellOffset frontOffset co' f',
  gather_loop fuel grid co cellOffset frontOffset = (co', f') ->
  length co' = length co /\ (frontOffset <= f')%nat.
Proof.
  induction fuel as [| fuel IH]; intros co cellOffset frontOffset co' f' H;
    cbn [gather_loop] in H.
  - injection H as <- <-. split; [reflexivity | lia].
  - destruct (_ <? _)%nat; [|injection H as <- <-; split; [reflexivity | lia]].
    destruct (isSingletonOrZero _); apply IH in H as [Hl Hf].
    + rewrite swap_length in Hl. split; [assumption | lia].
    + split; [assumption | lia].
Qed.

Lemma updateCellOrder_size co d off count grid co' front :
  _updateCellOrder co d off count grid = (co', front) ->
  length co' = length co /\ (d < front)%nat.
Proof.
  unfold _updateCellOrder. intros H.
  destruct (1 <? count).
  - injection H as <- <-. rewrite swap_length. split; [reflexivity | lia].
  - destruct (skipFront_loop _ grid (swap co off d) (S off) (S d)) as [c2 f2] eqn:E.
    apply skipFront_loop_front in E.
    apply gather_loop_size in H as [Hl Hf]. rewrite swap_length in Hl.
    split; [assumption | lia].
Qed.

Lemma selectBestCandidate_cellOrder cfg bt grid s d isNew off v count s1 :
  _selectBestCandidate cfg bt grid s d isNew = Some (off, v, count, s1) ->
  _cellOrder s1 = _cellOrder s.
Proof.
  unfold _selectBestCandidate. intros H.
  destruct (default None _) as [state|].
  { destruct (indexOf _ _ _); [|discriminate]. now injection H as <- <- <- <-. }
  destruct (isSingletonOrZero _); [now injection H as <- <- <- <-|].
  destruct (_ && _); [|now injection H as <- <- <- <-].
  unfold _findCandidatesByHouse in H.
  destruct (houses_loop _ _ _ _ _ _) as [[best acc']|]; [|discriminate].
  destruct (Qle_bool _ _).
  - destruct (indexOf _ _ _); [|discriminate]. now injection H as <- <- <- <-.
  - now injection H as <- <- <- <-.
Qed.

(** The cells [selectNextCandidate] answers: at least one, and none
    beyond the end of the cell order, whose length it keeps. *)
Lemma selectNextCandidate_size cfg bt s d grid st isNew nextCells v count s' :
  selectNextCandidate cfg bt s d grid st isNew = Some (nextCells, v, count, s') ->
  (d < length (_cellOrder s))%nat ->
  length (_cellOrder s') = length (_cellOrder s) /\
  (1 <= length nextCells)%nat /\ (d + length nextCells <= length (_cellOrder s))%nat.
Proof.
  unfold selectNextCandidate. intros H Hd.
  destruct (_selectBestCandidate cfg bt grid s d isNew)
    as [[[[off v1] count1] s1]|] eqn:Hbest; [|discriminate].
  apply selectBestCandidate_cellOrder in Hbest.
  match type of H with
  | match ?x with _ => _ end = _ =>
      assert (Hadj : forall off2 v2 count2 s2,
                 x = Some (off2, v2, count2, s2) -> _cellOrder s2 = _cellOrder s1);
        [| destruct x as [[[[off2 v2] count2] s2]|] eqn:Hx; [|discriminate] ]
  end.
  { intros off2 v2 count2 s2 Hx. destruct st as [st|].
    - destruct (_adjustForStepState _ _ _ _ _ _) as [[[o' v'] adj]|]; [|discriminate].
      destruct adj; now injection Hx as <- <- <- <-.
    - now injection Hx as <- <- <- <-. }
  specialize (Hadj _ _ _ _ eq_refl).
  destruct (_updateCellOrder _ _ _ _ _) as [co' front] eqn:Hupd.
  injection H as <- <- <- <-.
  apply updateCellOrder_size in Hupd as [Hl Hf].
  rewrite Hadj, Hbest in Hl. cbn [_cellOrder with_cellOrder].
  rewrite length_take, length_drop, Hl. repeat split; lia.
Qed.

End CellOrderSize.

Section Sums.

Import ProgressSpec.

Lemma sumQ_app l1 l2 : (sumQ (l1 ++ l2) == sumQ l1 + sumQ l2)%Q.
Proof.
  induction l1 as [| x l1 IH]; cbn [sumQ fold_right app].
  - fold (sumQ l2). ring.
  - fold (sumQ (l1 ++ l2)). fold (sumQ l1). rewrite IH. ring.
Qed.

Lemma sumQ_take_S (l : list Q) k x :
  l !! k = Some x -> (sumQ (take (S k) l) == sumQ (take k l) + x)%Q.
Proof.
  intros Hx. rewrite (take_S_r _ _ _ Hx), sumQ_app. cbn [sumQ fold_right]. ring.
Qed.

Lemma take_insert_beyond (l : list Q) k r x : (k <= r)%nat -> take k (<[r := x]> l) = take k l.
Proof.
  revert k r. induction l as [| y l IH]; intros k r Hle; [now destruct k|].
  destruct k as [| k]; [reflexivity|].
  destruct r as [| r]; [lia|]. cbn. f_equal. apply IH. lia.
Qed.

End Sums.

Section Conservation.

Import InternalSolver ProgressSpec.

Variable cfg : Config.
Hypothesis Hn16 : Z.of_nat cfg.(numCells) < 2 ^ 16.

Lemma cellDepthAt_push s i (d : nat) :
  (i < length s.(_recStack))%nat -> (d <= cfg.(numCells))%nat ->
  cellDepthAt (set_recStack (<[i := JS.toUint16 (Z.of_nat d)]> s.(_recStack)) s) i = d.
Proof.
  intros Hi Hd. unfold cellDepthAt. cbn [_recStack set_recStack].
  rewrite list_lookup_insert_eq by assumption. cbn.
  rewrite toUint16_small by (unfold isUint16; lia). apply Nat2Z.id.
Qed.

Lemma cellDepthAt_other s i j v :
  i <> j -> cellDepthAt (set_recStack (<[i := v]> s.(_recStack)) s) j = cellDepthAt s j.
Proof.
  intros Hij. unfold cellDepthAt. cbn [_recStack set_recStack].
  now rewrite list_lookup_insert_ne.
Qed.

(** The end of a pass leads to the head of the loop. *)
Lemma finishPass_head s it p s' it' :
  inPass cfg s it p -> finishPass cfg s it p = (s', it') -> atLoopHead cfg s' it'.
Proof.
  intros [Hsz Hnew Hfr Hnext Htot] H. unfold finishPass in H.
  destruct (p_hasContradiction p).
  { injection H as <- <-. constructor.
    - assumption.
    - rewrite Hnew. discriminate.
    - intros i Hi. specialize (Hfr i Hi). lia.
    - rewrite Hnew. intros i Hi. apply Hfr. lia.
    - rewrite Hnew, Nat.sub_0_r. exact Htot. }
  destruct (match _uninterestingValues s with Some _ => _ | None => _ end).
  { injection H as <- <-. constructor.
    - destruct Hsz. constructor; assumption.
    - rewrite Hnew. discriminate.
    - intros i Hi. specialize (Hfr i Hi). unfold cellDepthAt in *. cbn. lia.
    - rewrite Hnew. intros i Hi. unfold cellDepthAt. cbn. apply Hfr. lia.
    - rewrite Hnew, Nat.sub_0_r. cbn. unfold remaining in *. cbn.
      lra. }
  injection H as <- <-.
  assert (HR : (recDepth it < length (_recStack s))%nat).
  { rewrite (sized_recStack _ _ Hsz). lia. }
  constructor.
  - destruct Hsz. constructor; cbn; [rewrite length_insert| |]; assumption.
  - cbn. lia.
  - cbn [recDepth seti_isNewNode seti_recDepth]. intros i Hi.
    destruct (decide (i = recDepth it)) as [-> | Hne].
    + rewrite cellDepthAt_push by (assumption || lia). lia.
    + rewrite cellDepthAt_other by congruence.
      assert (Hi' : (i < recDepth it)%nat) by lia. specialize (Hfr i Hi'). lia.
  - cbn [recDepth isNewNode seti_isNewNode seti_recDepth]. intros i Hi.
    rewrite cellDepthAt_other by lia. apply Hfr. lia.
  - cbn [recDepth isNewNode seti_isNewNode seti_recDepth progressDelta droppedProgress
         counters set_recStack].
    replace (S (recDepth it) - 1)%nat with (recDepth it) by lia.
    unfold remaining in *. cbn [_progressRemainingStack set_recStack]. exact Htot.
Qed.

(** The middle of a pass. *)
Lemma afterEnforce_invariant s it p :
  inPass cfg s it p ->
  match afterEnforce cfg s it p with
  | Continue s' it' => atLoopHead cfg s' it'
  | Suspend s' it' (Yielded _) => pc it' = AtStepYield p /\ inPass cfg s' it' p
  | Suspend _ _ Returned => False
  | Suspend _ _ (Threw _) => True
  end.
Proof.
  intros Hmid. unfold afterEnforce.
  destruct (_ && _); [exact I|].
  destruct (yieldEveryStep it).
  - split; [reflexivity|]. destruct Hmid as [Hsz Hnew Hfr Hnext Htot].
    constructor; try assumption. destruct Hsz. constructor; assumption.
  - destruct (finishPass cfg s it p) as [s' it'] eqn:Hf.
    eapply finishPass_head; eassumption.
Qed.

(** What [branch] leaves as it is. *)
Lemma branch_frames s R cell value count :
  let s' := fst (branch s R cell value count) in
  snd (branch s R cell value count) = (if count =? 1 then R else S R) /\
  _recStack s' = _recStack s /\
  _progressRemainingStack s' = _progressRemainingStack s /\
  _candidateSelector s' = _candidateSelector s /\
  progressRatio (counters s') = progressRatio (counters s) /\
  branchesIgnored (counters s') = branchesIgnored (counters s) /\
  _backtrackTriggers s' = _backtrackTriggers s.
Proof. unfold branch. destruct (count =? 1); repeat split. Qed.

Lemma Qdiv_one (x : Q) : (x / inject_Z 1 == x)%Q.
Proof. change (inject_Z 1) with 1%Q. field. Qed.

(** One pass of the loop keeps the account. *)
Lemma pass_invariant fuel s it res :
  atLoopHead cfg s it -> recDepth it <> 0%nat ->
  pass fuel cfg s it = Some res ->
  match res with
  | Continue s' it' => atLoopHead cfg s' it'
  | Suspend s' it' (Yielded _) => invariant cfg s' it'
  | Suspend _ _ Returned => False
  | Suspend _ _ (Threw _) => True
  end.
Proof.
  intros [Hsz Hnew Hfr Hold Htot] HR H. unfold pass in H.
  set (r := (recDepth it - 1)%nat) in *.
  fold (cellDepthAt s r) in H.
  set (d := cellDepthAt s r) in *.
  assert (Hr : (r < recDepth it)%nat) by lia.
  pose proof (Hfr r Hr) as Hd. fold d in Hd.
  pose proof (sized_recStack _ _ Hsz) as HlenRec.
  pose proof (sized_progress _ _ Hsz) as HlenStack.
  pose proof (sized_cellOrder _ _ Hsz) as HlenOrder.
  assert (Hframes : forall i, (i < r)%nat -> (i <= cellDepthAt s i < numCells cfg)%nat).
  { intros i Hi. split; [apply Hfr; lia|]. apply Hold. destruct (isNewNode it); lia. }
  destruct (isNewNode it && (d =? numCells cfg)%nat) eqn:Hsol.
  { injection H as <-. unfold invariant. cbn [pc seti_pc].
    apply andb_prop in Hsol as [HN _]. rewrite HN in Htot.
    constructor.
    - destruct Hsz. constructor; assumption.
    - discriminate.
    - cbn [recDepth seti_pc seti_isNewNode seti_recDepth]. intros i Hi.
      specialize (Hframes i Hi). unfold cellDepthAt in *. cbn. lia.
    - cbn [recDepth isNewNode seti_pc seti_isNewNode seti_recDepth]. intros i Hi.
      assert (Hi' : (i < r)%nat) by lia.
      specialize (Hframes i Hi'). unfold cellDepthAt in *. cbn. lia.
    - cbn [recDepth isNewNode seti_pc seti_isNewNode seti_recDepth progressDelta
           droppedProgress]. rewrite Nat.sub_0_r.
      unfold remaining in *. cbn. fold r in Htot. lra. }
  assert (Hdn : (d < numCells cfg)%nat).
  { destruct (isNewNode it) eqn:HN; cbn [andb] in Hsol.
    - apply Nat.eqb_neq in Hsol. lia.
    - apply Hold. lia. }
  assert (Hrn : (r < numCells cfg)%nat) by lia.
  set (s1 := if isNewNode it then _ else s) in H.
  assert (Hs1 : _recStack s1 = _recStack s /\
                _candidateSelector s1 = _candidateSelector s /\
                progressRatio (counters s1) = progressRatio (counters s) /\
                branchesIgnored (counters s1) = branchesIgnored (counters s) /\
                length (_progressRemainingStack s1) = S (numCells cfg)).
  { unfold s1. destruct (isNewNode it); repeat split; try assumption.
    cbn. now rewrite length_insert. }
  destruct Hs1 as (Hrec1 & Hsel1 & Hratio1 & Hign1 & Hlen1).
  set (stack1 := _progressRemainingStack s1) in *.
  set (rem := default 0%Q (stack1 !! r)).
  assert (Hsum1 : (progressRatio (counters s) + branchesIgnored (counters s)
                   + sumQ (take r stack1) + rem + droppedProgress it == 1)%Q).
  { unfold rem, stack1, s1. destruct (isNewNode it) eqn:HN.
    - cbn [_progressRemainingStack set_counters set_progressRemainingStack].
      rewrite take_insert_beyond by lia.
      rewrite list_lookup_insert_eq by lia. cbn [default from_option id].
      unfold remaining in Htot. fold r in Htot. lra.
    - unfold remaining in Htot. rewrite Nat.sub_0_r in Htot.
      replace (recDepth it) with (S r) in Htot by lia.
      destruct (lookup_lt_is_Some_2 (_progressRemainingStack s) r) as [x Hx]; [lia|].
      rewrite Hx. cbn [default from_option id].
      rewrite (sumQ_take_S _ _ _ Hx) in Htot. lra. }
  destruct (CandidateSelector.selectNextCandidate _ _ _ _ _ _ _)
    as [[[[nextCells value] count] sel']|] eqn:Hsel; [|discriminate].
  apply selectNextCandidate_size in Hsel; [|rewrite Hsel1; lia].
  rewrite Hsel1, HlenOrder in Hsel. destruct Hsel as (HlenOrder' & Hnext1 & Hnext2).
  set (s2 := set_candidateSelector sel' s1) in H.
  destruct (count =? 0) eqn:Hc0.
  { injection H as <-. constructor.
    - constructor; cbn; [now rewrite Hrec1 | assumption | assumption].
    - discriminate.
    - cbn [recDepth seti_droppedProgress seti_isNewNode seti_recDepth]. intros i Hi.
      specialize (Hframes i Hi). unfold cellDepthAt in *. cbn. rewrite Hrec1. lia.
    - cbn [recDepth isNewNode seti_droppedProgress seti_isNewNode seti_recDepth].
      intros i Hi. assert (Hi' : (i < r)%nat) by lia.
      specialize (Hframes i Hi'). unfold cellDepthAt in *. cbn. rewrite Hrec1. lia.
    - cbn [recDepth isNewNode seti_droppedProgress seti_isNewNode seti_recDepth
           progressDelta droppedProgress]. rewrite Nat.sub_0_r.
      unfold remaining. cbn. fold stack1. fold rem. rewrite Hratio1, Hign1. lra. }
  set (s3 := if yieldEveryStep it then _ else s2) in H.
  assert (Hs3 : _progressRemainingStack s3 = stack1 /\
                _recStack s3 = _recStack s /\
                _candidateSelector s3 = sel' /\
                progressRatio (counters s3) = progressRatio (counters s) /\
                branchesIgnored (counters s3) = branchesIgnored (counters s)).
  { unfold s3. destruct (yieldEveryStep it); [destruct (_stepState s2)|];
      repeat split; assumption. }
  destruct Hs3 as (Hstack3 & Hrec3 & Hsel3 & Hratio3 & Hign3).
  rewrite Hstack3 in H. fold rem in H.
  set (delta := (rem / inject_Z count)%Q) in H.
  set (s4 := set_counters _ (set_progressRemainingStack _ s3)) in H.
  set (iter1 := iterationCounterForUpdates it + 1) in H.
  set (decay := JS.and iter1 _ =? 0) in H.
  set (s5 := if decay then _ else s4) in H.
  set (cell := default 0%nat (nextCells !! 0%nat)) in H.
  set (stack4 := <[r := (rem - delta)%Q]> stack1).
  assert (Hs5 : _progressRemainingStack s5 = stack4 /\
                _recStack s5 = _recStack s /\
                _candidateSelector s5 = sel' /\
                progressRatio (counters s5) = progressRatio (counters s) /\
                branchesIgnored (counters s5) = branchesIgnored (counters s)).
  { unfold s5. destruct decay; repeat split; assumption. }
  destruct Hs5 as (Hstack5 & Hrec5 & Hsel5 & Hratio5 & Hign5).
  pose proof (branch_frames s5 r cell value count) as Hbf.
  destruct (branch s5 r cell value count) as [s6 R'] eqn:Hbr.
  cbn [fst snd] in Hbf.
  destruct Hbf as (HR' & Hrec6 & Hstack6 & Hsel6 & Hratio6 & Hign6 & _).
  destruct (HandlerAccumulator.clear _) as [acc0|]; [|discriminate].
  destruct (_enforceConstraints _ _ _ _ _ _) as [[[[ok grid7] acc3] processed]|];
    [|discriminate].
  set (s7 := set_counters _ (set_handlerAccumulator acc3 _)) in H.
  set (nextDepth := (d + length nextCells)%nat) in H.
  set (p := {| p_cellDepth := d; p_nextDepth := nextDepth; p_cell := cell;
               p_value := value; p_hasContradiction := _ |}) in H.
  assert (Hmk : forall sM itM,
             length (_candidateSelector sM).(CandidateSelector._cellOrder) = numCells cfg ->
             isNewNode itM = false -> recDepth itM = R' ->
             _recStack sM = _recStack s -> _progressRemainingStack sM = stack4 ->
             droppedProgress itM = droppedProgress it -> progressDelta itM = delta ->
             branchesIgnored (counters sM) = branchesIgnored (counters s) ->
             progressRatio (counters sM)
             = (if negb ok then (progressRatio (counters s) + delta)%Q
                else progressRatio (counters s)) ->
             inPass cfg sM itM p).
  { intros sM itM HMorder HMnew HMdepth HMrec HMstack HMdropped HMdelta HMign HMratio.
    assert (HR'le : (R' <= S r)%nat) by (rewrite HR'; destruct (count =? 1); lia).
    constructor.
    - constructor; [now rewrite HMrec | | assumption].
      rewrite HMstack. unfold stack4. now rewrite length_insert.
    - assumption.
    - rewrite HMdepth. intros i Hi. unfold cellDepthAt. rewrite HMrec.
      fold (cellDepthAt s i).
      destruct (decide (i = r)) as [-> | Hne]; [fold d; lia|].
      apply Hframes. lia.
    - rewrite HMdepth. unfold p, nextDepth. cbn [p_nextDepth]. lia.
    - rewrite HMdepth, HMdropped, HMdelta, HMign, HMratio.
      unfold remaining. rewrite HMstack. unfold p. cbn [p_hasContradiction].
      rewrite HR'.
      destruct (count =? 1) eqn:Hc1.
      + apply Z.eqb_eq in Hc1.
        assert (Hdelta : (delta == rem)%Q).
        { unfold delta. rewrite Hc1. apply Qdiv_one. }
        unfold stack4. rewrite take_insert_beyond by lia.
        destruct (negb ok); lra.
      + assert (Hl4 : stack4 !! r = Some (rem - delta)%Q).
        { unfold stack4. apply list_lookup_insert_eq. lia. }
        rewrite (sumQ_take_S _ _ _ Hl4).
        unfold stack4 at 1. rewrite take_insert_beyond by lia.
        destruct (negb ok); lra. }
  assert (Hafter : forall sM itM,
             inPass cfg sM itM p ->
             Some (afterEnforce cfg sM itM p) = Some res ->
             match res with
             | Continue s' it' => atLoopHead cfg s' it'
             | Suspend s' it' (Yielded _) => invariant cfg s' it'
             | Suspend _ _ Returned => False
             | Suspend _ _ (Threw _) => True
             end).
  { intros sM itM HM Hres. injection Hres as <-.
    pose proof (afterEnforce_invariant sM itM p HM) as Ha.
    destruct (afterEnforce cfg sM itM p) as [s' it' | s' it' [e | | msg]]; try exact Ha.
    destruct Ha as [Hpc Ha]. unfold invariant. now rewrite Hpc. }
  assert (Hl7 : length (_candidateSelector s6).(CandidateSelector._cellOrder)
                = numCells cfg).
  { now rewrite Hsel6, Hsel5. }
  assert (Hs7 : _recStack s7 = _recStack s /\ _progressRemainingStack s7 = stack4 /\
                branchesIgnored (counters s7) = branchesIgnored (counters s) /\
                progressRatio (counters s7) = progressRatio (counters s)).
  { unfold s7. cbn. rewrite Hrec6, Hrec5, Hstack6, Hstack5, Hign6, Hign5, Hratio6, Hratio5.
    repeat split. }
  destruct Hs7 as (Hrec7 & Hstack7 & Hign7 & Hratio7).
  destruct ok; cbn [negb] in H, Hmk.
  - refine (Hafter _ _ _ H).
    apply Hmk; try reflexivity; assumption.
  - destruct (negb (yieldOnContradiction it =? 0) && _).
    + injection H as <-. unfold invariant. cbn [pc seti_pc].
      apply Hmk; try reflexivity; try assumption.
      unfold s7.
      cbn [counters set_backtrackTriggers set_counters progressRatio setc_backtracks
           setc_progressRatio setc_constraintsProcessed set_handlerAccumulator].
      now rewrite Hratio6, Hratio5.
    + refine (Hafter _ _ _ H).
      apply Hmk; try reflexivity; try assumption.
      unfold s7.
      cbn [counters set_backtrackTriggers set_counters progressRatio setc_backtracks
           setc_progressRatio setc_constraintsProcessed set_handlerAccumulator].
      now rewrite Hratio6, Hratio5.
Qed.

Lemma loop_invariant fuel : forall s it s' it' r,
  atLoopHead cfg s it ->
  loop fuel cfg s it = Some (s', it', r) ->
  (forall msg, r <> Threw msg) ->
  invariant cfg s' it'.
Proof.
  induction fuel as [| fuel IH]; intros s it s' it' r Hhead H Hr; cbn [loop] in H;
    [discriminate|].
  destruct (Nat.eqb_spec (recDepth it) 0) as [H0 | Hne].
  { injection H as <- <- <-. unfold invariant. cbn [pc seti_pc].
    destruct Hhead as [Hsz Hnew Hfr Hold Htot].
    split; [|exact H0]. constructor; try assumption.
    destruct Hsz. constructor; assumption. }
  destruct (pass fuel cfg s it) as [res|] eqn:Hp; [|discriminate].
  pose proof (pass_invariant fuel s it res Hhead Hne Hp) as Hinv.
  destruct res as [s1 it1 | s1 it1 r1].
  - eapply IH; eassumption.
  - injection H as <- <- <-. destruct r1 as [e | | msg].
    + exact Hinv.
    + contradiction.
    + now destruct (Hr msg).
Qed.

Lemma enterLoop_invariant fuel s it s' it' r :
  beforeLoop cfg s it ->
  enterLoop fuel cfg s it = Some (s', it', r) ->
  (forall msg, r <> Threw msg) ->
  invariant cfg s' it'.
Proof.
  intros [Hsz Hratio Hign Hdrop Hdepth] H Hr. unfold enterLoop in H.
  refine (loop_invariant fuel _ _ _ _ _ _ H Hr).
  pose proof (sized_recStack _ _ Hsz) as HlenRec.
  constructor.
  - destruct Hsz. constructor; cbn; [now rewrite length_insert | assumption | assumption].
  - cbn. lia.
  - cbn [recDepth seti_lastContradictionCell seti_progressDelta seti_isNewNode
         seti_recDepth]. intros i Hi. assert (i = 0%nat) as -> by lia.
    unfold cellDepthAt. cbn [_recStack set_recStack].
    rewrite list_lookup_insert_eq by lia. cbn. lia.
  - cbn. intros i Hi. lia.
  - cbn [recDepth isNewNode progressDelta droppedProgress seti_lastContradictionCell
         seti_progressDelta seti_isNewNode seti_recDepth counters set_recStack].
    unfold remaining. cbn [Nat.sub]. rewrite take_0. cbn [sumQ fold_right]. lra.
Qed.

(** A call of [next()] that does not throw keeps the account. *)
Lemma next_invariant fuel s it s' it' r :
  invariant cfg s it ->
  next fuel cfg s it = Some (s', it', r) ->
  (forall msg, r <> Threw msg) ->
  invariant cfg s' it'.
Proof.
  unfold invariant at 1, next. intros Hinv H Hr.
  destruct (pc it) as [| | | p | p |] eqn:Hpc.
  - unfold start in H. destruct (negb (_atStart s)).
    { injection H as <- <- <-. now destruct (Hr notInitialMsg). }
    destruct (HandlerAccumulator.clear _) as [acc0|]; [|discriminate].
    destruct (_enforceConstraints _ _ _ _ _ _) as [[[[ok grid] acc2] processed]|];
      [|discriminate].
    destruct Hinv as [Hsz Hratio Hign Hdrop Hdepth].
    destruct (yieldEveryStep it).
    + injection H as <- <- <-. unfold invariant. cbn [pc seti_pc].
      unfold setStepState_empty.
      constructor.
      * destruct Hsz. destruct (_stepState _); constructor; assumption.
      * destruct (_stepState _); cbn; reflexivity.
      * destruct (_stepState _); cbn; assumption.
      * assumption.
      * assumption.
    + refine (enterLoop_invariant fuel _ _ _ _ _ _ H Hr).
      constructor.
      * destruct Hsz. constructor; assumption.
      * reflexivity.
      * assumption.
      * assumption.
      * assumption.
  - destruct (staleIterator s it).
    { injection H as <- <- <-. now destruct (Hr invalidMsg). }
    refine (enterLoop_invariant fuel _ _ _ _ _ _ H Hr).
    destruct Hinv as [Hsz Hratio Hign Hdrop Hdepth].
    destruct (_stepState s); constructor; try assumption;
      destruct Hsz; constructor; assumption.
  - destruct (staleIterator s it).
    { injection H as <- <- <-. now destruct (Hr invalidMsg). }
    eapply loop_invariant; eassumption.
  - pose proof (afterEnforce_invariant s it p Hinv) as Ha.
    destruct (afterEnforce cfg s it p) as [s1 it1 | s1 it1 r1].
    + eapply loop_invariant; eassumption.
    + injection H as <- <- <-. destruct r1 as [e | | msg].
      * destruct Ha as [Hpc' Ha]. unfold invariant. now rewrite Hpc'.
      * contradiction.
      * now destruct (Hr msg).
  - destruct (staleIterator s it).
    { injection H as <- <- <-. now destruct (Hr invalidMsg). }
    match type of H with
    | context [finishPass cfg ?s1 it p] =>
        assert (Hmid : inPass cfg s1 it p);
          [| destruct (finishPass cfg s1 it p) as [s2 it2] eqn:Hf ]
    end.
    { destruct Hinv as [Hsz Hnew Hfr Hnext Htot].
      destruct (_stepState s); constructor; try assumption;
        destruct Hsz; constructor; assumption. }
    pose proof (finishPass_head _ _ _ _ _ Hmid Hf) as Hhead.
    eapply loop_invariant; eassumption.
  - injection H as <- <- <-. unfold invariant. now rewrite Hpc.
Qed.

Lemma runState_invariant s0 yw s it :
  sized cfg s0 ->
  (progressRatio (counters s0) == 0)%Q -> (branchesIgnored (counters s0) == 0)%Q ->
  runState cfg s0 yw s it -> invariant cfg s it.
Proof.
  intros Hsz Hratio Hign Hrun.
  induction Hrun as [| s it fuel s' it' r Hrun IH Hnext Hr | s it v Hrun IH | s it v Hrun IH].
  - unfold invariant. cbn.
    constructor; [assumption | assumption | assumption | reflexivity | reflexivity].
  - eapply next_invariant; eassumption.
  - unfold invariant in *. destruct (pc it).
    + destruct IH as [[] ? ? ? ?]. constructor; [constructor|..]; assumption.
    + destruct IH as [[] ? ? ? ?]. constructor; [constructor|..]; assumption.
    + destruct IH as [[] ? ? ? ?]. constructor; [constructor|..]; assumption.
    + destruct IH as [[] ? ? ? ?]. constructor; [constructor|..]; assumption.
    + destruct IH as [[] ? ? ? ?]. constructor; [constructor|..]; assumption.
    + destruct IH as [[[] ? ? ? ?] ?]. split; [constructor; [constructor|..]|]; assumption.
  - unfold invariant in *. destruct (pc it).
    + destruct IH as [[] ? ? ? ?]. constructor; [constructor|..]; assumption.
    + destruct IH as [[] ? ? ? ?]. constructor; [constructor|..]; assumption.
    + destruct IH as [[] ? ? ? ?]. constructor; [constructor|..]; assumption.
    + destruct IH as [[] ? ? ? ?]. constructor; [constructor|..]; assumption.
    + destruct IH as [[] ? ? ? ?]. constructor; [constructor|..]; assumption.
    + destruct IH as [[[] ? ? ? ?] ?]. split; [constructor; [constructor|..]|]; assumption.
Qed.

Lemma invariant_accounted s it :
  invariant cfg s it ->
  (accounted s it + droppedProgress it == 1)%Q /\
  (pc it = Finished ->
   (progressRatio (counters s) + branchesIgnored (counters s) + droppedProgress it == 1)%Q).
Proof.
  unfold invariant, accounted, liveFrames, inFlight. intros Hinv.
  destruct (pc it) as [| | | p | p |].
  - destruct Hinv as [_ Hratio Hign Hdrop _]. split; [|discriminate].
    unfold remaining. rewrite take_0. cbn [sumQ fold_right]. lra.
  - destruct Hinv as [_ Hratio Hign Hdrop _]. split; [|discriminate].
    unfold remaining. rewrite take_0. cbn [sumQ fold_right]. lra.
  - destruct Hinv as [_ _ _ _ Htot]. split; [|discriminate].
    destruct (isNewNode it); [|rewrite Nat.sub_0_r in Htot]; exact Htot.
  - destruct Hinv as [_ _ _ _ Htot]. split; [exact Htot | discriminate].
  - destruct Hinv as [_ _ _ _ Htot]. split; [exact Htot | discriminate].
  - destruct Hinv as [[_ Hnew _ _ Htot] H0].
    assert (HN : isNewNode it = false).
    { destruct (isNewNode it); [|reflexivity]. specialize (Hnew eq_refl). lia. }
    rewrite HN in Htot |- *. rewrite H0 in Htot |- *.
    unfold remaining in *. cbn [Nat.sub] in *. rewrite take_0 in *.
    cbn [sumQ fold_right] in *. split; [|intros _]; lra.
Qed.

End Conservation.

(** C3 (amended).  In every state of a run that was started with
    [progressRatio] and [branchesIgnored] at 0, the sum of
    [progressRatio], [branchesIgnored], the remaining progress of the
    live frames, the progress in flight and the progress of the frames
    that the loop abandons at [if (count === 0) continue;] is 1, in
    exact arithmetic; when the run has ended, [progressRatio +
    branchesIgnored] is 1 less the abandoned progress. *)
Theorem progress_is_conserved
    (cfg : Config) (s0 : InternalSolver.Solver) (yw : Z)
    (s : InternalSolver.Solver) (it : InternalSolver.Iter) :
  Z.of_nat cfg.(numCells) < 2 ^ 16 ->
  ProgressSpec.sized cfg s0 ->
  (InternalSolver.progressRatio (InternalSolver.counters s0) == 0)%Q ->
  (InternalSolver.branchesIgnored (InternalSolver.counters s0) == 0)%Q ->
  ProgressSpec.runState cfg s0 yw s it ->
  (ProgressSpec.accounted s it + InternalSolver.droppedProgress it == 1)%Q /\
  (InternalSolver.pc it = InternalSolver.Finished ->
   (InternalSolver.progressRatio (InternalSolver.counters s)
    + InternalSolver.branchesIgnored (InternalSolver.counters s)
    + InternalSolver.droppedProgress it == 1)%Q).
Proof.
  intros Hn Hsz Hratio Hign Hrun.
  apply (invariant_accounted cfg).
  eapply runState_invariant; eassumption.
Qed.

Lemma make_sized cfg : ProgressSpec.sized cfg (InternalSolver.make cfg).
Proof.
  constructor; cbn.
  - now rewrite repeat_length.
  - now rewrite repeat_length.
  - now rewrite length_map, length_seq, repeat_length.
Qed.

Lemma progress_is_conserved_witness :
  match Examples.guessFirst with
  | Some (s, it, _) =>
      (ProgressSpec.accounted s it + InternalSolver.droppedProgress it == 1)%Q
  | None => False
  end.
Proof.
  assert (Hn : Z.of_nat Examples.cfgGuess.(numCells) < 2 ^ 16) by (vm_compute; reflexivity).
  assert (Hnext : InternalSolver.next 10 Examples.cfgGuess
                    (InternalSolver.make Examples.cfgGuess) (InternalSolver.run 0)
                  = Examples.guessFirst) by (vm_compute; reflexivity).
  unfold Examples.guessFirst in *.
  refine (proj1 (progress_is_conserved Examples.cfgGuess
                   (InternalSolver.make Examples.cfgGuess) 0 _ _ Hn
                   (make_sized Examples.cfgGuess) (Qeq_refl 0) (Qeq_refl 0) _)).
  eapply ProgressSpec.run_next; [apply ProgressSpec.run_created | exact Hnext |].
  intros msg. discriminate.
Defined.

(** On [cfgInvalidAll], whose initial grid has no candidate at all, the
    run ends with nothing accounted for: the only frame is abandoned at
    [count === 0]. *)
Lemma progress_lost_on_empty_cell :
  exists s it,
    InternalSolver.next 10 Examples.cfgInvalidAll
      (InternalSolver.make Examples.cfgInvalidAll) (InternalSolver.run 0)
    = Some (s, it, InternalSolver.Returned) /\
    InternalSolver.recDepth it = 0%nat /\
    (ProgressSpec.accounted s it == 0)%Q /\
    (InternalSolver.progressRatio (InternalSolver.counters s)
     + InternalSolver.branchesIgnored (InternalSolver.counters s) == 0)%Q.
Proof.
  do 2 eexists. split; [vm_compute; reflexivity|].
  split; [reflexivity|]. split; vm_compute; reflexivity.
Qed.

(** ** validateLayout *)

Section Yields.

Import InternalSolver LayoutSpec.

Lemma finishPass_yieldWhen cfg s it p :
  yieldWhen (snd (finishPass cfg s it p)) = yieldWhen it.
Proof.
  unfold finishPass. destruct (p_hasContradiction p); [reflexivity|].
  destruct (match _uninterestingValues s with Some _ => _ | None => _ end); reflexivity.
Qed.

Lemma afterEnforce_yields cfg s it p :
  yieldEveryStep it = false ->
  match afterEnforce cfg s it p with
  | Continue s' it' => yieldWhen it' = yieldWhen it
  | Suspend s' it' r => exists msg, r = Threw msg
  end.
Proof.
  intros Hy. unfold afterEnforce. rewrite Hy.
  destruct (_ && _); [eauto|].
  pose proof (finishPass_yieldWhen cfg s it p) as H.
  destruct (finishPass cfg s it p) as [s' it']. exact H.
Qed.

Lemma pass_yields fuel cfg s it res :
  yieldEveryStep it = false ->
  pass fuel cfg s it = Some res ->
  match res with
  | Continue s' it' => yieldWhen it' = yieldWhen it
  | Suspend s' it' r => yieldsOf (yieldWhen it) s' r
  end.
Proof.
  intros Hy H. unfold pass in H.
  destruct (isNewNode it && _).
  { injection H as <-. left. reflexivity. }
  destruct (CandidateSelector.selectNextCandidate _ _ _ _ _ _ _)
    as [[[[nextCells value] count] sel']|]; [|discriminate].
  destruct (count =? 0); [injection H as <-; reflexivity|].
  destruct (branch _ _ _ _ _) as [s6 R'].
  destruct (HandlerAccumulator.clear _) as [acc0|]; [|discriminate].
  destruct (_enforceConstraints _ _ _ _ _ _) as [[[[ok grid7] acc3] processed]|];
    [|discriminate].
  assert (Hafter : forall sM itM p,
             yieldWhen itM = yieldWhen it ->
             Some (afterEnforce cfg sM itM p) = Some res ->
             match res with
             | Continue s' it' => yieldWhen it' = yieldWhen it
             | Suspend s' it' r => yieldsOf (yieldWhen it) s' r
             end).
  { intros sM itM p HyM Hres. injection Hres as <-.
    assert (HyM' : yieldEveryStep itM = false).
    { unfold yieldEveryStep in *. now rewrite HyM. }
    pose proof (afterEnforce_yields cfg sM itM p HyM') as Ha.
    destruct (afterEnforce cfg sM itM p) as [s' it' | s' it' r].
    - congruence.
    - destruct Ha as [msg ->]. exact I. }
  destruct ok; cbn [negb] in H.
  - refine (Hafter _ _ _ _ H). reflexivity.
  - destruct (negb (yieldOnContradiction it =? 0) && _) eqn:Hc.
    + injection H as <-. right.
      apply andb_prop in Hc as [Hc1 Hc2].
      apply negb_true_iff, Z.eqb_neq in Hc1. apply Z.eqb_eq in Hc2.
      unfold yieldOnContradiction in Hc1, Hc2.
      destruct (Z.ltb_spec 1 (yieldWhen it)); [|congruence].
      repeat split; assumption.
    + refine (Hafter _ _ _ _ H). reflexivity.
Qed.

Lemma loop_yields cfg fuel : forall s it s' it' r,
  yieldEveryStep it = false ->
  loop fuel cfg s it = Some (s', it', r) ->
  yieldsOf (yieldWhen it) s' r.
Proof.
  induction fuel as [| fuel IH]; intros s it s' it' r Hy H; cbn [loop] in H;
    [discriminate|].
  destruct (recDepth it =? 0)%nat; [injection H as <- <- <-; exact I|].
  destruct (pass fuel cfg s it) as [res|] eqn:Hp; [|discriminate].
  pose proof (pass_yields fuel cfg s it res Hy Hp) as Hres.
  destruct res as [s1 it1 | s1 it1 r1].
  - rewrite <- Hres. refine (IH _ _ _ _ _ _ H).
    unfold yieldEveryStep in *. now rewrite Hres.
  - injection H as <- <- <-. exact Hres.
Qed.


End Yields.

Section Layout.

Import InternalSolver LayoutSpec.


Lemma bestAttempt_nil log : bestAttempt log = None -> log = [].
Proof.
  destruct log as [| a rest]; [reflexivity|]. cbn.
  destruct (bestAttempt rest); [destruct (Qlt_le_dec _ _)|]; discriminate.
Qed.


Lemma allCutOff_log fuel cfg hs s log s' log' :
  allCutOff fuel cfg hs s log s' log' ->
  exists ratios, log' = log ++ zip (map fst hs) ratios /\ length ratios = length hs.
Proof.
  induction 1 as [s log | hi house rest s log s3 it3 e s' log' Hnext Hsol Hcut IH].
  - exists []. split; [now rewrite app_nil_r | reflexivity].
  - destruct IH as (ratios & -> & Hlen).
    exists (progressRatio (counters s3) :: ratios). split; [|cbn; now rewrite Hlen].
    cbn. now rewrite <- app_assoc.
Qed.

End Layout.

Section FillHouse.

Import InternalSolver LayoutSpec.

Let fill (g : list Z) (ic : nat * nat) : list Z :=
  storeCell g (snd ic) (JS.shl 1 (Z.of_nat (fst ic))).

Lemma fill_length l : forall g, length (fold_left fill l g) = length g.
Proof.
  induction l as [| ic l IH]; intros g; [reflexivity|].
  cbn [fold_left]. rewrite IH. apply storeCell_length.
Qed.





End FillHouse.



(** Without house handlers there is no attempt and the attempt log is
    empty: [attemptLog[0][0]] throws. *)
Lemma validateLayout_without_houses cfg fuel s :
  cfg.(houseHandlers) = [] ->
  exists msg, InternalSolver.validateLayout fuel cfg s
              = Some (s, InternalSolver.Exception msg).
Proof.
  intros Hh. unfold InternalSolver.validateLayout. rewrite Hh. cbn. eauto.
Qed.

(** * Further properties of the engine *)

(** ** Propagation *)

Section PropagationNarrows.

Import Contract InternalSolver.

Lemma narrowsTo_length g g' : narrowsTo g g' -> length g' = length g.
Proof. unfold narrowsTo. apply Forall2_length. Qed.

Lemma enforceConstraints_counts cfg complete fuel : forall grid acc n ok g' acc' n',
  _enforceConstraints fuel cfg grid complete acc n = Some (ok, g', acc', n') -> n <= n'.
Proof.
  induction fuel as [| fuel IH]; intros grid acc n ok g' acc' n' Hrun;
    cbn [_enforceConstraints] in Hrun.
  - destruct (HandlerAccumulator.isEmpty acc); [|discriminate].
    injection Hrun as <- <- <- <-. lia.
  - destruct (HandlerAccumulator.isEmpty acc).
    { injection Hrun as <- <- <- <-. lia. }
    destruct (HandlerAccumulator.takeNext acc) as [[h acc1]|]; [|discriminate].
    destruct (handlers cfg !! h) as [c|]; [|discriminate].
    destruct (complete && negb (essential c)).
    { eapply IH; eassumption. }
    destruct (enforceConsistency c grid) as [[okc stores] adds].
    destruct okc.
    + apply IH in Hrun. lia.
    + injection Hrun as <- <- <- <-. lia.
Qed.

End PropagationNarrows.

(** X1.  With handlers that only clear bits, [_enforceConstraints]
    leaves a grid of the same length whose cells hold subsets of the
    candidates they had, so that the number of candidates does not grow;
    [constraintsProcessed] does not decrease. *)
Theorem enforceConstraints_only_narrows
    (cfg : Config) (complete : bool) (fuel : nat) (grid : list Z)
    (acc : HandlerAccumulator.t) (n : Z)
    (ok : bool) (g' : list Z) (acc' : HandlerAccumulator.t) (n' : Z) :
  Forall Contract.wellBehaved cfg.(handlers) ->
  Forall isUint16 grid ->
  InternalSolver._enforceConstraints fuel cfg grid complete acc n = Some (ok, g', acc', n') ->
  Contract.narrowsTo grid g' /\ Forall isUint16 g' /\ length g' = length grid /\
  Contract.popTotal g' <= Contract.popTotal grid /\ n <= n'.
Proof.
  intros Hwb Hg Hrun.
  destruct (enforceConstraints_narrows cfg Hwb complete _ _ _ _ _ _ _ _ Hg Hrun)
    as [Hn Hu].
  split; [assumption|]. split; [assumption|].
  split; [now apply narrowsTo_length|].
  split; [apply (popTotal_narrows _ _ Hn Hg Hu)|].
  eapply enforceConstraints_counts; eassumption.
Qed.

Lemma enforceConstraints_only_narrows_witness :
  exists ok g' acc' n',
    InternalSolver._enforceConstraints 5 Examples.cfgGuess [3; 7] false
      (HandlerAccumulator.addForCell Examples.cfgGuess.(maps) 0 (HandlerAccumulator.make 3)) 0
    = Some (ok, g', acc', n') /\
    Contract.narrowsTo [3; 7] g' /\ 0 <= n'.
Proof.
  assert (Hwb : Forall Contract.wellBehaved Examples.cfgGuess.(handlers)).
  { constructor; [apply given_wellBehaved|].
    constructor; [apply accepting_wellBehaved|].
    constructor; [apply accepting_wellBehaved | constructor]. }
  assert (Hg : Forall isUint16 [3; 7]).
  { constructor; [unfold isUint16; lia|]. constructor; [unfold isUint16; lia | constructor]. }
  destruct (InternalSolver._enforceConstraints 5 Examples.cfgGuess [3; 7] false
              (HandlerAccumulator.addForCell Examples.cfgGuess.(maps) 0
                 (HandlerAccumulator.make 3)) 0)
    as [[[[ok g'] acc'] n']|] eqn:Hrun; [|vm_compute in Hrun; discriminate].
  exists ok, g', acc', n'. split; [reflexivity|].
  destruct (enforceConstraints_only_narrows _ _ _ _ _ _ _ _ _ _ Hwb Hg Hrun)
    as (Hn & _ & _ & _ & Hle).
  split; assumption.
Defined.

(** ** Runs and resets *)

Section Resets.

Import InternalSolver.

Lemma selector_reset_idempotent sel :
  CandidateSelector.reset (CandidateSelector.reset sel) = CandidateSelector.reset sel.
Proof.
  unfold CandidateSelector.reset. cbn.
  now rewrite length_map, length_seq, repeat_length.
Qed.

End Resets.

(** X2.  [reset] is idempotent, it leaves the solver in its initial
    state, and on a solver that is in its initial state it does not
    advance the run counter: the iterators of an unused solver are not
    invalidated by it. *)
Theorem reset_is_idempotent (cfg : Config) (s : InternalSolver.Solver) :
  InternalSolver.reset cfg (InternalSolver.reset cfg s) = InternalSolver.reset cfg s /\
  InternalSolver._atStart (InternalSolver.reset cfg s) = true /\
  InternalSolver.counters (InternalSolver.reset cfg s) = InternalSolver.zeroCounters /\
  InternalSolver._runCounter (InternalSolver.reset cfg s)
  = (if InternalSolver._atStart s then InternalSolver._runCounter s
     else InternalSolver._runCounter s + 1).
Proof.
  unfold InternalSolver.reset, InternalSolver._resetStack. cbn.
  destruct (InternalSolver._atStart s) eqn:Hat; cbn; rewrite ?Hat; cbn;
    rewrite selector_reset_idempotent; repeat split.
Qed.

(** X3.  A run needs the initial state: once the body of a generator
    of [run] has been entered, the first [next()] of any other generator
    of [run] throws and changes nothing, until [reset] is called. *)
Theorem second_run_needs_reset
    (cfg : Config) (fuel : nat) (s : InternalSolver.Solver) (it : InternalSolver.Iter)
    (s' : InternalSolver.Solver) (it' : InternalSolver.Iter) (r : InternalSolver.Result) :
  InternalSolver.pc it = InternalSolver.AtStart ->
  InternalSolver._atStart s = true ->
  InternalSolver.next fuel cfg s it = Some (s', it', r) ->
  (forall fuel2 yw2,
      InternalSolver.next fuel2 cfg s' (InternalSolver.run yw2)
      = Some (s', InternalSolver.seti_pc InternalSolver.Finished (InternalSolver.run yw2),
              InternalSolver.Threw InternalSolver.notInitialMsg)) /\
  InternalSolver._atStart (InternalSolver.reset cfg s') = true.
Proof.
  intros Hpc Hat Hnext. unfold InternalSolver.next in Hnext. rewrite Hpc in Hnext.
  apply start_runCounter in Hnext as (_ & Hat' & _); [|assumption].
  split; [|apply reset_atStart].
  intros fuel2 yw2. unfold InternalSolver.next. cbn [InternalSolver.pc InternalSolver.run].
  unfold InternalSolver.start. now rewrite Hat'.
Qed.

Lemma second_run_needs_reset_witness :
  match Examples.guessFirst with
  | Some (s', _, _) =>
      InternalSolver.next 10 Examples.cfgGuess s' (InternalSolver.run 0)
      = Some (s', InternalSolver.seti_pc InternalSolver.Finished (InternalSolver.run 0),
              InternalSolver.Threw InternalSolver.notInitialMsg)
  | None => False
  end.
Proof.
  assert (Hnext : InternalSolver.next 10 Examples.cfgGuess
                    (InternalSolver.make Examples.cfgGuess) (InternalSolver.run 0)
                  = Examples.guessFirst) by (vm_compute; reflexivity).
  unfold Examples.guessFirst in *.
  exact (proj1 (second_run_needs_reset Examples.cfgGuess 10
                  (InternalSolver.make Examples.cfgGuess) (InternalSolver.run 0)
                  _ _ _ eq_refl eq_refl Hnext) 10%nat 0).
Defined.

(** ** What a run yields *)

Section RunYields.

Import InternalSolver LayoutSpec.

Lemma afterEnforce_keeps_yieldWhen cfg s it p :
  match afterEnforce cfg s it p with
  | Continue _ it' | Suspend _ it' _ => yieldWhen it' = yieldWhen it
  end.
Proof.
  unfold afterEnforce. destruct (_ && _); [reflexivity|].
  destruct (yieldEveryStep it); [reflexivity|].
  pose proof (finishPass_yieldWhen cfg s it p) as H.
  destruct (finishPass cfg s it p). exact H.
Qed.

Lemma pass_keeps_yieldWhen fuel cfg s it res :
  pass fuel cfg s it = Some res ->
  match res with
  | Continue _ it' | Suspend _ it' _ => yieldWhen it' = yieldWhen it
  end.
Proof.
  intros H. unfold pass in H.
  destruct (isNewNode it && _); [now injection H as <-|].
  destruct (CandidateSelector.selectNextCandidate _ _ _ _ _ _ _)
    as [[[[nextCells value] count] sel']|]; [|discriminate].
  destruct (count =? 0); [now injection H as <-|].
  destruct (branch _ _ _ _ _) as [s6 R'].
  destruct (HandlerAccumulator.clear _) as [acc0|]; [|discriminate].
  destruct (_enforceConstraints _ _ _ _ _ _) as [[[[ok grid7] acc3] processed]|];
    [|discriminate].
  assert (Hafter : forall sM itM p,
             yieldWhen itM = yieldWhen it ->
             Some (afterEnforce cfg sM itM p) = Some res ->
             match res with
             | Continue _ it' | Suspend _ it' _ => yieldWhen it' = yieldWhen it
             end).
  { intros sM itM p HyM Hres. injection Hres as <-.
    pose proof (afterEnforce_keeps_yieldWhen cfg sM itM p) as Ha.
    destruct (afterEnforce cfg sM itM p); congruence. }
  destruct ok; cbn [negb] in H.
  - refine (Hafter _ _ _ _ H). reflexivity.
  - destruct (negb (yieldOnContradiction it =? 0) && _).
    + now injection H as <-.
    + refine (Hafter _ _ _ _ H). reflexivity.
Qed.

Lemma loop_keeps_yieldWhen cfg fuel : forall s it s' it' r,
  loop fuel cfg s it = Some (s', it', r) -> yieldWhen it' = yieldWhen it.
Proof.
  induction fuel as [| fuel IH]; intros s it s' it' r H; cbn [loop] in H; [discriminate|].
  destruct (recDepth it =? 0)%nat; [now injection H as <- <- <-|].
  destruct (pass fuel cfg s it) as [res|] eqn:Hp; [|discriminate].
  apply pass_keeps_yieldWhen in Hp.
  destruct res as [s1 it1 | s1 it1 r1].
  - apply IH in H. congruence.
  - now injection H as <- <- <-.
Qed.

Lemma next_keeps_yieldWhen cfg fuel s it s' it' r :
  next fuel cfg s it = Some (s', it', r) -> yieldWhen it' = yieldWhen it.
Proof.
  unfold next. intros H. destruct (pc it) as [| | | p | p |].
  - unfold start in H. destruct (negb (_atStart s)); [now injection H as <- <- <-|].
    destruct (HandlerAccumulator.clear _) as [acc0|]; [|discriminate].
    destruct (_enforceConstraints _ _ _ _ _ _) as [[[[ok grid] acc2] processed]|];
      [|discriminate].
    destruct (yieldEveryStep it); [now injection H as <- <- <-|].
    unfold enterLoop in H. now apply loop_keeps_yieldWhen in H.
  - destruct (staleIterator s it); [now injection H as <- <- <-|].
    unfold enterLoop in H. now apply loop_keeps_yieldWhen in H.
  - destruct (staleIterator s it); [now injection H as <- <- <-|].
    now apply loop_keeps_yieldWhen in H.
  - pose proof (afterEnforce_keeps_yieldWhen cfg s it p) as Ha.
    destruct (afterEnforce cfg s it p) as [s1 it1 | s1 it1 r1].
    + apply loop_keeps_yieldWhen in H. congruence.
    + now injection H as <- <- <-.
  - destruct (staleIterator s it); [now injection H as <- <- <-|].
    match type of H with
    | context [finishPass cfg ?s1 it p] =>
        pose proof (finishPass_yieldWhen cfg s1 it p) as Hf;
          destruct (finishPass cfg s1 it p) as [s2 it2]
    end.
    cbn [snd] in Hf. apply loop_keeps_yieldWhen in H. congruence.
  - now injection H as <- <- <-.
Qed.

Lemma next_yields cfg fuel s it s' it' r :
  yieldWhen it <> YIELD_ON_STEP ->
  next fuel cfg s it = Some (s', it', r) ->
  yieldsOf (yieldWhen it) s' r.
Proof.
  intros Hyw H.
  assert (Hy : yieldEveryStep it = false).
  { unfold yieldEveryStep. now apply Z.eqb_neq. }
  unfold next in H. destruct (pc it) as [| | | p | p |].
  - unfold start in H. destruct (negb (_atStart s)); [injection H as <- <- <-; exact I|].
    destruct (HandlerAccumulator.clear _) as [acc0|]; [|discriminate].
    destruct (_enforceConstraints _ _ _ _ _ _) as [[[[ok grid] acc2] processed]|];
      [|discriminate].
    rewrite Hy in H. unfold enterLoop in H.
    apply loop_yields in H; [exact H | exact Hy].
  - destruct (staleIterator s it); [injection H as <- <- <-; exact I|].
    unfold enterLoop in H. apply loop_yields in H; [exact H | exact Hy].
  - destruct (staleIterator s it); [injection H as <- <- <-; exact I|].
    apply loop_yields in H; [exact H | exact Hy].
  - pose proof (afterEnforce_yields cfg s it p Hy) as Ha.
    destruct (afterEnforce cfg s it p) as [s1 it1 | s1 it1 r1].
    + apply loop_yields in H; [now rewrite Ha in H|].
      unfold yieldEveryStep in *. now rewrite Ha.
    + injection H as <- <- <-. destruct Ha as [msg ->]. exact I.
  - destruct (staleIterator s it); [injection H as <- <- <-; exact I|].
    match type of H with
    | context [finishPass cfg ?s1 it p] =>
        pose proof (finishPass_yieldWhen cfg s1 it p) as Hf;
          destruct (finishPass cfg s1 it p) as [s2 it2]
    end.
    cbn [snd] in Hf. apply loop_yields in H; [now rewrite Hf in H|].
    unfold yieldEveryStep in *. now rewrite Hf.
  - injection H as <- <- <-. exact I.
Qed.

End RunYields.

(** X4.  A generator of [run(yieldWhen)] that does not yield every step
    keeps its mode, and every object it yields is a solution or, when
    [yieldWhen > 1], a contradiction met when the number of backtracks
    is a multiple of [yieldWhen]; a generator of [run()] yields
    solutions only. *)
Theorem run_yields_solutions_or_contradictions
    (cfg : Config) (fuel : nat) (s : InternalSolver.Solver) (it : InternalSolver.Iter)
    (s' : InternalSolver.Solver) (it' : InternalSolver.Iter) (r : InternalSolver.Result) :
  InternalSolver.yieldWhen it <> InternalSolver.YIELD_ON_STEP ->
  InternalSolver.next fuel cfg s it = Some (s', it', r) ->
  InternalSolver.yieldWhen it' = InternalSolver.yieldWhen it /\
  LayoutSpec.yieldsOf (InternalSolver.yieldWhen it) s' r /\
  (InternalSolver.yieldWhen it <= 1 ->
   forall e, r = InternalSolver.Yielded e -> InternalSolver.ev_isSolution e = true).
Proof.
  intros Hyw H. split; [eapply next_keeps_yieldWhen; eassumption|].
  pose proof (next_yields _ _ _ _ _ _ _ Hyw H) as Hy.
  split; [assumption|].
  intros Hle e ->. destruct Hy as [Hs | (_ & _ & Hlt & _)]; [assumption | lia].
Qed.

Lemma run_yields_solutions_or_contradictions_witness :
  match Examples.rejectYield with
  | Some (s', _, r) => LayoutSpec.yieldsOf 2 s' r
  | None => False
  end.
Proof.
  assert (Hnext : InternalSolver.next 10 Examples.cfgReject
                    (InternalSolver.make Examples.cfgReject) (InternalSolver.run 2)
                  = Examples.rejectYield) by (vm_compute; reflexivity).
  assert (Hyw : InternalSolver.yieldWhen (InternalSolver.run 2)
                <> InternalSolver.YIELD_ON_STEP) by discriminate.
  unfold Examples.rejectYield in *.
  exact (proj1 (proj2 (run_yields_solutions_or_contradictions Examples.cfgReject 10
                         (InternalSolver.make Examples.cfgReject) (InternalSolver.run 2)
                         _ _ _ Hyw Hnext))).
Defined.

(** X5.  The search never leaves its stacks: in every state of a run
    the depth of recursion is at most [numCells + 1], every live frame
    holds a cell depth of at most [numCells], and the stacks and the
    cell order keep their sizes. *)
Theorem search_stack_in_bounds
    (cfg : Config) (s0 : InternalSolver.Solver) (yw : Z)
    (s : InternalSolver.Solver) (it : InternalSolver.Iter) :
  Z.of_nat cfg.(numCells) < 2 ^ 16 ->
  ProgressSpec.sized cfg s0 ->
  (InternalSolver.progressRatio (InternalSolver.counters s0) == 0)%Q ->
  (InternalSolver.branchesIgnored (InternalSolver.counters s0) == 0)%Q ->
  ProgressSpec.runState cfg s0 yw s it ->
  ProgressSpec.sized cfg s /\
  (InternalSolver.recDepth it <= S cfg.(numCells))%nat /\
  (forall i, (i < InternalSolver.recDepth it)%nat ->
             (i <= ProgressSpec.cellDepthAt s i <= cfg.(numCells))%nat).
Proof.
  intros Hn Hsz Hratio Hign Hrun.
  pose proof (runState_invariant cfg Hn s0 yw s it Hsz Hratio Hign Hrun) as Hinv.
  unfold ProgressSpec.invariant in Hinv.
  assert (Hhead : ProgressSpec.atLoopHead cfg s it ->
                  ProgressSpec.sized cfg s /\
                  (InternalSolver.recDepth it <= S cfg.(numCells))%nat /\
                  (forall i, (i < InternalSolver.recDepth it)%nat ->
                             (i <= ProgressSpec.cellDepthAt s i <= cfg.(numCells))%nat)).
  { intros [Hs _ Hfr _ _]. split; [assumption|]. split; [|assumption].
    destruct (InternalSolver.recDepth it) as [| R]; [lia|].
    specialize (Hfr R (Nat.lt_succ_diag_r R)). lia. }
  assert (Hmid : forall p, ProgressSpec.inPass cfg s it p ->
                  ProgressSpec.sized cfg s /\
                  (InternalSolver.recDepth it <= S cfg.(numCells))%nat /\
                  (forall i, (i < InternalSolver.recDepth it)%nat ->
                             (i <= ProgressSpec.cellDepthAt s i <= cfg.(numCells))%nat)).
  { intros p [Hs _ Hfr Hnext _]. split; [assumption|]. split; [lia|].
    intros i Hi. specialize (Hfr i Hi). lia. }
  assert (Hpre : ProgressSpec.beforeLoop cfg s it ->
                  ProgressSpec.sized cfg s /\
                  (InternalSolver.recDepth it <= S cfg.(numCells))%nat /\
                  (forall i, (i < InternalSolver.recDepth it)%nat ->
                             (i <= ProgressSpec.cellDepthAt s i <= cfg.(numCells))%nat)).
  { intros [Hs _ _ _ Hd]. rewrite Hd. split; [assumption|]. split; lia. }
  destruct (InternalSolver.pc it); auto.
  - eapply Hmid; eassumption.
  - eapply Hmid; eassumption.
  - destruct Hinv as [Hinv _]. auto.
Qed.

Lemma search_stack_in_bounds_witness :
  match Examples.guessFirst with
  | Some (s, it, _) => (InternalSolver.recDepth it <= 3)%nat
  | None => False
  end.
Proof.
  assert (Hn : Z.of_nat Examples.cfgGuess.(numCells) < 2 ^ 16) by (vm_compute; reflexivity).
  assert (Hnext : InternalSolver.next 10 Examples.cfgGuess
                    (InternalSolver.make Examples.cfgGuess) (InternalSolver.run 0)
                  = Examples.guessFirst) by (vm_compute; reflexivity).
  unfold Examples.guessFirst in *.
  refine (proj1 (proj2 (search_stack_in_bounds Examples.cfgGuess
                   (InternalSolver.make Examples.cfgGuess) 0 _ _ Hn
                   (make_sized Examples.cfgGuess) (Qeq_refl 0) (Qeq_refl 0) _))).
  eapply ProgressSpec.run_next; [apply ProgressSpec.run_created | exact Hnext |].
  intros msg. discriminate.
Defined.

(** ** The union of the solutions *)

Section Union.

Import Contract InternalSolver.

Let orStep (grid : list Z) (vs : list Z) (i : nat) : list Z :=
  storeCell vs i (JS.or (readCell vs i) (readCell grid i)).

Lemma orStep_fold_length grid l : forall vs, length (fold_left (orStep grid) l vs) = length vs.
Proof.
  induction l as [| i l IH]; intros vs; [reflexivity|].
  cbn [fold_left]. rewrite IH. apply storeCell_length.
Qed.

Lemma orStep_fold_other grid l c : forall vs,
  c ∉ l -> readCell (fold_left (orStep grid) l vs) c = readCell vs c.
Proof.
  induction l as [| i l IH]; intros vs Hni; [reflexivity|].
  apply not_elem_of_cons in Hni as [Hne Hni]. cbn [fold_left].
  rewrite IH by assumption. unfold orStep. apply readCell_storeCell_ne. congruence.
Qed.

Lemma orStep_fold_cell grid l c : forall vs,
  NoDup l -> c ∈ l -> (c < length vs)%nat ->
  readCell (fold_left (orStep grid) l vs) c
  = JS.toUint16 (JS.or (readCell vs c) (readCell grid c)).
Proof.
  induction l as [| i l IH]; intros vs Hnd Hin Hc; [now apply elem_of_nil in Hin|].
  apply NoDup_cons in Hnd as [Hni Hnd]. cbn [fold_left].
  apply elem_of_cons in Hin as [<- | Hin].
  - rewrite orStep_fold_other by assumption. unfold orStep.
    now apply readCell_storeCell_eq.
  - assert (Hne : i <> c) by (intros ->; contradiction).
    rewrite IH; [| assumption | assumption | unfold orStep; now rewrite storeCell_length].
    unfold orStep. now rewrite readCell_storeCell_ne.
Qed.

Lemma orInto_length vs grid : length (orInto vs grid) = length vs.
Proof. apply orStep_fold_length. Qed.

(** The cells of [valuesInSolutions] after a solution is recorded. *)
Lemma orInto_cell vs grid c :
  (c < length grid)%nat -> (c < length vs)%nat ->
  readCell (orInto vs grid) c = JS.toUint16 (JS.or (readCell vs c) (readCell grid c)).
Proof.
  intros Hg Hv. unfold orInto. apply (orStep_fold_cell grid).
  - apply NoDup_seq.
  - apply elem_of_seq. lia.
  - assumption.
Qed.

Lemma orInto_cell_uint16 vs grid c :
  Forall isUint16 vs -> Forall isUint16 grid ->
  (c < length grid)%nat -> (c < length vs)%nat ->
  readCell (orInto vs grid) c = Z.lor (readCell vs c) (readCell grid c).
Proof.
  intros Hvs Hgrid Hg Hv. rewrite orInto_cell by assumption.
  pose proof (readCell_isUint16 vs c Hvs) as H1.
  pose proof (readCell_isUint16 grid c Hgrid) as H2.
  rewrite or_uint16 by assumption. apply toUint16_small. now apply lor_isUint16.
Qed.

Lemma orInto_other vs grid c :
  (length grid <= c)%nat -> readCell (orInto vs grid) c = readCell vs c.
Proof.
  intros Hc. unfold orInto. apply (orStep_fold_other grid).
  rewrite elem_of_seq. lia.
Qed.


Lemma list_eq_readCell (l1 l2 : list Z) :
  length l1 = length l2 ->
  (forall c, (c < length l1)%nat -> readCell l1 c = readCell l2 c) ->
  l1 = l2.
Proof.
  intros Hlen Hcells. apply list_eq_same_length with (n := length l1);
    [now symmetry | reflexivity |].
  intros i x y Hi Hx Hy. specialize (Hcells i Hi). unfold readCell in Hcells.
  rewrite Hx, Hy in Hcells. exact Hcells.
Qed.

(** No cell of [grid] has a candidate outside [u]. *)
Lemma hasInterestingSolutions_false cfg grid u c :
  Forall isUint16 grid -> Forall isUint16 u ->
  _hasInterestingSolutions cfg grid u = false ->
  (c < cfg.(numCells))%nat ->
  Z.land (readCell grid c) (readCell u c) = readCell grid c.
Proof.
  intros Hg Hu H Hc. unfold _hasInterestingSolutions in H.
  assert (Hin : In c (seq 0 (numCells cfg))) by (apply in_seq; lia).
  assert (Hz : JS.and (readCell grid c) (JS.not (readCell u c)) = 0).
  { destruct (Z.eqb_spec (JS.and (readCell grid c) (JS.not (readCell u c))) 0) as [E | E];
      [assumption|].
    exfalso.
    assert (Ht : existsb (fun cell =>
                   negb (JS.and (readCell grid cell) (JS.not (readCell u cell)) =? 0))
                   (seq 0 (numCells cfg)) = true).
    { apply existsb_exists. exists c. split; [assumption|].
      apply negb_true_iff. now apply Z.eqb_neq. }
    congruence. }
  rewrite and_not_uint16 in Hz by (now apply readCell_isUint16).
  apply Z.bits_inj'. intros k Hk. rewrite Z.land_spec.
  pose proof (f_equal (fun z => Z.testbit z k) Hz) as Hbit. cbn beta in Hbit.
  rewrite Z.land_spec, Z.lnot_spec, Z.bits_0 in Hbit by assumption.
  destruct (Z.testbit (readCell grid c) k), (Z.testbit (readCell u c) k);
    cbn in *; congruence.
Qed.

End Union.

(** X6.  A branch that [_hasInterestingSolutions] calls uninteresting
    holds nothing new: recording any grid inside it (cell by cell a
    subset of the candidates of the branch) leaves the union of the
    values as it is. *)
Theorem pruned_branch_adds_no_value
    (cfg : Config) (grid u sol : list Z) :
  length u = cfg.(numCells) -> length sol = cfg.(numCells) ->
  Forall isUint16 grid -> Forall isUint16 u ->
  InternalSolver._hasInterestingSolutions cfg grid u = false ->
  Contract.narrowsTo grid sol ->
  InternalSolver.orInto u sol = u.
Proof.
  intros Hlu Hls Hg Hu Hprune Hnarrow.
  assert (Hsol : Forall isUint16 sol).
  { apply Forall_lookup_2. intros i x Hx.
    destruct (Forall2_lookup_l _ _ _ _ _ Hnarrow Hx) as (y & Hy & Hxy).
    rewrite <- Hxy. rewrite Z.land_comm. apply land_isUint16.
    exact (Forall_lookup_1 _ _ _ _ Hg Hy). }
  apply list_eq_readCell; [apply orInto_length|].
  intros c Hc. rewrite orInto_length in Hc.
  rewrite orInto_cell_uint16 by (assumption || lia).
  pose proof (hasInterestingSolutions_false cfg grid u c Hg Hu Hprune ltac:(lia)) as Hsub.
  assert (Hsg : Z.land (readCell sol c) (readCell grid c) = readCell sol c).
  { unfold readCell.
    destruct (sol !! c) as [x|] eqn:Hx; [|reflexivity]. cbn.
    destruct (Forall2_lookup_l _ _ _ _ _ Hnarrow Hx) as (y & Hy & Hxy).
    now rewrite Hy. }
  apply Z.bits_inj'. intros k Hk. rewrite Z.lor_spec.
  pose proof (f_equal (fun z => Z.testbit z k) Hsub) as H1.
  pose proof (f_equal (fun z => Z.testbit z k) Hsg) as H2.
  cbn beta in H1, H2. rewrite Z.land_spec in H1, H2.
  destruct (Z.testbit (readCell sol c) k), (Z.testbit (readCell grid c) k),
    (Z.testbit (readCell u c) k); cbn in *; congruence.
Qed.

Lemma pruned_branch_adds_no_value_witness :
  InternalSolver.orInto [3; 7] [1; 2] = [3; 7].
Proof.
  apply (pruned_branch_adds_no_value Examples.cfgGuess [3; 6] [3; 7] [1; 2]).
  - reflexivity.
  - reflexivity.
  - repeat constructor; unfold isUint16; lia.
  - repeat constructor; unfold isUint16; lia.
  - vm_compute. reflexivity.
  - repeat constructor.
Defined.

(** ** The grids of the search *)

Section Grids.

Import InternalSolver SearchSpec ProgressSpec.

Variable cfg : Config.

(** A grid that is written to the slot [d] of [_grids]: the write has
    an effect only inside the array. *)
Let fits (d : nat) (g : list Z) : Prop :=
  (d < S cfg.(numCells))%nat -> wellFormedGrid cfg g.

Lemma gridAt_fits s d : gridsOK cfg s -> fits d (gridAt s d).
Proof.
  intros [Hlen Hall] Hd. unfold gridAt.
  destruct (lookup_lt_is_Some_2 (_grids s) d) as [g Hg]; [lia|].
  rewrite Hg. cbn. eapply Forall_lookup_1; eassumption.
Qed.

Lemma storeCell_fits d g c v : fits d g -> fits d (storeCell g c v).
Proof.
  intros Hf Hd. destruct (Hf Hd) as [Hl Hu].
  split; [now rewrite storeCell_length | now apply storeCell_isUint16].
Qed.

Lemma fits_le d d' g : (d <= d')%nat -> fits d g -> fits d' g.
Proof. intros Hle Hf Hd. apply Hf. lia. Qed.

Lemma setGrid_gridsOK s d g : gridsOK cfg s -> fits d g -> gridsOK cfg (setGrid d g s).
Proof.
  intros [Hlen Hall] Hf. unfold setGrid, gridsOK. cbn [_grids set_grids].
  rewrite length_insert. split; [assumption|].
  destruct (Nat.lt_ge_cases d (S (numCells cfg))) as [Hlt | Hge].
  - apply Forall_insert; [assumption | now apply Hf].
  - rewrite list_insert_ge by lia. assumption.
Qed.

Lemma enforceConstraints_isUint16 complete fuel : forall grid acc n ok g' acc' n',
  Forall isUint16 grid ->
  _enforceConstraints fuel cfg grid complete acc n = Some (ok, g', acc', n') ->
  Forall isUint16 g'.
Proof.
  induction fuel as [| fuel IH]; intros grid acc n ok g' acc' n' Hg Hrun;
    cbn [_enforceConstraints] in Hrun.
  - destruct (HandlerAccumulator.isEmpty acc); [|discriminate].
    now injection Hrun as <- <- <- <-.
  - destruct (HandlerAccumulator.isEmpty acc).
    { now injection Hrun as <- <- <- <-. }
    destruct (HandlerAccumulator.takeNext acc) as [[h acc1]|]; [|discriminate].
    destruct (handlers cfg !! h) as [c|]; [|discriminate].
    destruct (complete && negb (essential c)).
    { eapply IH; eassumption. }
    destruct (enforceConsistency c grid) as [[okc stores] adds].
    destruct okc.
    + eapply IH; [|eassumption]. now apply applyStores_isUint16.
    + injection Hrun as <- <- <- <-. now apply applyStores_isUint16.
Qed.

Lemma enforceConstraints_fits d complete fuel grid acc n ok g' acc' n' :
  fits d grid ->
  _enforceConstraints fuel cfg grid complete acc n = Some (ok, g', acc', n') ->
  fits d g'.
Proof.
  intros Hf Hrun Hd. destruct (Hf Hd) as [Hl Hu]. split.
  - rewrite (enforceConstraints_length cfg _ _ _ _ _ _ _ _ _ Hrun). exact Hl.
  - eapply enforceConstraints_isUint16; eassumption.
Qed.

Lemma gridsOK_frame s s' : _grids s' = _grids s -> gridsOK cfg s -> gridsOK cfg s'.
Proof. unfold gridsOK. now intros ->. Qed.

Lemma branch_gridsOK s R cell value count :
  gridsOK cfg s ->
  gridsOK cfg (fst (branch s R cell value count)) /\
  (snd (branch s R cell value count) = R \/ snd (branch s R cell value count) = S R).
Proof.
  intros Hok. unfold branch. destruct (count =? 1); cbn [fst snd].
  - split; [|now left]. apply setGrid_gridsOK; [assumption|].
    apply storeCell_fits. now apply gridAt_fits.
  - split; [|now right].
    assert (Hx : fits R (storeCell (gridAt s R) cell (JS.xor (readCell (gridAt s R) cell) value))).
    { apply storeCell_fits. now apply gridAt_fits. }
    assert (Hok1 : gridsOK cfg
              (set_counters (setc_guesses (guesses (counters s) + 1) (counters s))
                 (setGrid (S R)
                    (storeCell (gridAt s R) cell (JS.xor (readCell (gridAt s R) cell) value))
                    (setGrid R
                       (storeCell (gridAt s R) cell
                          (JS.xor (readCell (gridAt s R) cell) value)) s)))).
    { apply (gridsOK_frame _ _ eq_refl).
      apply setGrid_gridsOK; [apply setGrid_gridsOK; assumption|].
      eapply fits_le; [|exact Hx]. lia. }
    apply setGrid_gridsOK; [assumption|].
    apply storeCell_fits. now apply gridAt_fits.
Qed.

Lemma finishPass_gridsOK s it p :
  gridsOK cfg s -> gridsOK cfg (fst (finishPass cfg s it p)).
Proof.
  intros Hok. unfold finishPass. destruct (p_hasContradiction p); [assumption|].
  destruct (match _uninterestingValues s with Some _ => _ | None => _ end); assumption.
Qed.

Lemma afterEnforce_gridsOK s it p :
  gridsOK cfg s ->
  match afterEnforce cfg s it p with
  | Continue s' _ | Suspend s' _ _ => gridsOK cfg s'
  end.
Proof.
  intros Hok. unfold afterEnforce. destruct (_ && _); [assumption|].
  destruct (yieldEveryStep it).
  - apply setGrid_gridsOK; [assumption|]. apply storeCell_fits. now apply gridAt_fits.
  - pose proof (finishPass_gridsOK s it p Hok) as H.
    destruct (finishPass cfg s it p). exact H.
Qed.

Lemma afterEnforce_solutions s it p :
  match afterEnforce cfg s it p with
  | Continue s' _ => solutions (counters s') = solutions (counters s)
  | Suspend s' _ r =>
      solutions (counters s') = solutions (counters s) /\ solutionsIn r = 0 /\
      (forall e, r = Yielded e -> ev_isSolution e = false)
  end.
Proof.
  unfold afterEnforce. destruct (_ && _).
  { split; [reflexivity|]. split; [reflexivity | discriminate]. }
  destruct (yieldEveryStep it).
  { split; [reflexivity|]. split; [reflexivity|]. now intros e [= <-]. }
  unfold finishPass. destruct (p_hasContradiction p); [reflexivity|].
  destruct (match _uninterestingValues s with Some _ => _ | None => _ end); reflexivity.
Qed.

(** A pass keeps the grids well-formed, counts a solution exactly when
    it yields one, and the grid of a solution is a grid of the stack. *)
Lemma pass_grids fuel s it res :
  gridsOK cfg s ->
  pass fuel cfg s it = Some res ->
  match res with
  | Continue s' _ =>
      gridsOK cfg s' /\ solutions (counters s') = solutions (counters s)
  | Suspend s' _ r =>
      gridsOK cfg s' /\
      solutions (counters s') = solutions (counters s) + solutionsIn r /\
      (forall e, r = Yielded e -> ev_isSolution e = true ->
                 ev_grid e = gridAt s (recDepth it - 1))
  end.
Proof.
  intros Hok H. unfold pass in H.
  destruct (isNewNode it && _).
  { injection H as <-. split; [assumption|]. split; [reflexivity|].
    intros e [= <-] _. reflexivity. }
  set (s1 := if isNewNode it then _ else s) in H.
  assert (Hs1 : gridsOK cfg s1 /\ solutions (counters s1) = solutions (counters s)).
  { unfold s1. destruct (isNewNode it); split; (assumption || reflexivity). }
  destruct Hs1 as [Hok1 Hsol1].
  destruct (CandidateSelector.selectNextCandidate _ _ _ _ _ _ _)
    as [[[[nextCells value] count] sel']|]; [|discriminate].
  destruct (count =? 0).
  { injection H as <-. split; [exact Hok1 | exact Hsol1]. }
  set (s3 := if yieldEveryStep it then _ else set_candidateSelector sel' s1) in H.
  assert (Hs3 : gridsOK cfg s3 /\ solutions (counters s3) = solutions (counters s)).
  { unfold s3. destruct (yieldEveryStep it); [destruct (_stepState _)|];
      split; (exact Hok1 || exact Hsol1). }
  destruct Hs3 as [Hok3 Hsol3].
  match type of H with
  | context [branch ?a ?b ?c ?d ?e] =>
      assert (Hs5 : gridsOK cfg a /\ solutions (counters a) = solutions (counters s));
        [| pose proof (branch_gridsOK a b c d e (proj1 Hs5)) as [Hok6 HR'];
           assert (Hsol6 : solutions (counters (fst (branch a b c d e)))
                           = solutions (counters s));
           [| destruct (branch a b c d e) as [s6 R'] eqn:Hbr ] ]
  end.
  { destruct (JS.and _ _ =? 0); split; (exact Hok3 || exact Hsol3). }
  { unfold branch. destruct (count =? 1); cbn; apply Hs5. }
  cbn [fst snd] in Hok6, HR', Hsol6.
  destruct (HandlerAccumulator.clear _) as [acc0|]; [|discriminate].
  destruct (_enforceConstraints _ _ _ _ _ _) as [[[[ok grid7] acc3] processed]|] eqn:Henf;
    [|discriminate].
  assert (Hok7 : gridsOK cfg (setGrid R' grid7 s6)).
  { apply setGrid_gridsOK; [assumption|].
    eapply enforceConstraints_fits; [|exact Henf]. now apply gridAt_fits. }
  assert (Hafter : forall sM itM p,
             gridsOK cfg sM -> solutions (counters sM) = solutions (counters s) ->
             Some (afterEnforce cfg sM itM p) = Some res ->
             match res with
             | Continue s' _ =>
                 gridsOK cfg s' /\ solutions (counters s') = solutions (counters s)
             | Suspend s' _ r =>
                 gridsOK cfg s' /\
                 solutions (counters s') = solutions (counters s) + solutionsIn r /\
                 (forall e, r = Yielded e -> ev_isSolution e = true ->
                            ev_grid e = gridAt s (recDepth it - 1))
             end).
  { intros sM itM p HokM HsolM Hres. injection Hres as <-.
    pose proof (afterEnforce_gridsOK sM itM p HokM) as Ha.
    pose proof (afterEnforce_solutions sM itM p) as Hb.
    destruct (afterEnforce cfg sM itM p) as [s' it' | s' it' r].
    - split; [assumption | congruence].
    - destruct Hb as (Hb1 & Hb2 & Hb3). split; [assumption|].
      split; [rewrite Hb2; lia|].
      intros e He Hs. rewrite (Hb3 e He) in Hs. discriminate. }
  destruct ok; cbn [negb] in H.
  - refine (Hafter _ _ _ _ _ H).
    + apply (gridsOK_frame _ _ eq_refl). exact Hok7.
    + exact Hsol6.
  - destruct (negb (yieldOnContradiction it =? 0) && _).
    + injection H as <-. split; [apply (gridsOK_frame _ _ eq_refl); exact Hok7|].
      split; [cbn; rewrite Hsol6; lia|]. intros e [= <-]. discriminate.
    + refine (Hafter _ _ _ _ _ H).
      * apply (gridsOK_frame _ _ eq_refl). exact Hok7.
      * exact Hsol6.
Qed.

Lemma loop_grids fuel : forall s it s' it' r,
  gridsOK cfg s -> atLoopHead cfg s it ->
  Z.of_nat cfg.(numCells) < 2 ^ 16 ->
  loop fuel cfg s it = Some (s', it', r) ->
  gridsOK cfg s' /\
  solutions (counters s') = solutions (counters s) + solutionsIn r /\
  (forall e, r = Yielded e -> ev_isSolution e = true -> wellFormedGrid cfg (ev_grid e)).
Proof.
  induction fuel as [| fuel IH]; intros s it s' it' r Hok Hhead Hn H; cbn [loop] in H;
    [discriminate|].
  destruct (Nat.eqb_spec (recDepth it) 0) as [H0 | Hne].
  { injection H as <- <- <-. split; [assumption|]. split; [cbn; lia | discriminate]. }
  destruct (pass fuel cfg s it) as [res|] eqn:Hp; [|discriminate].
  pose proof (pass_grids fuel s it res Hok Hp) as Hg.
  pose proof (pass_invariant cfg Hn fuel s it res Hhead Hne Hp) as Hinv.
  destruct res as [s1 it1 | s1 it1 r1].
  - destruct Hg as [Hok1 Hsol1].
    destruct (IH _ _ _ _ _ Hok1 Hinv Hn H) as (Hok' & Hsol' & Hev).
    split; [assumption|]. split; [lia | assumption].
  - injection H as <- <- <-. destruct Hg as (Hok1 & Hsol1 & Hev).
    split; [assumption|]. split; [assumption|].
    intros e He Hs. rewrite (Hev e He Hs).
    apply gridAt_fits; [assumption|].
    destruct Hhead as [_ _ Hfr _ _].
    assert (Hr : (recDepth it - 1 < recDepth it)%nat) by lia.
    specialize (Hfr _ Hr). lia.
Qed.

End Grids.

Section NextGrids.

Import InternalSolver SearchSpec ProgressSpec.

Variable cfg : Config.
Hypothesis Hn16 : Z.of_nat cfg.(numCells) < 2 ^ 16.

(** The state in which the loop is entered. *)
Lemma enterLoop_head s it :
  beforeLoop cfg s it ->
  atLoopHead cfg (set_recStack (<[0%nat := 0]> s.(_recStack)) s)
    (seti_lastContradictionCell (repeat (-1) cfg.(numCells))
       (seti_progressDelta 1%Q (seti_isNewNode true (seti_recDepth 1%nat it)))).
Proof.
  intros [Hsz Hratio Hign Hdrop Hdepth].
  pose proof (sized_recStack _ _ Hsz) as HlenRec.
  constructor.
  - destruct Hsz. constructor; cbn; [now rewrite length_insert | assumption | assumption].
  - cbn. lia.
  - cbn [recDepth seti_lastContradictionCell seti_progressDelta seti_isNewNode
         seti_recDepth]. intros i Hi. assert (i = 0%nat) as -> by lia.
    unfold cellDepthAt. cbn [_recStack set_recStack].
    rewrite list_lookup_insert_eq by lia. cbn. lia.
  - cbn. intros i Hi. lia.
  - cbn [recDepth isNewNode progressDelta droppedProgress seti_lastContradictionCell
         seti_progressDelta seti_isNewNode seti_recDepth counters set_recStack].
    unfold remaining. cbn [Nat.sub]. rewrite take_0. cbn [sumQ fold_right]. lra.
Qed.

Let outcome (s : Solver) (s' : Solver) (r : Result) : Prop :=
  gridsOK cfg s' /\
  solutions (counters s') = solutions (counters s) + solutionsIn r /\
  (forall e, r = Yielded e -> ev_isSolution e = true -> wellFormedGrid cfg (ev_grid e)).

Lemma enterLoop_grids fuel s it s' it' r :
  gridsOK cfg s -> beforeLoop cfg s it ->
  enterLoop fuel cfg s it = Some (s', it', r) ->
  outcome s s' r.
Proof.
  intros Hok Hpre H. unfold enterLoop in H.
  apply (loop_grids cfg) in H; [exact H | | now apply enterLoop_head | assumption].
  apply (gridsOK_frame cfg _ s eq_refl Hok).
Qed.

(** A call of [next()] keeps the grids well-formed, counts a solution
    exactly when it yields one, and a solution is a well-formed grid. *)
Lemma next_grids fuel s it s' it' r :
  invariant cfg s it -> gridsOK cfg s ->
  next fuel cfg s it = Some (s', it', r) ->
  outcome s s' r.
Proof.
  unfold invariant, next. intros Hinv Hok H.
  assert (Hsame : forall msg, outcome s s (Threw msg)).
  { intros msg. split; [assumption|]. split; [cbn; lia | discriminate]. }
  destruct (pc it) as [| | | p | p |] eqn:Hpc.
  - unfold start in H. destruct (negb (_atStart s)).
    { injection H as <- <- <-. apply Hsame. }
    destruct (HandlerAccumulator.clear _) as [acc0|]; [|discriminate].
    destruct (_enforceConstraints _ _ _ _ _ _) as [[[[ok grid] acc2] processed]|] eqn:Henf;
      [|discriminate].
    destruct Hinv as [Hsz Hratio Hign Hdrop Hdepth].
    match type of H with
    | context [setGrid 0 grid ?s1] =>
        assert (Hok2 : gridsOK cfg (setGrid 0 grid s1))
    end.
    { apply setGrid_gridsOK; [exact Hok|].
      eapply enforceConstraints_fits; [|exact Henf].
      apply gridAt_fits. exact Hok. }
    destruct (yieldEveryStep it).
    + injection H as <- <- <-. unfold setStepState_empty.
      split; [|split; [cbn; destruct (_stepState _); cbn; lia | now intros e [= <-]]].
      destruct (_stepState _); exact Hok2.
    + apply enterLoop_grids in H.
      * exact H.
      * exact Hok2.
      * constructor; [destruct Hsz; constructor; assumption | reflexivity | assumption
                      | assumption | assumption].
  - destruct (staleIterator s it).
    { injection H as <- <- <-. apply Hsame. }
    apply enterLoop_grids in H.
    + destruct H as (H1 & H2 & H3). split; [assumption|]. split; [|assumption].
      rewrite H2. destruct (_stepState s); reflexivity.
    + destruct (_stepState s); exact Hok.
    + destruct Hinv as [Hsz Hratio Hign Hdrop Hdepth].
      destruct (_stepState s); constructor; try assumption;
        destruct Hsz; constructor; assumption.
  - destruct (staleIterator s it).
    { injection H as <- <- <-. apply Hsame. }
    apply (loop_grids cfg) in H; assumption.
  - pose proof (afterEnforce_invariant cfg Hn16 s it p Hinv) as Ha.
    pose proof (afterEnforce_gridsOK cfg s it p Hok) as Hg.
    pose proof (afterEnforce_solutions cfg s it p) as Hb.
    destruct (afterEnforce cfg s it p) as [s1 it1 | s1 it1 r1].
    + apply (loop_grids cfg) in H; try assumption.
      destruct H as (H1 & H2 & H3). split; [assumption|]. split; [lia | assumption].
    + injection H as <- <- <-. destruct Hb as (Hb1 & Hb2 & Hb3).
      split; [assumption|]. split; [lia|].
      intros e He Hs. rewrite (Hb3 e He) in Hs. discriminate.
  - destruct (staleIterator s it).
    { injection H as <- <- <-. apply Hsame. }
    match type of H with
    | context [finishPass cfg ?s1 it p] =>
        assert (Hmid : inPass cfg s1 it p /\ gridsOK cfg s1 /\
                       solutions (counters s1) = solutions (counters s));
          [| pose proof (finishPass_gridsOK cfg s1 it p (proj1 (proj2 Hmid))) as Hg;
             assert (Hsol : solutions (counters (fst (finishPass cfg s1 it p)))
                            = solutions (counters s));
             [| destruct (finishPass cfg s1 it p) as [s2 it2] eqn:Hf ] ]
    end.
    { destruct Hinv as [Hsz Hnew Hfr Hnext Htot].
      destruct (_stepState s); (split; [|split; [exact Hok | reflexivity]]);
        constructor; try assumption; destruct Hsz; constructor; assumption. }
    { unfold finishPass. destruct (p_hasContradiction p); [apply Hmid|].
      destruct (match _uninterestingValues _ with Some _ => _ | None => _ end);
        apply Hmid. }
    cbn [fst] in Hg, Hsol.
    pose proof (finishPass_head cfg Hn16 _ _ _ _ _ (proj1 Hmid) Hf) as Hhead.
    apply (loop_grids cfg) in H; try assumption.
    destruct H as (H1 & H2 & H3). split; [assumption|]. split; [lia | assumption].
  - injection H as <- <- <-. split; [assumption|]. split; [cbn; lia | discriminate].
Qed.

End NextGrids.

(** X7.  In a run, [next()] keeps the [numCells + 1] grids of the stack
    well-formed (one 16-bit mask per cell), [counters.solutions] grows
    by one exactly when a solution is yielded, and the grid of a yielded
    solution is such a well-formed grid. *)
Theorem next_counts_solutions
    (cfg : Config) (s0 : InternalSolver.Solver) (yw : Z)
    (s : InternalSolver.Solver) (it : InternalSolver.Iter) (fuel : nat)
    (s' : InternalSolver.Solver) (it' : InternalSolver.Iter) (r : InternalSolver.Result) :
  Z.of_nat cfg.(numCells) < 2 ^ 16 ->
  ProgressSpec.sized cfg s0 ->
  (InternalSolver.progressRatio (InternalSolver.counters s0) == 0)%Q ->
  (InternalSolver.branchesIgnored (InternalSolver.counters s0) == 0)%Q ->
  ProgressSpec.runState cfg s0 yw s it ->
  SearchSpec.gridsOK cfg s ->
  InternalSolver.next fuel cfg s it = Some (s', it', r) ->
  SearchSpec.gridsOK cfg s' /\
  InternalSolver.solutions (InternalSolver.counters s')
  = InternalSolver.solutions (InternalSolver.counters s) + SearchSpec.solutionsIn r /\
  (forall e, r = InternalSolver.Yielded e -> InternalSolver.ev_isSolution e = true ->
             SearchSpec.wellFormedGrid cfg (InternalSolver.ev_grid e)).
Proof.
  intros Hn Hsz Hratio Hign Hrun Hok Hnext.
  pose proof (runState_invariant cfg Hn s0 yw s it Hsz Hratio Hign Hrun) as Hinv.
  exact (next_grids cfg Hn fuel s it s' it' r Hinv Hok Hnext).
Qed.

Lemma make_gridsOK cfg : SearchSpec.gridsOK cfg (InternalSolver.make cfg).
Proof.
  assert (Hz : SearchSpec.wellFormedGrid cfg (repeat 0 cfg.(numCells))).
  { split; [apply repeat_length|]. apply Forall_forall. intros x Hx.
    rewrite repeat_replicate in Hx. apply elem_of_replicate in Hx as [-> _].
    apply isUint16_0. }
  split; cbn.
  - now rewrite repeat_length.
  - constructor.
    + split; [apply setUpHandlers_length | apply setUpHandlers_isUint16].
    + apply Forall_forall. intros g Hg.
      rewrite repeat_replicate in Hg. apply elem_of_replicate in Hg as [-> _]. exact Hz.
Qed.

Lemma next_counts_solutions_witness :
  match Examples.guessFirst with
  | Some (s', _, _) =>
      InternalSolver.solutions (InternalSolver.counters s') = 1
  | None => False
  end.
Proof.
  assert (Hn : Z.of_nat Examples.cfgGuess.(numCells) < 2 ^ 16) by (vm_compute; reflexivity).
  assert (Hnext : InternalSolver.next 10 Examples.cfgGuess
                    (InternalSolver.make Examples.cfgGuess) (InternalSolver.run 0)
                  = Examples.guessFirst) by (vm_compute; reflexivity).
  unfold Examples.guessFirst in *.
  exact (proj1 (proj2 (next_counts_solutions Examples.cfgGuess
                   (InternalSolver.make Examples.cfgGuess) 0
                   (InternalSolver.make Examples.cfgGuess) (InternalSolver.run 0) 10
                   _ _ _ Hn
                   (make_sized Examples.cfgGuess) (Qeq_refl 0) (Qeq_refl 0)
                   (ProgressSpec.run_created _ _ _)
                   (make_gridsOK Examples.cfgGuess) Hnext))).
Defined.

Section Uninteresting.

Import InternalSolver.





End Uninteresting.

Section SolveAll.

Import InternalSolver SearchSpec ProgressSpec.

Variable cfg : Config.
Hypothesis Hn16 : Z.of_nat cfg.(numCells) < 2 ^ 16.
Variable s0 : Solver.
Hypothesis Hsized0 : sized cfg s0.
Hypothesis Hratio0 : (progressRatio (counters s0) == 0)%Q.
Hypothesis Hign0 : (branchesIgnored (counters s0) == 0)%Q.



End SolveAll.



(** ** Masks and values *)

Section MaskValues.

Import LookupTables.

Lemma maxValue_log2 v : 0 < v < 2 ^ 32 -> maxValue v = Z.log2 v + 1.
Proof.
  intros Hv. unfold maxValue, JS.clz32. rewrite toUint32_small by lia.
  destruct (Z.eqb_spec v 0); lia.
Qed.

Lemma fromValue_bits i k :
  1 <= i <= 16 -> 0 <= k -> Z.testbit (fromValue i) k = (k =? i - 1).
Proof.
  intros Hi Hk. rewrite fromValue_pow2 by lia. rewrite Z.pow2_bits_eqb by lia.
  apply Z.eqb_sym.
Qed.

Lemma fromValue_isUint16 i : 1 <= i <= 16 -> isUint16 (fromValue i).
Proof. intros Hi. rewrite fromValue_pow2 by lia. apply pow2_isUint16. lia. Qed.

Lemma fromValuesArray_fold xs : forall acc,
  isUint16 acc -> Forall (fun x => 1 <= x <= 16) xs ->
  isUint16 (fold_left (fun result x => JS.or result (fromValue x)) xs acc) /\
  forall k, 0 <= k ->
    Z.testbit (fold_left (fun result x => JS.or result (fromValue x)) xs acc) k
    = Z.testbit acc k || existsb (fun x => k =? x - 1) xs.
Proof.
  induction xs as [| x xs IH]; intros acc Hacc Hxs.
  - split; [assumption|]. intros k Hk. cbn. now rewrite orb_false_r.
  - apply Forall_cons in Hxs as [Hx Hxs]. cbn [fold_left].
    pose proof (fromValue_isUint16 x Hx) as Hfx.
    assert (Hor : JS.or acc (fromValue x) = Z.lor acc (fromValue x))
      by (now apply or_uint16).
    rewrite Hor.
    destruct (IH (Z.lor acc (fromValue x)) (lor_isUint16 _ _ Hacc Hfx) Hxs) as [IH1 IH2].
    split; [assumption|]. intros k Hk. rewrite IH2 by assumption.
    rewrite Z.lor_spec, fromValue_bits by assumption. cbn [existsb].
    now rewrite orb_assoc.
Qed.

End MaskValues.

(** X9.  [maxValue] of a mask that is not empty is the largest value
    whose bit is set, [toIndex] is the index of that bit, and
    [minValue] and [maxValue] agree exactly on the masks of one
    value. *)
Theorem maxValue_is_largest (v : Z) :
  0 < v < 2 ^ 16 ->
  1 <= LookupTables.minValue v <= LookupTables.maxValue v /\
  LookupTables.maxValue v <= 16 /\
  Z.testbit v (LookupTables.maxValue v - 1) = true /\
  (forall k, LookupTables.maxValue v <= k -> Z.testbit v k = false) /\
  LookupTables.toIndex v = LookupTables.maxValue v - 1 /\
  (LookupTables.minValue v = LookupTables.maxValue v <->
   v = LookupTables.fromValue (LookupTables.maxValue v)).
Proof.
  intros Hv.
  assert (Hmax : LookupTables.maxValue v = Z.log2 v + 1) by (apply maxValue_log2; lia).
  assert (Hidx : LookupTables.toIndex v = Z.log2 v).
  { unfold LookupTables.toIndex, JS.clz32. rewrite toUint32_small by lia.
    destruct (Z.eqb_spec v 0); lia. }
  pose proof (Z.log2_nonneg v) as Hl0.
  assert (Hl16 : Z.log2 v < 16) by (apply Z.log2_lt_pow2; lia).
  assert (Hbit : Z.testbit v (Z.log2 v) = true) by (apply Z.bit_log2; lia).
  destruct (minValue_spec v Hv) as (Hmin1 & Hminbit & Hminlow).
  assert (Hminmax : LookupTables.minValue v <= Z.log2 v + 1).
  { destruct (Z_le_gt_dec (LookupTables.minValue v) (Z.log2 v + 1)) as [|Hgt];
      [assumption|].
    specialize (Hminlow (Z.log2 v + 1) ltac:(lia)).
    replace (Z.log2 v + 1 - 1) with (Z.log2 v) in Hminlow by lia. congruence. }
  rewrite Hmax, Hidx. replace (Z.log2 v + 1 - 1) with (Z.log2 v) by lia.
  split; [lia|]. split; [lia|]. split; [assumption|].
  split; [intros k Hk; apply Z.bits_above_log2; lia|].
  split; [reflexivity|].
  rewrite fromValue_pow2 by lia. replace (Z.log2 v + 1 - 1) with (Z.log2 v) by lia.
  split.
  - intros Heq. apply Z.bits_inj'. intros k Hk.
    rewrite Z.pow2_bits_eqb by lia.
    destruct (Z.eqb_spec (Z.log2 v) k) as [<- | Hne]; [assumption|].
    destruct (Z_lt_ge_dec k (Z.log2 v)).
    + specialize (Hminlow (k + 1) ltac:(lia)).
      now replace (k + 1 - 1) with k in Hminlow by lia.
    + apply Z.bits_above_log2; lia.
  - intros Heq.
    assert (Hk : Z.testbit (2 ^ Z.log2 v) (LookupTables.minValue v - 1) = true)
      by (rewrite <- Heq; assumption).
    rewrite Z.pow2_bits_eqb in Hk by lia. apply Z.eqb_eq in Hk. lia.
Qed.

Lemma maxValue_is_largest_witness :
  0 < 6 < 2 ^ 16 /\ Z.testbit 6 (LookupTables.maxValue 6 - 1) = true.
Proof.
  assert (H : 0 < 6 < 2 ^ 16) by lia.
  split; [exact H|].
  exact (proj1 (proj2 (proj2 (maxValue_is_largest 6 H)))).
Defined.

(** X10.  [fromValuesArray] of values between 1 and 16 is the 16-bit
    mask whose bits are those of the values, and [toValuesArray] gives
    the values back, in increasing order and once each. *)
Theorem fromValuesArray_round_trip (xs : list Z) :
  Forall (fun x => 1 <= x <= 16) xs ->
  isUint16 (LookupTables.fromValuesArray xs) /\
  (forall k, 0 <= k ->
     Z.testbit (LookupTables.fromValuesArray xs) k = existsb (fun x => k =? x - 1) xs) /\
  exists ys, LookupTables.toValuesArray (LookupTables.fromValuesArray xs) = Some ys /\
             StronglySorted Z.lt ys /\ forall v, In v ys <-> In v xs.
Proof.
  intros Hxs. unfold LookupTables.fromValuesArray.
  destruct (fromValuesArray_fold xs 0 isUint16_0 Hxs) as [Hu Hbits].
  split; [assumption|].
  assert (Hbits' : forall k, 0 <= k ->
     Z.testbit (fold_left (fun result x => JS.or result (LookupTables.fromValue x)) xs 0) k
     = existsb (fun x => k =? x - 1) xs).
  { intros k Hk. rewrite Hbits by assumption. now rewrite Z.bits_0. }
  split; [assumption|].
  destruct (toValuesArray_spec _ Hu) as (ys & Hys & Hsorted & Hin).
  exists ys. split; [assumption|]. split; [assumption|].
  intros v. rewrite Hin. split.
  - intros [Hv Hb]. rewrite Hbits' in Hb by lia.
    apply existsb_exists in Hb as (x & Hx & Hvx). apply Z.eqb_eq in Hvx.
    now replace v with x by lia.
  - intros Hv. pose proof (proj1 (List.Forall_forall _ _) Hxs v Hv) as Hr.
    cbv beta in Hr. split; [assumption|].
    rewrite Hbits' by lia. apply existsb_exists. exists v. split; [assumption|].
    now apply Z.eqb_eq.
Qed.

Lemma fromValuesArray_round_trip_witness :
  exists ys, LookupTables.toValuesArray (LookupTables.fromValuesArray [3; 1; 3]) = Some ys /\
             forall v, In v ys <-> In v [3; 1; 3].
Proof.
  assert (Hxs : Forall (fun x => 1 <= x <= 16) [3; 1; 3]).
  { repeat constructor; lia. }
  destruct (fromValuesArray_round_trip [3; 1; 3] Hxs) as (_ & _ & ys & Hys & _ & Hin).
  exists ys. split; assumption.
Defined.

(** ** Pencilmarks and the difference of two grids *)

Lemma sorted_singleton (l : list Z) i :
  StronglySorted Z.lt l -> (forall j, In j l <-> j = i) -> l = [i].
Proof.
  intros Hs Hin. destruct l as [| a l].
  - exfalso. now apply (proj2 (Hin i) eq_refl).
  - assert (Ha : a = i) by (apply Hin; now left). subst a.
    destruct l as [| b l]; [reflexivity|]. exfalso.
    assert (Hb : b = i) by (apply Hin; right; now left).
    apply StronglySorted_inv in Hs as [_ Hlt].
    apply List.Forall_inv in Hlt. lia.
Qed.

Lemma toValuesArray_fromValue i :
  1 <= i <= 16 -> LookupTables.toValuesArray (LookupTables.fromValue i) = Some [i].
Proof.
  intros Hi.
  destruct (toValuesArray_spec _ (fromValue_isUint16 i Hi)) as (l & Hl & Hs & Hin).
  rewrite Hl. f_equal. apply sorted_singleton; [assumption|].
  intros j. rewrite Hin. split.
  - intros [Hj Hb]. rewrite fromValue_bits in Hb by lia. apply Z.eqb_eq in Hb. lia.
  - intros ->. split; [assumption|]. rewrite fromValue_bits by lia. apply Z.eqb_refl.
Qed.

(** X11.  [makePencilmarks] gives, for every cell of a grid of 16-bit
    masks, exactly the values whose bits are set in the cell, in
    increasing order; on a solved grid it gives the one value that
    [gridToSolution] gives for the cell. *)
Theorem makePencilmarks_lists_candidates (grid : list Z) :
  Forall isUint16 grid ->
  exists pencilmarks,
    SudokuSolver.makePencilmarks grid = Some pencilmarks /\
    Forall2 (fun v l => StronglySorted Z.lt l /\
                        forall i, In i l <-> 1 <= i <= 16 /\ Z.testbit v (i - 1) = true)
            grid pencilmarks /\
    (Forall (fun v => exists i, 1 <= i <= 16 /\ v = LookupTables.fromValue i) grid ->
     pencilmarks = map (fun i => [i]) (Util.gridToSolution grid)).
Proof.
  unfold SudokuSolver.makePencilmarks, Util.gridToSolution.
  induction 1 as [| v grid Hv _ (pm & Hpm & Hall & Hsol)].
  - exists []. split; [reflexivity|]. split; [constructor|]. intros _. reflexivity.
  - destruct (toValuesArray_spec v Hv) as (l & Hl & Hs & Hin).
    exists (l :: pm). split; [|split].
    + apply mapM_Some_2. constructor; [assumption | now apply mapM_Some_1].
    + constructor; [split|]; assumption.
    + intros Hsing. apply Forall_cons in Hsing as [(i & Hi & ->) Hsing].
      cbn [map]. rewrite <- (Hsol Hsing). f_equal.
      rewrite toValuesArray_fromValue in Hl by assumption. injection Hl as <-.
      rewrite toValue_fromValue by lia. now rewrite toUint16_small by lia.
Qed.

Lemma makePencilmarks_lists_candidates_witness :
  exists pencilmarks,
    SudokuSolver.makePencilmarks [5; 2] = Some pencilmarks /\
    Forall2 (fun v l => forall i, In i l <-> 1 <= i <= 16 /\ Z.testbit v (i - 1) = true)
            [5; 2] pencilmarks.
Proof.
  assert (Hg : Forall isUint16 [5; 2]).
  { repeat constructor; unfold isUint16; lia. }
  destruct (makePencilmarks_lists_candidates [5; 2] Hg) as (pm & Hpm & Hall & _).
  exists pm. split; [assumption|].
  eapply Forall2_impl; [exact Hall|]. intros v l [_ Hin]. exact Hin.
Defined.

Lemma gridDifference_fold gridB n : forall start a,
  Forall isUint16 a -> Forall isUint16 gridB ->
  let r := fold_left (fun a i => storeCell a i (JS.and (readCell a i) (JS.not (readCell gridB i))))
                     (seq start n) a in
  length r = length a /\ Forall isUint16 r /\
  forall c, readCell r c =
            if decide (start <= c < start + n)%nat
            then Z.land (readCell a c) (Z.lnot (readCell gridB c))
            else readCell a c.
Proof.
  induction n as [| n IH]; intros start a Ha Hb; cbn zeta.
  - cbn. repeat split; try assumption. intros c.
    destruct (decide _) as [Hc|]; [lia | reflexivity].
  - cbn [seq fold_left].
    set (a1 := storeCell a start _).
    assert (Ha1 : Forall isUint16 a1) by (now apply storeCell_isUint16).
    destruct (IH (S start) a1 Ha1 Hb) as (Hlen & Hu & Hcells).
    split; [rewrite Hlen; apply storeCell_length|]. split; [assumption|].
    intros c. rewrite Hcells.
    assert (Hstart : readCell a1 start
                     = Z.land (readCell a start) (Z.lnot (readCell gridB start))).
    { unfold a1. destruct (Nat.lt_ge_cases start (length a)) as [Hlt | Hge].
      - rewrite readCell_storeCell_eq by assumption.
        rewrite and_not_uint16 by (now apply readCell_isUint16).
        apply toUint16_small. apply land_isUint16. now apply readCell_isUint16.
      - unfold storeCell. rewrite list_insert_ge by assumption.
        rewrite readCell_beyond by assumption. now rewrite Z.land_0_l. }
    destruct (decide (c = start)) as [-> | Hne].
    + destruct (decide (S start <= start < S start + n)%nat); [lia|].
      destruct (decide (start <= start < start + S n)%nat); [|lia].
      exact Hstart.
    + assert (Hc : readCell a1 c = readCell a c)
        by (unfold a1; now apply readCell_storeCell_ne).
      rewrite Hc.
      destruct (decide (S start <= c < S start + n)%nat),
               (decide (start <= c < start + S n)%nat); try lia; reflexivity.
Qed.

(** X12.  [gridDifference] keeps the length of the first grid and
    leaves in each of its cells the candidates that the cell of the
    second grid does not have; a cell that the second grid lacks is
    left as it is, and the difference of a grid with itself is empty
    everywhere. *)
Theorem gridDifference_removes_candidates (gridA gridB : list Z) :
  Forall isUint16 gridA -> Forall isUint16 gridB ->
  length (GridUtil.gridDifference gridA gridB) = length gridA /\
  Forall isUint16 (GridUtil.gridDifference gridA gridB) /\
  (forall c k, 0 <= k ->
     Z.testbit (readCell (GridUtil.gridDifference gridA gridB) c) k
     = Z.testbit (readCell gridA c) k && negb (Z.testbit (readCell gridB c) k)) /\
  (forall c, (length gridB <= c)%nat ->
     readCell (GridUtil.gridDifference gridA gridB) c = readCell gridA c) /\
  (gridA = gridB ->
   GridUtil.gridDifference gridA gridB = map (fun _ => 0) gridA).
Proof.
  intros Ha Hb. unfold GridUtil.gridDifference.
  destruct (gridDifference_fold gridB (length gridA) 0 gridA Ha Hb) as (Hlen & Hu & Hcells).
  cbv zeta in Hlen, Hu, Hcells.
  assert (Hcell : forall c,
    readCell (fold_left (fun a i => storeCell a i (JS.and (readCell a i) (JS.not (readCell gridB i))))
                        (seq 0 (length gridA)) gridA) c
    = Z.land (readCell gridA c) (Z.lnot (readCell gridB c))).
  { intros c. rewrite Hcells. destruct (decide _) as [|Hn]; [reflexivity|].
    rewrite (readCell_beyond gridA) by lia. now rewrite Z.land_0_l. }
  split; [assumption|]. split; [assumption|]. split; [|split].
  - intros c k Hk. rewrite Hcell, Z.land_spec, Z.lnot_spec by assumption. reflexivity.
  - intros c Hc. rewrite Hcell, (readCell_beyond gridB) by assumption.
    change (Z.lnot 0) with (-1). apply Z.land_m1_r.
  - intros ->. apply list_eq_readCell.
    + rewrite Hlen. now rewrite length_map.
    + intros c _. rewrite Hcell, readCell_map_zero.
      apply Z.bits_inj'. intros k Hk.
      rewrite Z.land_spec, Z.lnot_spec, Z.bits_0 by assumption. apply andb_negb_r.
Qed.

Lemma gridDifference_removes_candidates_witness :
  length (GridUtil.gridDifference [7; 5] [3]) = 2%nat /\
  readCell (GridUtil.gridDifference [7; 5] [3]) 1 = 5.
Proof.
  assert (Ha : Forall isUint16 [7; 5]) by (repeat constructor; unfold isUint16; lia).
  assert (Hb : Forall isUint16 [3]) by (repeat constructor; unfold isUint16; lia).
  destruct (gridDifference_removes_candidates [7; 5] [3] Ha Hb) as (Hlen & _ & _ & Hout & _).
  split; [exact Hlen|]. apply (Hout 1%nat). cbn. lia.
Defined.
